(** * MyRPC: a shallow embedding of the call table, the registry, the
      hash ring, the option parser, the service lookup and the server's
      response pipeline, with the properties stated about them.

    Conventions.
    - A Go [uint32] / [uint64] is an [N] with its wrap-around written out.
    - A Go [map[K]V] is a [gmap K V]; reading a missing key gives the zero
      value of [V], written with [default].
    - A Go [error] is an [option string]: [None] is [nil].
    - A nil-able pointer is an [option].
    - A run-time panic (index out of range) is the [None] of an [option]
      result.
    - Code that runs under a mutex is one atomic step of a transition
      system; goroutines interleave between such steps. *)

From Stdlib Require Import NArith ZArith Ascii String List DecimalString Sorted.
From stdpp Require Import base gmap strings list fin_maps sorting.

Local Open Scope string_scope.
Local Open Scope list_scope.

(** ** Runtime helpers of the Go standard library *)

Module GoLib.

(** The line feed and carriage return bytes of Go's ["\n"] and ["\r"]. *)
Definition LF : string := String (ascii_of_nat 10) EmptyString.
Definition CR : string := String (ascii_of_nat 13) EmptyString.

(** [strconv.Itoa] on a non-negative int. *)
Definition Itoa (i : nat) : string :=
  NilEmpty.string_of_uint (Nat.to_uint i).

(** [hash/crc32.ChecksumIEEE]: the reflected CRC-32 with polynomial
    0xEDB88320, initial value and final xor 0xFFFFFFFF. *)
Definition crc_poly : N := 0xEDB88320%N.
Definition crc_mask : N := 0xFFFFFFFF%N.

Definition crc_shift1 (c : N) : N :=
  if N.testbit c 0 then N.lxor (N.shiftr c 1) crc_poly else N.shiftr c 1.

Definition crc_byte (c : N) (b : ascii) : N :=
  let c0 := N.lxor c (N_of_ascii b) in
  crc_shift1 (crc_shift1 (crc_shift1 (crc_shift1
    (crc_shift1 (crc_shift1 (crc_shift1 (crc_shift1 c0))))))).

Fixpoint crc_update (c : N) (s : string) : N :=
  match s with
  | EmptyString => c
  | String b s' => crc_update (crc_byte c b) s'
  end.

Definition ChecksumIEEE (s : string) : N :=
  N.lxor (crc_update crc_mask s) crc_mask.

(** [strings.Join]. *)
Fixpoint Join (elems : list string) (sep : string) : string :=
  match elems with
  | [] => ""
  | [e] => e
  | e :: rest => (e ++ sep ++ Join rest sep)%string
  end.

(** [strings.LastIndex s "."]: the byte index of the last dot, if any. *)
Fixpoint LastIndexDot (s : string) : option nat :=
  match s with
  | EmptyString => None
  | String c s' =>
      match LastIndexDot s' with
      | Some i => Some (S i)
      | None => if Ascii.eqb c "."%char then Some 0 else None
      end
  end.

(** The slice expressions [s[:n]] and [s[n:]] for [n <= len(s)]. *)
Fixpoint prefix_to (n : nat) (s : string) : string :=
  match n, s with
  | 0, _ => ""
  | S n', String c s' => String c (prefix_to n' s')
  | S _, EmptyString => ""
  end.

Fixpoint suffix_from (n : nat) (s : string) : string :=
  match n, s with
  | 0, _ => s
  | S n', String _ s' => suffix_from n' s'
  | S _, EmptyString => ""
  end.

(** [strings.Split(s, sep)] for a separator of one byte. *)
Fixpoint Split (sep : ascii) (s : string) : list string :=
  match s with
  | EmptyString => [""]
  | String c s' =>
      if Ascii.eqb c sep then "" :: Split sep s'
      else match Split sep s' with
           | x :: xs => String c x :: xs
           | [] => [String c ""]
           end
  end.

(** The byte [sep] occurs in [s]. *)
Fixpoint containsByte (sep : ascii) (s : string) : bool :=
  match s with
  | EmptyString => false
  | String c s' => Ascii.eqb c sep || containsByte sep s'
  end.

(** The white space of ASCII: tab, line feed, vertical tab, form feed,
    carriage return, space. *)
Definition isSpace (c : ascii) : bool :=
  let n := nat_of_ascii c in
  ((9 <=? n)%nat && (n <=? 13)%nat) || (n =? 32)%nat.

Fixpoint trimLeft (s : string) : string :=
  match s with
  | EmptyString => ""
  | String c s' => if isSpace c then trimLeft s' else s
  end.

Fixpoint trimRight (s : string) : string :=
  match s with
  | EmptyString => ""
  | String c s' =>
      match trimRight s' with
      | EmptyString => if isSpace c then "" else String c ""
      | t => String c t
      end
  end.

(** [strings.TrimSpace] on a string of ASCII.  (Go also strips the spaces
    of Unicode beyond ASCII, which take several bytes in UTF-8.) *)
Definition TrimSpace (s : string) : string := trimRight (trimLeft s).

(** The arithmetic of a Go [int] (64 bits, two's complement). *)
Definition wrapInt (z : Z) : Z := ((z + 2 ^ 63) mod 2 ^ 64 - 2 ^ 63)%Z.

End GoLib.

(** ** The consistent-hash ring (package xclient) *)

Module HashRing.
Import GoLib.

Local Open Scope N_scope.

(** [type HashRing struct]: the replica count (a Go [int]), the map from a
    node's hash to its server address, and the ring itself, the slice of
    all node hashes. *)
Record HashRing := mkHashRing {
  replicateCount : Z;
  nodes : gmap N string;
  sortedNodes : list N
}.

(** [hr.hashKey]. *)
Definition hashKey (key : string) : N := ChecksumIEEE key.

(** The hash of the [i]-th node of a server: [hashKey(strconv.Itoa(i) + masterNode)]. *)
Definition nodeKey (masterNode : string) (i : nat) : N :=
  hashKey (Itoa i ++ masterNode)%string.

(** The values [0, 1, ..., replicateCount-1] of the loop variable of
    [AddNode] and [removeNode]; none when the count is not positive. *)
Definition replicas (count : Z) : list nat := seq 0 (Z.to_nat count).

(** [sort.Slice(hr.sortedNodes, less)] with [less] the order [<] of uint32. *)
Definition sortSlice (l : list N) : list N := merge_sort N.le l.

(** One iteration of the loop of [AddNode]. *)
Definition addKey (masterNode : string) (hr : HashRing) (i : nat) : HashRing :=
  let key := nodeKey masterNode i in
  {| replicateCount := replicateCount hr;
     nodes := <[key := masterNode]> (nodes hr);
     sortedNodes := sortedNodes hr ++ [key] |}.

Definition AddNode (masterNode : string) (hr : HashRing) : HashRing :=
  let hr' := foldl (addKey masterNode) hr (replicas (replicateCount hr)) in
  {| replicateCount := replicateCount hr';
     nodes := nodes hr';
     sortedNodes := sortSlice (sortedNodes hr') |}.

Definition addNodes (masterNodes : list string) (hr : HashRing) : HashRing :=
  foldl (fun h node => AddNode node h) hr masterNodes.

Definition New (masterNodes : list string) (count : Z) : HashRing :=
  addNodes masterNodes
    {| replicateCount := count; nodes := ∅; sortedNodes := [] |}.

(** [getIndexForKey]: the linear scan, returning [(success, index)] with
    [(false, -1)] when the key is not on the ring. *)
Fixpoint getIndexForKey_from (i : Z) (l : list N) (key : N) : bool * Z :=
  match l with
  | [] => (false, (-1)%Z)
  | v :: l' =>
      if N.eqb v key then (true, i) else getIndexForKey_from (i + 1)%Z l' key
  end.

Definition getIndexForKey (hr : HashRing) (key : N) : bool * Z :=
  getIndexForKey_from 0%Z (sortedNodes hr) key.

(** [append(s[:index], s[index+1:]...)]. *)
Definition splice (index : Z) (s : list N) : list N :=
  take (Z.to_nat index) s ++ drop (Z.to_nat index + 1) s.

(** One iteration of the loop of [removeNode]. *)
Definition removeKey (masterNode : string) (hr : HashRing) (i : nat) : HashRing :=
  let key := nodeKey masterNode i in
  let '(success, index) := getIndexForKey hr key in
  {| replicateCount := replicateCount hr;
     nodes := delete key (nodes hr);
     sortedNodes :=
       if success then splice index (sortedNodes hr) else sortedNodes hr |}.

Definition removeNode (masterNode : string) (hr : HashRing) : HashRing :=
  foldl (removeKey masterNode) hr (replicas (replicateCount hr)).

(** [hr.nodes[node]]: a missing key reads as the empty string. *)
Definition backend (hr : HashRing) (node : N) : string :=
  default ""%string (nodes hr !! node).

(** The [for _, node := range nodes] loop of [GetNode], which stops at the
    first node with [hashKey < node]. *)
Fixpoint GetNode_loop (hr : HashRing) (h : N) (masterNode : string)
    (l : list N) : string :=
  match l with
  | [] => masterNode
  | node :: l' =>
      if h <? node then backend hr node else GetNode_loop hr h masterNode l'
  end.

(** [GetNode]; [None] is the index-out-of-range panic of [nodes[0]] on an
    empty slice. *)
Definition GetNode (key : string) (hr : HashRing) : option string :=
  if decide (size (nodes hr) = 0%nat) then Some ""%string
  else
    match sortedNodes hr with
    | [] => None
    | n0 :: _ =>
        Some (GetNode_loop hr (hashKey key) (backend hr n0) (sortedNodes hr))
    end.

(** The rings a program can hold: built by [New] and changed by [AddNode]
    and [removeNode] (the fields are not exported). *)
Inductive reachable (count : Z) : HashRing → Prop :=
  | reachable_New masterNodes : reachable count (New masterNodes count)
  | reachable_AddNode b hr :
      reachable count hr → reachable count (AddNode b hr)
  | reachable_removeNode b hr :
      reachable count hr → reachable count (removeNode b hr).

(** *** Notions used to state the properties of the ring *)

(** The node hashes of a server, in loop order. *)
Definition ringKeys (count : Z) (masterNode : string) : list N :=
  nodeKey masterNode <$> replicas count.

(** What one iteration of [removeNode] does to the slice. *)
Definition dropKey (key : N) (s : list N) : list N :=
  let '(success, index) := getIndexForKey_from 0%Z s key in
  if success then splice index s else s.

(** The invariant of the rings built through the API: the replica count
    is fixed, the slice is ascending, every key of the map is on the
    slice, and a key mapped to a server is one of that server's hashes. *)
Record ring_inv (count : Z) (hr : HashRing) : Prop := mkRingInv {
  inv_count : replicateCount hr = count;
  inv_sorted : Sorted N.le (sortedNodes hr);
  inv_keys : ∀ k, is_Some (nodes hr !! k) → k ∈ sortedNodes hr;
  inv_owner : ∀ k b, nodes hr !! k = Some b → k ∈ ringKeys count b
}.

End HashRing.


(** ** The registry (package registry) *)

Module Registry.
Import GoLib.

Local Open Scope Z_scope.

(** [type ServerItem struct].  A [time.Time] is the number of nanoseconds
    since a fixed origin, a [time.Duration] a number of nanoseconds. *)
Record ServerItem := mkServerItem {
  Addr : string;
  start : Z
}.

(** [type MyRegistry struct]; the mutex is held over the whole of each
    method below, which makes each of them one atomic step. *)
Record MyRegistry := mkMyRegistry {
  timeout : Z;
  servers : gmap string ServerItem
}.

Definition defaultTimeout : Z := 5 * 60 * 1000000000.

Definition New (timeout : Z) : MyRegistry :=
  {| timeout := timeout; servers := ∅ |}.

(** [putServer], called at time [now]. *)
Definition putServer (addr : string) (now : Z) (r : MyRegistry) : MyRegistry :=
  match servers r !! addr with
  | None =>
      {| timeout := timeout r;
         servers := <[addr := {| Addr := addr; start := now |}]> (servers r) |}
  | Some s =>
      {| timeout := timeout r;
         servers := <[addr := {| Addr := Addr s; start := now |}]> (servers r) |}
  end.

(** The test [r.timeout == 0 || s.start.Add(r.timeout).After(time.Now())]. *)
Definition isAlive (timeout now : Z) (s : ServerItem) : bool :=
  (timeout =? 0) || (now <? start s + timeout).

(** The order [<=] of Go strings: byte by byte, a proper prefix first. *)
Definition strLe (s1 s2 : string) : Prop := String.leb s1 s2 = true.

#[global] Instance strLe_dec s1 s2 : Decision (strLe s1 s2).
Proof. unfold strLe. apply _. Defined.

(** [sort.Strings]. *)
Definition sortStrings (l : list string) : list string := merge_sort strLe l.

(** One iteration of the [range r.servers] loop of [aliveServers]: the
    entry is appended to [alive] or deleted from the table. *)
Definition aliveStep (timeout now : Z)
    (acc : list string * gmap string ServerItem)
    (entry : string * ServerItem) : list string * gmap string ServerItem :=
  if isAlive timeout now entry.2
  then (acc.1 ++ [entry.1], acc.2)
  else (acc.1, delete entry.1 acc.2).

(** [aliveServers] at time [now], the loop visiting the entries of the
    table in the order [order] (Go leaves the order of a [range] over a
    map unspecified).  The result is the sorted slice and the registry
    after the evictions. *)
Definition aliveServers_in (order : list (string * ServerItem)) (now : Z)
    (r : MyRegistry) : list string * MyRegistry :=
  let acc := foldl (aliveStep (timeout r) now) ([], servers r) order in
  (sortStrings acc.1, {| timeout := timeout r; servers := acc.2 |}).

(** [aliveServers] with the entries visited in the order of [map_to_list]. *)
Definition aliveServers (now : Z) (r : MyRegistry) : list string * MyRegistry :=
  aliveServers_in (map_to_list (servers r)) now r.

(** An HTTP request as far as the registry reads it, and the response as
    far as it writes it; a status that is never set is 200. *)
Record Request := mkRequest {
  Method : string;
  Header : gmap string string
}.

Record Response := mkResponse {
  StatusCode : Z;
  RespHeader : gmap string string
}.

(** [req.Header.Get]. *)
Definition HeaderGet (req : Request) (name : string) : string :=
  default "" (Header req !! name).

Definition StatusOK : Z := 200.
Definition StatusInternalServerError : Z := 500.
Definition StatusMethodNotAllowed : Z := 405.

(** [ServeHTTP] at time [now]. *)
Definition ServeHTTP_in (order : list (string * ServerItem)) (now : Z)
    (req : Request) (r : MyRegistry) : Response * MyRegistry :=
  if String.eqb (Method req) "GET" then
    let res := aliveServers_in order now r in
    ({| StatusCode := StatusOK;
        RespHeader := {[ "X-Myrpc-Servers" := Join res.1 "," ]} |}, res.2)
  else if String.eqb (Method req) "POST" then
    let addr := HeaderGet req "X-Myrpc-Server" in
    if String.eqb addr "" then
      ({| StatusCode := StatusInternalServerError; RespHeader := ∅ |}, r)
    else
      ({| StatusCode := StatusOK; RespHeader := ∅ |}, putServer addr now r)
  else
    ({| StatusCode := StatusMethodNotAllowed; RespHeader := ∅ |}, r).

Definition ServeHTTP (now : Z) (req : Request) (r : MyRegistry)
    : Response * MyRegistry :=
  ServeHTTP_in (map_to_list (servers r)) now req r.

(** The entries that pass the liveness test at time [now]. *)
Definition aliveAt (timeout now : Z) (s : ServerItem) : Prop :=
  timeout = 0 ∨ now < start s + timeout.

#[global] Instance aliveAt_dec timeout now s : Decision (aliveAt timeout now s).
Proof. unfold aliveAt. apply _. Defined.

(** The registries a program can hold: made by [New] and changed by the
    requests served. *)
Inductive reachable (t : Z) : MyRegistry → Prop :=
  | reachable_New : reachable t (New t)
  | reachable_ServeHTTP order now req r :
      reachable t r → order ≡ₚ map_to_list (servers r) →
      reachable t (ServeHTTP_in order now req r).2.

(** The requests [reqs], each with the time at which it is served, one
    after the other. *)
Definition serve (reqs : list (Z * Request)) (r : MyRegistry) : MyRegistry :=
  foldl (λ r x, (ServeHTTP x.1 x.2 r).2) r reqs.

End Registry.

(** ** The wire header and the codec types (package codec) *)

Module Codec.

(** [type Header struct]. *)
Record Header := mkHeader {
  ServiceMethod : string;
  Seq : N;
  Error : string
}.

Definition GobType : string := "application/gob".
Definition JsonType : string := "application/json".

End Codec.

(** ** The client (package MyRPC, client side) *)

Module Client.

Local Open Scope N_scope.

(** Arithmetic of [uint64]. *)
Definition uint64_modulus : N := 2 ^ 64.
Definition uint64_max : N := uint64_modulus - 1.
Definition wrap64 (n : N) : N := n mod uint64_modulus.

(** A result [(value, error)] of which exactly one part is set. *)
Inductive result (A : Type) : Type :=
  | OK (a : A)
  | Err (msg : string).
Arguments OK {A} a.
Arguments Err {A} msg.

(** *** Options *)

Definition MagicNumber : Z := 0x79779200.

(** [type Option struct]; the durations are in nanoseconds. *)
Record Option := mkOption {
  Option_MagicNumber : Z;
  Option_CodecType : string;
  Option_ConnectTimeout : Z;
  Option_HandleTimeout : Z
}.

(** [var DefaultOption]; nothing in the repository assigns to it. *)
Definition DefaultOption : Option :=
  {| Option_MagicNumber := MagicNumber;
     Option_CodecType := Codec.GobType;
     Option_ConnectTimeout := 10 * 1000000000;
     Option_HandleTimeout := 0 |}.

(** [parseOptions(opts ...*Option)]: an element of [opts] is a pointer,
    [None] when it is nil.  The option returned in the last case is the
    caller's own, written in place. *)
Definition parseOptions (opts : list (option Option)) : result Option :=
  match opts with
  | [] => OK DefaultOption
  | None :: _ => OK DefaultOption
  | Some opt :: _ =>
      if negb (Nat.eqb (List.length opts) 1)
      then Err "number of options is more than 1"
      else
        let opt1 :=
          {| Option_MagicNumber := Option_MagicNumber DefaultOption;
             Option_CodecType := Option_CodecType opt;
             Option_ConnectTimeout := Option_ConnectTimeout opt;
             Option_HandleTimeout := Option_HandleTimeout opt |} in
        if String.eqb (Option_CodecType opt1) ""
        then OK {| Option_MagicNumber := Option_MagicNumber opt1;
                   Option_CodecType := Option_CodecType DefaultOption;
                   Option_ConnectTimeout := Option_ConnectTimeout opt1;
                   Option_HandleTimeout := Option_HandleTimeout opt1 |}
        else OK opt1
  end.

(** *** Calls and the client state *)

(** The address of a [Call] and the identity of a channel. *)
Definition loc : Type := nat.
Definition chan : Type := nat.

(** [type Call struct].  Arguments and replies are kept as their
    encodings; [Done] names the channel, which several calls may share. *)
Record Call := mkCall {
  Seq : N;
  ServiceMethod : string;
  Args : string;
  Reply : string;
  Error : option string;
  Done : chan
}.

Definition ErrShutdown : string := "connection is shut down".

(** [type Client struct] without its codec and its two mutexes: [pending]
    holds pointers to calls. *)
Record Client := mkClient {
  header : Codec.Header;
  pending : gmap N loc;
  seq : N;
  closing : bool;
  shutdown : bool
}.

(** The state of the receiving goroutine: in its loop, out of it with the
    error that ended it and about to call [terminateCalls], or finished. *)
Inductive receiver : Type :=
  | Receiving
  | Failed (err : string)
  | Exited.

(** The client together with the objects it shares with its callers:
    the calls, the content sent so far on each channel, and the goroutine
    that holds the [sending] mutex, if any: [Some (call, seq)] is a
    [send] between [registerCall] and the write. *)
Record World := mkWorld {
  client : Client;
  heap : gmap loc Call;
  chans : gmap chan (list loc);
  sender : option (loc * N);
  recv : receiver
}.

(** [newClientCodec]: sequence numbers start at 1. *)
Definition newClient : Client :=
  {| header := Codec.mkHeader "" 0 "";
     pending := ∅; seq := 1; closing := false; shutdown := false |}.

Definition newWorld : World :=
  {| client := newClient; heap := ∅; chans := ∅; sender := None;
     recv := Receiving |}.

(** Field updates. *)
Definition setClient (c : Client) (w : World) : World :=
  {| client := c; heap := heap w; chans := chans w; sender := sender w;
     recv := recv w |}.

Definition setHeap (h : gmap loc Call) (w : World) : World :=
  {| client := client w; heap := h; chans := chans w; sender := sender w;
     recv := recv w |}.

Definition setSender (s : option (loc * N)) (w : World) : World :=
  {| client := client w; heap := heap w; chans := chans w; sender := s;
     recv := recv w |}.

Definition setRecv (r : receiver) (w : World) : World :=
  {| client := client w; heap := heap w; chans := chans w; sender := sender w;
     recv := r |}.

(** [call.Error = err] through the pointer [l]. *)
Definition setError (l : loc) (err : option string) (w : World) : World :=
  setHeap (alter (λ c, {| Seq := Seq c; ServiceMethod := ServiceMethod c;
                          Args := Args c; Reply := Reply c; Error := err;
                          Done := Done c |}) l (heap w)) w.

(** Decoding a body into [call.Reply]. *)
Definition setReply (l : loc) (body : string) (w : World) : World :=
  setHeap (alter (λ c, {| Seq := Seq c; ServiceMethod := ServiceMethod c;
                          Args := Args c; Reply := body; Error := Error c;
                          Done := Done c |}) l (heap w)) w.

(** [call.Seq = s] through the pointer [l]. *)
Definition setSeq (l : loc) (s : N) (w : World) : World :=
  setHeap (alter (λ c, {| Seq := s; ServiceMethod := ServiceMethod c;
                          Args := Args c; Reply := Reply c; Error := Error c;
                          Done := Done c |}) l (heap w)) w.

(** [call.done()]: [call.Done <- call]. *)
Definition done (l : loc) (w : World) : World :=
  match heap w !! l with
  | None => w
  | Some c =>
      {| client := client w; heap := heap w;
         chans := <[Done c := default [] (chans w !! Done c) ++ [l]]> (chans w);
         sender := sender w; recv := recv w |}
  end.

(** [registerCall(call)], the pointer [call] being [l]. *)
Definition registerCall (l : loc) (w : World) : (N * option string) * World :=
  let c := client w in
  if closing c || shutdown c then ((0, Some ErrShutdown), w)
  else
    let s := seq c in
    let w1 := setSeq l s w in
    let c' := {| header := header c; pending := <[s := l]> (pending c);
                 seq := wrap64 (s + 1); closing := closing c;
                 shutdown := shutdown c |} in
    ((s, None), setClient c' w1).

(** [removeCall(seq)]. *)
Definition removeCall (s : N) (w : World) : option loc * World :=
  let c := client w in
  (pending c !! s,
   setClient {| header := header c; pending := delete s (pending c);
                seq := seq c; closing := closing c; shutdown := shutdown c |} w).

(** [terminateCalls(err)].  The calls are notified in the order of
    [map_to_list]; Go leaves the order open. *)
Definition terminateCalls (err : string) (w : World) : World :=
  let c := client w in
  let w1 := setClient {| header := header c; pending := pending c;
                         seq := seq c; closing := closing c;
                         shutdown := true |} w in
  foldl (λ w e, done e.2 (setError e.2 (Some err) w)) w1
    (map_to_list (pending c)).

(** [Close]. *)
Definition Close (w : World) : option string * World :=
  let c := client w in
  if closing c then (Some ErrShutdown, w)
  else (None, setClient {| header := header c; pending := pending c;
                           seq := seq c; closing := true;
                           shutdown := shutdown c |} w).

(** [IsAvailable]. *)
Definition IsAvailable (w : World) : bool :=
  negb (shutdown (client w)) && negb (closing (client w)).

(** *** The steps of the goroutines *)

(** What the environment decides at each step: which call is made, what
    the connection delivers, whether a write or a decoding succeeds. *)
Inductive event : Type :=
  (** [Go]: the call is allocated at the fresh address [l] and [send]
      takes [sending] and registers it.  The channel [dn] is buffered:
      [Go] panics on an unbuffered one before it makes any call. *)
  | EvGo (l : loc) (serviceMethod args : string) (dn : chan)
  (** The write of [send] succeeds, or fails with an error. *)
  | EvWrite (err : option string)
  (** [receive] reads a header, then the body; [bodyErr] is the outcome of
      [ReadBody] and [body] what it decodes. *)
  | EvHeader (h : Codec.Header) (body : string) (bodyErr : option string)
  (** [receive] fails to read a header. *)
  | EvHeaderErr (err : string)
  (** [receive] runs [terminateCalls] on its way out. *)
  | EvTerminate
  (** The context of the [Call] that made the call [l] is done. *)
  | EvCancel (l : loc)
  (** The user closes the client. *)
  | EvClose.

(** [send], up to the write. *)
Definition sendRegister (l : loc) (w : World) : World :=
  let '((s, err), w1) := registerCall l w in
  let w2 := match err with
            | Some e => done l (setError l (Some e) w1)
            | None => w1
            end in
  let c := client w2 in
  setSender (Some (l, s))
    (setClient {| header := Codec.mkHeader
                              (default "" (ServiceMethod <$> heap w2 !! l)) s "";
                  pending := pending c; seq := seq c; closing := closing c;
                  shutdown := shutdown c |} w2).

(** [send], from the outcome of the write on. *)
Definition sendWrite (s : N) (err : option string) (w : World) : World :=
  match err with
  | None => setSender None w
  | Some e =>
      let '(call, w1) := removeCall s w in
      match call with
      | Some l' => setSender None (done l' (setError l' (Some e) w1))
      | None => setSender None w1
      end
  end.

(** One turn of the loop of [receive] after a header was read. *)
Definition receiveHeader (h : Codec.Header) (body : string)
    (bodyErr : option string) (w : World) : World :=
  let '(call, w1) := removeCall (Codec.Seq h) w in
  let next := match bodyErr with
              | None => Receiving
              | Some e => Failed e
              end in
  match call with
  | None => setRecv next w1
  | Some l =>
      if negb (String.eqb (Codec.Error h) "") then
        setRecv next (done l (setError l (Some (Codec.Error h)) w1))
      else
        match bodyErr with
        | None => setRecv next (done l (setReply l body w1))
        | Some e =>
            setRecv next
              (done l (setError l (Some ("reading body" ++ e)%string) w1))
        end
  end.

(** One step; [None] when the event cannot happen in the state: the
    address is not fresh, [sending] is held, the receiver is elsewhere. *)
Definition step (ev : event) (w : World) : option World :=
  match ev with
  | EvGo l sm args dn =>
      match heap w !! l, sender w with
      | None, None =>
          Some (sendRegister l
                  (setHeap (<[l := mkCall 0 sm args "" None dn]> (heap w)) w))
      | _, _ => None
      end
  | EvWrite err =>
      match sender w with
      | Some (_, s) => Some (sendWrite s err w)
      | None => None
      end
  | EvHeader h body bodyErr =>
      match recv w with
      | Receiving => Some (receiveHeader h body bodyErr w)
      | _ => None
      end
  | EvHeaderErr err =>
      match recv w with
      | Receiving => Some (setRecv (Failed err) w)
      | _ => None
      end
  | EvTerminate =>
      match recv w, sender w with
      | Failed err, None => Some (setRecv Exited (terminateCalls err w))
      | _, _ => None
      end
  | EvCancel l =>
      match heap w !! l with
      | Some c => Some (removeCall (Seq c) w).2
      | None => None
      end
  | EvClose => Some (Close w).2
  end.

(** A run: the events in the order they happen. *)
Fixpoint run (evs : list event) (w : World) : option World :=
  match evs with
  | [] => Some w
  | ev :: evs' =>
      match step ev w with
      | Some w' => run evs' w'
      | None => None
      end
  end.

(** How many times the call at [l] was sent on its [Done] channel. *)
Definition notified (w : World) (l : loc) : nat :=
  match heap w !! l with
  | None => 0%nat
  | Some c => List.length (filter (λ x, x = l) (default [] (chans w !! Done c)))
  end.

(** *** Notions used to state the properties of the client *)

(** The sequence number of the call at [l], if a call is allocated there. *)
Definition seqOf (w : World) (l : loc) : option N := Seq <$> heap w !! l.

(** The call at [l] was sent on some channel. *)
Definition logged (w : World) (l : loc) : Prop :=
  ∃ ch, l ∈ default [] (chans w !! ch).

(** What holds of the client after the events [evs]. *)
Record client_inv (evs : list event) (w : World) : Prop := mkClientInv {
  inv_seq_lo : 1 ≤ seq (client w);
  inv_seq_hi : seq (client w) ≤ 1 + N.of_nat (List.length evs);
  inv_pend_key : ∀ k l, pending (client w) !! k = Some l →
                   1 ≤ k ∧ seqOf w l = Some k;
  inv_seq_lt : ∀ l k, seqOf w l = Some k → k < seq (client w);
  inv_seq_inj : ∀ l1 l2 k, seqOf w l1 = Some k → seqOf w l2 = Some k →
                  k ≠ 0 → l1 = l2;
  inv_logged : ∀ l, logged w l → is_Some (heap w !! l);
  inv_once : ∀ l, (notified w l ≤ 1)%nat;
  inv_pend_cnt : ∀ k l, pending (client w) !! k = Some l →
                   notified w l = if shutdown (client w) then 1%nat else 0%nat;
  inv_zero : ∀ l k, seqOf w l = Some k → notified w l = 0%nat →
               pending (client w) !! k = Some l ∨ EvCancel l ∈ evs;
  inv_sender : ∀ l s, sender w = Some (l, s) → shutdown (client w) = true →
                 s = 0;
  inv_recv : shutdown (client w) = true → recv w = Exited
}.

(** *** Sample runs *)

(** The number of notifications of the call at [l] after the events
    [evs], from a new client. *)
Definition notifiedAfter (evs : list event) (l : loc) : option nat :=
  (λ w, notified w l) <$> run evs newWorld.

(** Two calls are sent; the reply to the first arrives; then the
    connection breaks and the client shuts down. *)
Definition sampleRun : list event :=
  [ EvGo 0%nat "Foo.Sum" "{1,2}" 7%nat; EvWrite None;
    EvGo 1%nat "Foo.Sum" "{3,4}" 8%nat; EvWrite None;
    EvHeader (Codec.mkHeader "Foo.Sum" 1 "") "3" None;
    EvHeaderErr "EOF"; EvTerminate ].

Definition sampleWorld : World := default newWorld (run sampleRun newWorld).

Definition sampleCall : Call :=
  default (mkCall 0 "" "" "" None 0%nat) (heap sampleWorld !! 1%nat).

(** A client whose counter has reached the largest [uint64]. *)
Definition lastSeqWorld : World :=
  {| client := {| header := Codec.mkHeader "" 0 ""; pending := ∅;
                  seq := uint64_max; closing := false; shutdown := false |};
     heap := {[ 0%nat := mkCall 0 "Foo.Sum" "{1,2}" "" None 7%nat ]};
     chans := ∅; sender := None; recv := Receiving |}.

(** *** Dialling *)

(** The error of the call at [l], if a call is allocated there. *)
Definition errorOf (w : World) (l : loc) : option (option string) :=
  Error <$> heap w !! l.

(** The constructors of codecs and [codec.NewCodecFuncMap], which [init]
    fills with the entry of [GobType] only. *)
Inductive NewCodecFunc : Type :=
  | NewGobCodec
  | NewJsonCodec.

Definition NewCodecFuncMap : gmap string NewCodecFunc :=
  {[ Codec.GobType := NewGobCodec ]}.

(** What [NewClient] does on the connection: nothing, or the encoding of
    the options, which may fail and then closes it. *)
Inductive clientSetup : Type :=
  | ClientReady (f : NewCodecFunc) (opt : Option)
  | ClientRefused (err : string)
  | ClientWriteFailed (err : string).

(** [NewClient(conn, opt)]; [encodeErr] is the outcome of
    [json.NewEncoder(conn).Encode(opt)] when it is reached. *)
Definition NewClient (opt : Option) (encodeErr : option string) : clientSetup :=
  match NewCodecFuncMap !! Option_CodecType opt with
  | None => ClientRefused ("invalid codec type " ++ Option_CodecType opt)%string
  | Some f =>
      match encodeErr with
      | Some err => ClientWriteFailed err
      | None => ClientReady f opt
      end
  end.

(** The count of a byte in a string. *)
Fixpoint countByte (sep : ascii) (s : string) : nat :=
  match s with
  | EmptyString => 0%nat
  | String c s' => ((if Ascii.eqb c sep then 1 else 0) + countByte sep s')%nat
  end.

(** What [XDial] goes on to call. *)
Inductive dialPlan : Type :=
  | PlanDialHTTP (network address : string)
  | PlanDial (network address : string)
  | PlanError (err : string).

(** [XDial(rpcAddr, opts...)] up to the call of [DialHTTP] or [Dial]. *)
Definition XDial (rpcAddr : string) : dialPlan :=
  match GoLib.Split "@"%char rpcAddr with
  | [protocol; addr] =>
      if String.eqb protocol "http" then PlanDialHTTP "tcp" addr
      else PlanDial protocol addr
  | _ =>
      PlanError ("rpc client err: wrong format '" ++ rpcAddr
                 ++ "', expect protocol@addr")%string
  end.

End Client.

(** ** The server (package MyRPC, server side) *)

Module Server.
Import GoLib.

(** *** Services and their lookup *)

(** [ast.IsExported]: the name starts with an upper-case letter.  Names
    are taken to be ASCII. *)
Definition IsExported (name : string) : bool :=
  match name with
  | EmptyString => false
  | String c _ => (65 <=? nat_of_ascii c)%nat && (nat_of_ascii c <=? 90)%nat
  end.

(** A method of the receiver's type as [reflect] shows it: its name, the
    numbers of its inputs and outputs, whether the output is [error], and
    whether the two argument types are exported or builtin. *)
Record Method := mkMethod {
  Name : string;
  NumIn : nat;
  NumOut : nat;
  OutIsError : bool;
  ArgOk : bool;
  ReplyOk : bool
}.

(** A receiver: the name of its type and its method set.  [reflect]
    lists the exported methods only. *)
Record Receiver := mkReceiver {
  TypeName : string;
  Methods : list Method
}.

(** [type methodType struct]. *)
Record methodType := mkMethodType {
  method : Method;
  numCalls : N
}.

(** [type service struct]. *)
Record service := mkService {
  name : string;
  rcvr : Receiver;
  methods : gmap string methodType
}.

(** One iteration of the loop of [registerMethods]. *)
Definition registerMethod (m : gmap string methodType) (f : Method)
    : gmap string methodType :=
  if negb (IsExported (Name f)) then m
  else if negb (Nat.eqb (NumIn f) 3) || negb (Nat.eqb (NumOut f) 1) then m
  else if negb (OutIsError f) then m
  else if negb (ArgOk f) || negb (ReplyOk f) then m
  else <[Name f := {| method := f; numCalls := 0 |}]> m.

Definition registerMethods (r : Receiver) : gmap string methodType :=
  foldl registerMethod ∅ (Methods r).

(** [newService]; [None] is the exit of the program by [log.Fatalf]. *)
Definition newService (r : Receiver) : option service :=
  if negb (IsExported (TypeName r)) then None
  else Some {| name := TypeName r; rcvr := r; methods := registerMethods r |}.

(** [type Server struct]. *)
Record Server := mkServer {
  serviceMap : gmap string service
}.

Definition NewServer : Server := {| serviceMap := ∅ |}.

(** [Register]: the error, if any, and the server afterwards; [None] when
    [newService] ends the program. *)
Definition Register (r : Receiver) (server : Server)
    : option (option string * Server) :=
  match newService r with
  | None => None
  | Some s =>
      match serviceMap server !! name s with
      | Some _ =>
          Some (Some ("rpc: service already defined: " ++ name s)%string, server)
      | None => Some (None, {| serviceMap := <[name s := s]> (serviceMap server) |})
      end
  end.

(** [findService]: the three named results [(svc, mtype, err)]. *)
Definition findService (server : Server) (serviceMethod : string)
    : option service * option methodType * option string :=
  match LastIndexDot serviceMethod with
  | None =>
      (None, None,
       Some ("rpc server: server/method request ill-formed: " ++ serviceMethod)%string)
  | Some dot =>
      let serviceName := prefix_to dot serviceMethod in
      let methodName := suffix_from (dot + 1) serviceMethod in
      match serviceMap server !! serviceName with
      | None =>
          (None, None,
           Some ("rpc server: can't find service " ++ serviceName)%string)
      | Some svc =>
          match methods svc !! methodName with
          | None =>
              (Some svc, None,
               Some ("rpc server: can't find method " ++ methodName)%string)
          | Some mtype => (Some svc, Some mtype, None)
          end
      end
  end.

(** The servers a program can hold. *)
Inductive reachable : Server → Prop :=
  | reachable_NewServer : reachable NewServer
  | reachable_Register r server err server' :
      reachable server → Register r server = Some (err, server') →
      reachable server'.

(** [strings.Contains(s, ".")]. *)
Fixpoint containsDot (s : string) : bool :=
  match s with
  | EmptyString => false
  | String c s' => Ascii.eqb c "."%char || containsDot s'
  end.

(** *** The HTTP transport *)

Definition connected : string := "200 Connected to MyRPC".
Definition defaultRPCPath : string := "/_myrpc_".
Definition defaultDebugPath : string := "/debug/myrpc".

(** What [ServeHTTP] does, in order. *)
Inductive httpAction : Type :=
  | SetHeader (key value : string)
  | WriteHeader (status : Z)
  | WriteBody (body : string)
  | Hijack
  | LogHijackError
  | ConnWrite (bytes : string)
  | ServerConn.

(** [ServeHTTP] on a request with the given method; [hijackOk] tells
    whether [Hijack] succeeds. *)
Definition ServeHTTP (reqMethod : string) (hijackOk : bool) : list httpAction :=
  if negb (String.eqb reqMethod "CONNECT") then
    [ SetHeader "Content-Type" "text/plain; charset=utf-8";
      WriteHeader 405;
      WriteBody ("405 must CONNECT" ++ LF)%string ]
  else if negb hijackOk then [ Hijack; LogHijackError ]
  else [ Hijack;
         ConnWrite ("HTTP/1.0 " ++ connected ++ LF ++ LF)%string;
         ServerConn ].

(** What [NewHTTPClient] does, in order: the bytes it writes, then, on
    the status line read back (or the error of reading it), either the
    negotiation of [NewClient] or an error. *)
Inductive clientAction : Type :=
  | ClientWrite (bytes : string)
  | NewClient
  | Failure (err : string).

Definition NewHTTPClient (resp : string + string) : list clientAction :=
  ClientWrite ("CONNECT " ++ defaultRPCPath ++ " HTTP/1.0" ++ LF ++ LF)%string
  :: match resp with
     | inl status =>
         if String.eqb status connected then [NewClient]
         else [Failure ("unexpected HTTP response: " ++ status)%string]
     | inr err => [Failure err]
     end.

(** *** Handling one request *)

(** The body written with a header: the reply, or the placeholder
    [invalidRequest]. *)
Inductive body : Type :=
  | invalidRequest
  | replyBody (reply : string).

(** The goroutines of one [handleRequest]: the one that calls the method
    and the one that waits on [ctx.Done()].  [hError] is [req.h.Error],
    which both write; [written] is what [cc.Write] was given, in order. *)
Record handling := mkHandling {
  hServiceMethod : string;
  hSeq : N;
  hError : string;
  ctxDone : bool;
  handlerRunning : bool;
  waiting : bool;
  written : list (Codec.Header * body)
}.

Definition startHandling (h : Codec.Header) : handling :=
  {| hServiceMethod := Codec.ServiceMethod h; hSeq := Codec.Seq h;
     hError := Codec.Error h; ctxDone := false; handlerRunning := true;
     waiting := true; written := [] |}.

(** [sendResponse(cc, req.h, body, sending)]: the header is read when the
    write happens. *)
Definition sendResponse (b : body) (st : handling) : handling :=
  {| hServiceMethod := hServiceMethod st; hSeq := hSeq st;
     hError := hError st; ctxDone := ctxDone st;
     handlerRunning := handlerRunning st; waiting := waiting st;
     written := written st
                ++ [(Codec.mkHeader (hServiceMethod st) (hSeq st) (hError st), b)] |}.

Definition setHError (e : string) (st : handling) : handling :=
  {| hServiceMethod := hServiceMethod st; hSeq := hSeq st; hError := e;
     ctxDone := ctxDone st; handlerRunning := handlerRunning st;
     waiting := waiting st; written := written st |}.

Definition setCtxDone (st : handling) : handling :=
  {| hServiceMethod := hServiceMethod st; hSeq := hSeq st;
     hError := hError st; ctxDone := true;
     handlerRunning := handlerRunning st; waiting := waiting st;
     written := written st |}.

Definition handlerReturned (st : handling) : handling :=
  {| hServiceMethod := hServiceMethod st; hSeq := hSeq st;
     hError := hError st; ctxDone := ctxDone st; handlerRunning := false;
     waiting := waiting st; written := written st |}.

Definition waitOver (st : handling) : handling :=
  {| hServiceMethod := hServiceMethod st; hSeq := hSeq st;
     hError := hError st; ctxDone := ctxDone st;
     handlerRunning := handlerRunning st; waiting := false;
     written := written st |}.

(** What happens, in order: the method returns (with an error or with a
    reply), the timer of [context.WithTimeout] expires, the [select]
    on [ctx.Done()] wakes up. *)
Inductive hEvent : Type :=
  | MethodReturns (err : option string) (reply : string)
  | TimerExpires
  | SelectWakes.

Section HandleRequest.

(** [fmt.Sprintf("%s", timeout)] of a [time.Duration]. *)
Variable durationString : Z → string.

Definition timeoutError (timeout : Z) : string :=
  ("rpc server: request handle timeout: expect within "
   ++ durationString timeout)%string.

(** One step of [handleRequest] with the given timeout; [None] when the
    event cannot happen in the state. *)
Definition hStep (timeout : Z) (ev : hEvent) (st : handling) : option handling :=
  match ev with
  | MethodReturns err reply =>
      if handlerRunning st then
        match err with
        | Some e =>
            Some (handlerReturned (sendResponse invalidRequest (setHError e st)))
        | None =>
            Some (setCtxDone (handlerReturned (sendResponse (replyBody reply) st)))
        end
      else None
  | TimerExpires =>
      if negb (Z.eqb timeout 0) && negb (ctxDone st) then Some (setCtxDone st)
      else None
  | SelectWakes =>
      if waiting st && ctxDone st then
        if negb (Z.eqb timeout 0) then
          Some (setCtxDone (waitOver
                  (sendResponse invalidRequest
                     (setHError (timeoutError timeout) st))))
        else Some (waitOver st)
      else None
  end.

Fixpoint hRun (timeout : Z) (evs : list hEvent) (st : handling)
    : option handling :=
  match evs with
  | [] => Some st
  | ev :: evs' =>
      match hStep timeout ev st with
      | Some st' => hRun timeout evs' st'
      | None => None
      end
  end.

(** [handleRequest] for the request with header [h]: what is written when
    the events [evs] happen in this order. *)
Definition handleRequest (timeout : Z) (h : Codec.Header) (evs : list hEvent)
    : option (list (Codec.Header * body)) :=
  written <$> hRun timeout evs (startHandling h).

End HandleRequest.

(** The duration of whole seconds below one minute, as Go prints it. *)
Definition secondsString (d : Z) : string :=
  (NilEmpty.string_of_uint (Nat.to_uint (Z.to_nat (d / 1000000000))) ++ "s")%string.

(** *** The negotiation and the loop of a connection *)


(** How [ServerConn] ends: on options that do not decode, on a wrong
    magic number or on an unknown codec it logs and returns (the
    connection is closed, nothing is written); otherwise it goes on to
    [serverCodec]. *)
Inductive connOutcome : Type :=
  | ConnBadOptions (err : string)
  | ConnBadMagic (magic : Z)
  | ConnBadCodec (codecType : string)
  | ConnServe (f : Client.NewCodecFunc) (opt : Client.Option).

(** [ServerConn] up to the call of [serverCodec]; [decoded] is the outcome
    of decoding the options. *)
Definition negotiate (decoded : Client.result Client.Option) : connOutcome :=
  match decoded with
  | Client.Err err => ConnBadOptions err
  | Client.OK opt =>
      if negb (Z.eqb (Client.Option_MagicNumber opt) Client.MagicNumber)
      then ConnBadMagic (Client.Option_MagicNumber opt)
      else
        match Client.NewCodecFuncMap !! Client.Option_CodecType opt with
        | None => ConnBadCodec (Client.Option_CodecType opt)
        | Some f => ConnServe f opt
        end
  end.

(** [type request struct]: the header, the decoded argument, and the
    method and the service found. *)
Record request := mkRequest_ {
  req_h : Codec.Header;
  req_argv : string;
  req_mtype : option methodType;
  req_svc : option service
}.

(** What the loop of [serverCodec] does with a request: the error
    response it sends itself, or the goroutine of [handleRequest] it
    starts. *)
Inductive served : Type :=
  | RespondError (h : Codec.Header)
  | Handle (req : request).

Section ServerLoop.

(** The codec: the connection delivers messages, each read by one
    [ReadHeader] or [ReadBody], which decodes it or fails. *)
Variable decodeHeader : string → Client.result Codec.Header.
Variable decodeBody : methodType → string → Client.result string.

(** [readRequestHeader]: the header or the error, and what is left of
    the stream. *)
Definition readRequestHeader (stream : list string)
    : Client.result Codec.Header * list string :=
  match stream with
  | [] => (Client.Err "EOF", [])
  | m :: rest => (decodeHeader m, rest)
  end.

(** [readRequest]: the request (nil when the header could not be read),
    the error, and what is left of the stream.  The outer [None] is the
    nil dereference of [req.mtype] should [findService] return no method
    and no error. *)
Definition readRequest (server : Server) (stream : list string)
    : option (option request * option string * list string) :=
  match readRequestHeader stream with
  | (Client.Err err, rest) => Some (None, Some err, rest)
  | (Client.OK hd, rest) =>
      match findService server (Codec.ServiceMethod hd) with
      | (sv, mt, Some err) =>
          Some (Some {| req_h := hd; req_argv := ""; req_mtype := mt; req_svc := sv |},
                Some err, rest)
      | (sv, None, None) => None
      | (sv, Some mt, None) =>
          match rest with
          | [] =>
              Some (Some {| req_h := hd; req_argv := ""; req_mtype := Some mt; req_svc := sv |},
                    Some "EOF", [])
          | b :: rest' =>
              match decodeBody mt b with
              | Client.Err err =>
                  Some (Some {| req_h := hd; req_argv := ""; req_mtype := Some mt; req_svc := sv |},
                        Some err, rest')
              | Client.OK a =>
                  Some (Some {| req_h := hd; req_argv := a; req_mtype := Some mt; req_svc := sv |},
                        None, rest')
              end
          end
      end
  end.

(** The loop of [serverCodec], for at most [fuel] turns. *)
Fixpoint serverCodec (fuel : nat) (server : Server) (stream : list string)
    : option (list served) :=
  match fuel with
  | O => None
  | S fuel' =>
      match readRequest server stream with
      | None => None
      | Some (None, _, _) => Some []
      | Some (Some req, Some err, rest) =>
          cons (RespondError
                  (Codec.mkHeader (Codec.ServiceMethod (req_h req))
                     (Codec.Seq (req_h req)) err))
          <$> serverCodec fuel' server rest
      | Some (Some req, None, rest) =>
          cons (Handle req) <$> serverCodec fuel' server rest
      end
  end.

End ServerLoop.


(** A receiver with one method that is kept and one with a single
    argument, the server with it registered, and a codec over messages
    whose headers start with [H]. *)
Definition sampleReceiver : Receiver :=
  mkReceiver "Foo" [mkMethod "Sum" 3 1 true true true;
                    mkMethod "Sleep" 2 1 true true true].

Definition sampleServer : Server :=
  {| serviceMap :=
       {[ "Foo" := {| name := "Foo"; rcvr := sampleReceiver;
                      methods := registerMethods sampleReceiver |} ]} |}.

Definition sampleDecodeHeader (m : string) : Client.result Codec.Header :=
  match m with
  | String "H" rest => Client.OK (Codec.mkHeader rest 1 "")
  | _ => Client.Err "gob: type mismatch"
  end.

Definition sampleDecodeBody (mt : methodType) (m : string)
    : Client.result string :=
  Client.OK m.

(** *** The heartbeat *)

(** [const defaultTimeout = time.Minute * 5] of the package of the server. *)
Definition defaultTimeout : Z := 5 * 60 * 1000000000.

(** [Heartbeat]: the period of its ticker. *)
Definition heartbeatPeriod (duration : Z) : Z :=
  if Z.eqb duration 0 then defaultTimeout - 1 * 60 * 1000000000 else duration.

(** [sendHeartbeat]: the request it posts to the registry. *)
Definition sendHeartbeat (addr : string) : Registry.Request :=
  {| Registry.Method := "POST";
     Registry.Header := {[ "X-Myrpc-Server" := addr ]} |}.

End Server.

(** ** The balancing client (package xclient) *)

Module XClient.

(** The error of [Client.Call] when its context is cancelled. *)
Definition ctxCanceled : string := "rpc client: call failed: context canceled".

(** One endpoint of a broadcast: its address, what [xc.call] returns on
    it when nothing cancels the call ([inl] the decoded reply, [inr] the
    error), and whether the call is still running when an earlier failure
    cancels the context. *)
Record endpoint := mkEndpoint {
  rpcAddr : string;
  answer : string + string;
  stillRunning : bool
}.

(** The variables shared by the goroutines of [Broadcast]: the error [e],
    the flag [replyDone], the value behind the caller's [reply] pointer,
    and whether [cancel] was called. *)
Record bstate := mkBstate {
  e : option string;
  replyDone : bool;
  reply : string;
  cancelled : bool
}.

(** What [xc.call] returns on the endpoint in the current state. *)
Definition callResult (st : bstate) (ep : endpoint) : string + string :=
  if cancelled st && stillRunning ep then inr ctxCanceled else answer ep.

(** The goroutine of one endpoint: the call, then the section under [mu]. *)
Definition endpointDone (st : bstate) (ep : endpoint) : bstate :=
  match callResult st ep with
  | inr err =>
      match e st with
      | None => {| e := Some err; replyDone := replyDone st;
                   reply := reply st; cancelled := true |}
      | Some _ => st
      end
  | inl clonedReply =>
      if negb (replyDone st)
      then {| e := e st; replyDone := true; reply := clonedReply;
              cancelled := cancelled st |}
      else st
  end.

(** [Broadcast]: [servers] is the result of [GetAll], its endpoints in
    the order in which their goroutines take [mu]; [reply0] is the
    caller's [reply], [None] for a nil one.  The result is the returned
    error and the value behind [reply] afterwards. *)
Definition Broadcast (servers : string + list endpoint) (reply0 : option string)
    : option string * option string * bool :=
  match servers with
  | inl err => (Some err, reply0, false)
  | inr eps =>
      let st0 := {| e := None;
                    replyDone := match reply0 with None => true | Some _ => false end;
                    reply := default "" reply0; cancelled := false |} in
      let st := foldl endpointDone st0 eps in
      (e st, (λ _, reply st) <$> reply0, cancelled st)
  end.

(** The error and the reply of the whole broadcast. *)
Definition returnedError (r : option string * option string * bool) : option string :=
  r.1.1.

Definition callerReply (r : option string * option string * bool) : option string :=
  r.1.2.

Definition cancelCalled (r : option string * option string * bool) : bool := r.2.

(** The outcomes of the calls of a broadcast, in order. *)
Fixpoint outcomes (st : bstate) (eps : list endpoint) : list (string + string) :=
  match eps with
  | [] => []
  | ep :: eps' => callResult st ep :: outcomes (endpointDone st ep) eps'
  end.

Definition broadcastOutcomes (eps : list endpoint) (reply0 : option string)
    : list (string + string) :=
  outcomes {| e := None;
              replyDone := match reply0 with None => true | Some _ => false end;
              reply := default "" reply0; cancelled := false |} eps.

(** The first reply and the first error among outcomes. *)
Fixpoint firstReply (rs : list (string + string)) : option string :=
  match rs with
  | [] => None
  | inl v :: _ => Some v
  | inr _ :: rs' => firstReply rs'
  end.

Fixpoint firstError (rs : list (string + string)) : option string :=
  match rs with
  | [] => None
  | inr err :: _ => Some err
  | inl _ :: rs' => firstError rs'
  end.

(** The call returned a nil error. *)
Definition succeeded (o : string + string) : Prop :=
  match o with
  | inl _ => True
  | inr _ => False
  end.

(** *** The clients of an [XClient] *)

(** A [*MyRPC.Client]: the address of one of the clients dialled. *)
Definition cptr : Type := nat.

(** The map [clients] of an [XClient], and the clients dialled so far,
    each in the state to which its goroutines and its users have brought
    it. *)
Record XClient := mkXClient {
  clients : gmap string cptr;
  dialled : gmap cptr Client.World
}.

(** [NewXClient]. *)
Definition NewXClient : XClient := {| clients := ∅; dialled := ∅ |}.

(** [client.IsAvailable()] and [client.Close()] through the pointer. *)
Definition available (c : cptr) (xc : XClient) : bool :=
  match dialled xc !! c with
  | Some w => Client.IsAvailable w
  | None => false
  end.

Definition closeClient (c : cptr) (xc : XClient) : XClient :=
  {| clients := clients xc;
     dialled := alter (λ w, (Client.Close w).2) c (dialled xc) |}.

Definition deleteClient (key : string) (xc : XClient) : XClient :=
  {| clients := delete key (clients xc); dialled := dialled xc |}.

(** [Close]: the loop visits the entries in [order], closes the client
    of each and deletes it. *)
Definition Close_in (order : list (string * cptr)) (xc : XClient) : XClient :=
  foldl (λ xc e, deleteClient e.1 (closeClient e.2 xc)) xc order.

Definition Close (xc : XClient) : XClient :=
  Close_in (map_to_list (clients xc)) xc.

(** [MyRPC.XDial(rpcAddr, xc.opt)]: [connect] is what [Dial] or
    [DialHTTP] returns when [XDial] gets to call it, an error or a new
    client. *)
Definition XDial (rpcAddr : string) (connect : Client.result Client.World)
    : Client.result Client.World :=
  match Client.XDial rpcAddr with
  | Client.PlanError err => Client.Err err
  | _ => connect
  end.

(** [dial(rpcAddr)]: the client or the error, and the state afterwards. *)
Definition dial (rpcAddr : string) (connect : Client.result Client.World)
    (xc : XClient) : Client.result cptr * XClient :=
  let '(client, xc1) :=
    match clients xc !! rpcAddr with
    | Some c =>
        if negb (available c xc)
        then (None, deleteClient rpcAddr (closeClient c xc))
        else (Some c, xc)
    | None => (None, xc)
    end in
  match client with
  | Some c => (Client.OK c, xc1)
  | None =>
      match XDial rpcAddr connect with
      | Client.Err err => (Client.Err err, xc1)
      | Client.OK w =>
          let c := fresh (dom (dialled xc1)) in
          (Client.OK c,
           {| clients := <[rpcAddr := c]> (clients xc1);
              dialled := <[c := w]> (dialled xc1) |})
      end
  end.

(** The goroutines and the users of the client at [c] take the steps
    [evs]. *)
Definition clientRuns (c : cptr) (evs : list Client.event) (xc : XClient)
    : option XClient :=
  match dialled xc !! c with
  | None => None
  | Some w =>
      match Client.run evs w with
      | None => None
      | Some w' =>
          Some {| clients := clients xc; dialled := <[c := w']> (dialled xc) |}
      end
  end.

(** The states of an [XClient]. *)
Inductive reachable : XClient → Prop :=
  | reachable_New : reachable NewXClient
  | reachable_dial rpcAddr connect xc :
      reachable xc → reachable (dial rpcAddr connect xc).2
  | reachable_Close order xc :
      reachable xc → order ≡ₚ map_to_list (clients xc) →
      reachable (Close_in order xc)
  | reachable_clientRuns c evs xc xc' :
      reachable xc → clientRuns c evs xc = Some xc' → reachable xc'.

(** The invariant of the states: a pooled client was dialled, no client
    is pooled under two addresses, and a client that is not pooled is
    closed. *)
Record pool_inv (xc : XClient) : Prop := {
  inv_dialled : ∀ a c, clients xc !! a = Some c → is_Some (dialled xc !! c);
  inv_unshared : ∀ a b c,
    clients xc !! a = Some c → clients xc !! b = Some c → a = b;
  inv_closed : ∀ c w,
    dialled xc !! c = Some w →
    (∃ a, clients xc !! a = Some c) ∨ Client.closing (Client.client w) = true
}.

(** A run: the client dialled for [tcp@a] loses its connection, the next
    [dial] of the address replaces it, and a second address is dialled. *)
Definition stalePool : XClient :=
  default NewXClient
    (clientRuns 0%nat [Client.EvHeaderErr "EOF"; Client.EvTerminate]
       (dial "tcp@a" (Client.OK Client.newWorld) NewXClient).2).

Definition redialledPool : XClient :=
  (dial "tcp@a" (Client.OK Client.newWorld) stalePool).2.

Definition samplePool : XClient :=
  (dial "tcp@b" (Client.OK Client.newWorld) redialledPool).2.

End XClient.

(** ** Discovery (package xclient) *)

Module Discovery.
Import GoLib.

Local Open Scope Z_scope.

(** [type SelectMode int] and its constants. *)
Definition SelectMode : Type := Z.
Definition RandomSelect : SelectMode := 0.
Definition RoundRobinSelect : SelectMode := 1.
Definition HashRingSelect : SelectMode := 2.

(** [type MultiServersDiscovery struct] without its generator and mutex:
    the numbers drawn from the generator are given to the functions that
    draw them. *)
Record MultiServersDiscovery := mkMSD {
  servers : list string;
  index : Z
}.

Definition MaxInt32 : Z := 2147483647.

(** [NewMultiServerDiscovery]; [drawn] is [d.r.Intn(math.MaxInt32 - 1)]. *)
Definition NewMultiServerDiscovery (servers : list string) (drawn : Z)
    : MultiServersDiscovery :=
  {| servers := servers; index := drawn |}.

Definition Update (servers : list string) (d : MultiServersDiscovery)
    : MultiServersDiscovery :=
  {| servers := servers; index := index d |}.

(** [s[i]] for an [int] index; [None] is the panic of an index out of
    range. *)
Definition at_index (s : list string) (i : Z) : option string :=
  if i <? 0 then None else s !! Z.to_nat i.

(** [Get(mode)]; [drawn] is [d.r.Intn(n)] when the mode draws it.  The
    result is [None] when an index is out of range, else the address, the
    error and the state afterwards. *)
Definition Get (mode : SelectMode) (drawn : Z) (d : MultiServersDiscovery)
    : option (string * option string * MultiServersDiscovery) :=
  let n := Z.of_nat (List.length (servers d)) in
  if n =? 0 then Some ("", Some "rpc discovery: no available servers", d)
  else if mode =? RandomSelect then
    match at_index (servers d) drawn with
    | Some s => Some (s, None, d)
    | None => None
    end
  else if mode =? RoundRobinSelect then
    match at_index (servers d) (Z.rem (index d) n) with
    | Some s =>
        Some (s, None,
              {| servers := servers d;
                 index := Z.rem (wrapInt (index d + 1)) n |})
    | None => None
    end
  else Some ("", Some "rpc discovery: not supported select mode", d).

(** [GetAll]: a copy of the list. *)
Definition GetAll (d : MultiServersDiscovery) : list string * option string :=
  (servers d, None).

(** [k] calls of [Get(RoundRobinSelect)] in a row: the addresses returned. *)
Fixpoint roundRobin (k : nat) (d : MultiServersDiscovery) : option (list string) :=
  match k with
  | O => Some []
  | S k' =>
      match Get RoundRobinSelect 0 d with
      | Some (s, _, d') =>
          match roundRobin k' d' with
          | Some l => Some (s :: l)
          | None => None
          end
      | None => None
      end
  end.

(** [type MyRegistryDiscovery struct]; times and durations in
    nanoseconds. *)
Record MyRegistryDiscovery := mkMRD {
  multi : MultiServersDiscovery;
  registry : string;
  timeout : Z;
  lastUpdate : Z
}.

Definition defaultUpdateTimeout : Z := 10 * 1000000000.

(** The zero [time.Time], the first of January of the year 1, counted
    from 1970. *)
Definition zeroTime : Z := -62135596800 * 1000000000.

Definition NewMyRegistryDiscovery (registerAddr : string) (timeout drawn : Z)
    : MyRegistryDiscovery :=
  {| multi := NewMultiServerDiscovery [] drawn;
     registry := registerAddr;
     timeout := if timeout =? 0 then defaultUpdateTimeout else timeout;
     lastUpdate := zeroTime |}.

(** [Update] of the registry discovery, at time [now]. *)
Definition UpdateMy (servers : list string) (now : Z) (d : MyRegistryDiscovery)
    : MyRegistryDiscovery :=
  {| multi := Update servers (multi d); registry := registry d;
     timeout := timeout d; lastUpdate := now |}.

(** The loop of [Refresh] over the pieces of the header. *)
Definition keepServers (pieces : list string) : list string :=
  foldl (λ acc server,
           if negb (String.eqb (TrimSpace server) "")
           then acc ++ [TrimSpace server] else acc) [] pieces.

(** [Refresh] at time [now]; [resp] is what [http.Get] gives when it is
    called: the value of the header [X-Myrpc-Servers] of the response, or
    an error. *)
Definition Refresh (now : Z) (resp : string + string) (d : MyRegistryDiscovery)
    : option string * MyRegistryDiscovery :=
  if now <? lastUpdate d + timeout d then (None, d)
  else
    match resp with
    | inr err => (Some err, d)
    | inl hdr =>
        (None,
         {| multi := {| servers := keepServers (Split ","%char hdr);
                        index := index (multi d) |};
            registry := registry d; timeout := timeout d; lastUpdate := now |})
    end.

(** [Get] and [GetAll] of the registry discovery. *)
Definition GetMy (mode : SelectMode) (drawn now : Z) (resp : string + string)
    (d : MyRegistryDiscovery)
    : option (string * option string * MyRegistryDiscovery) :=
  match Refresh now resp d with
  | (Some err, d') => Some ("", Some err, d')
  | (None, d') =>
      match Get mode drawn (multi d') with
      | Some (s, err, m) =>
          Some (s, err, {| multi := m; registry := registry d';
                           timeout := timeout d'; lastUpdate := lastUpdate d' |})
      | None => None
      end
  end.

Definition GetAllMy (now : Z) (resp : string + string) (d : MyRegistryDiscovery)
    : (list string * option string) * MyRegistryDiscovery :=
  match Refresh now resp d with
  | (Some err, d') => (([], Some err), d')
  | (None, d') => (GetAll (multi d'), d')
  end.


End Discovery.
(** * Properties *)

(** ** Checks of the runtime helpers against known values *)

Example crc_hello : GoLib.ChecksumIEEE "hello" = 907060870%N.
Proof. vm_compute. reflexivity. Qed.

Example crc_0a : GoLib.ChecksumIEEE (GoLib.Itoa 0 ++ "a")%string = 0xa42a75c2%N.
Proof. vm_compute. reflexivity. Qed.

Example itoa_120 : GoLib.Itoa 120 = "120".
Proof. reflexivity. Qed.

Example join3 : GoLib.Join ["a"; "b"; "c"] "," = "a,b,c".
Proof. reflexivity. Qed.

Example last_dot : GoLib.LastIndexDot "a.b.Sum" = Some 3.
Proof. reflexivity. Qed.

(** ** The hash ring *)

Example ring_demo_sorted :
  HashRing.sortedNodes (HashRing.New ["a"; "b"] 2)
  = [607655225; 1025713272; 2754246082; 3174122627]%N.
Proof. vm_compute. reflexivity. Qed.

Example ring_demo_get :
  HashRing.GetNode "hello" (HashRing.New ["a"; "b"] 2) = Some "b".
Proof. vm_compute. reflexivity. Qed.

Section HashRingFacts.
Import GoLib HashRing.
Local Open Scope list_scope.
Local Open Scope N_scope.

#[local] Instance N_le_total : Total N.le.
Proof. intros x y. lia. Qed.

#[local] Instance N_le_antisym : AntiSymm (=) N.le.
Proof. intros x y ??. lia. Qed.

(** *** The linear scan and the splice *)

Lemma getIndexForKey_from_miss l i key :
  key ∉ l → getIndexForKey_from i l key = (false, (-1)%Z).
Proof.
  revert i. induction l as [|v l IH]; intros i Hnin; simpl; [done|].
  apply not_elem_of_cons in Hnin as [Hne Hnin].
  destruct (N.eqb_spec v key) as [->|_]; [done|]. by apply IH.
Qed.

Lemma getIndexForKey_from_hit pre post i key :
  key ∉ pre →
  getIndexForKey_from i (pre ++ key :: post) key
  = (true, (i + Z.of_nat (List.length pre))%Z).
Proof.
  revert i. induction pre as [|v pre IH]; intros i Hnin; simpl.
  - rewrite N.eqb_refl. f_equal. lia.
  - apply not_elem_of_cons in Hnin as [Hne Hnin].
    destruct (N.eqb_spec v key) as [->|_]; [done|].
    rewrite IH by done. f_equal. lia.
Qed.

Lemma splice_middle pre key post :
  splice (Z.of_nat (List.length pre)) (pre ++ key :: post) = pre ++ post.
Proof.
  unfold splice. rewrite Nat2Z.id.
  rewrite take_app_length.
  replace (List.length pre + 1)%nat with (List.length pre + 1 + 0)%nat by lia.
  rewrite <- Nat.add_assoc. rewrite drop_app_add. done.
Qed.

Lemma dropKey_miss key s : key ∉ s → dropKey key s = s.
Proof.
  intros Hnin. unfold dropKey. by rewrite getIndexForKey_from_miss.
Qed.

Lemma dropKey_hit pre key post :
  key ∉ pre → dropKey key (pre ++ key :: post) = pre ++ post.
Proof.
  intros Hnin. unfold dropKey. rewrite getIndexForKey_from_hit by done.
  rewrite Z.add_0_l. apply splice_middle.
Qed.

Lemma dropKey_Permutation key s : key ∈ s → s ≡ₚ key :: dropKey key s.
Proof.
  intros Hin. apply list_elem_of_split_l in Hin as (pre & post & -> & Hnin).
  rewrite dropKey_hit by done. by rewrite Permutation_middle.
Qed.

Lemma dropKey_subseteq key s x : x ∈ dropKey key s → x ∈ s.
Proof.
  destruct (decide (key ∈ s)) as [Hin|Hnin].
  - apply list_elem_of_split_l in Hin as (pre & post & -> & Hnin).
    rewrite dropKey_hit by done. rewrite !elem_of_app, elem_of_cons. tauto.
  - by rewrite dropKey_miss.
Qed.

Lemma dropKey_Sorted key s : Sorted N.le s → Sorted N.le (dropKey key s).
Proof.
  intros Hs. destruct (decide (key ∈ s)) as [Hin|Hnin].
  - apply list_elem_of_split_l in Hin as (pre & post & -> & Hnin).
    rewrite dropKey_hit by done.
    apply StronglySorted_Sorted.
    apply (Sorted_StronglySorted N.le) in Hs.
    apply StronglySorted_app in Hs as (Hcross & Hpre & Hpost).
    apply StronglySorted_app. split_and!; [|done|by inv Hpost].
    intros x1 x2 H1 H2. apply Hcross; [done|by right].
  - by rewrite dropKey_miss.
Qed.

(** *** The loops of [AddNode] and [removeNode] *)

Lemma addKey_loop b hr (js : list nat) :
  foldl (addKey b) hr js
  = {| replicateCount := replicateCount hr;
       nodes := foldl (λ m i, <[nodeKey b i := b]> m) (nodes hr) js;
       sortedNodes := sortedNodes hr ++ (nodeKey b <$> js) |}.
Proof.
  revert hr. induction js as [|i js IH]; intros hr; simpl.
  - rewrite app_nil_r. by destruct hr.
  - rewrite IH. simpl. by rewrite <- app_assoc.
Qed.

Lemma removeKey_step b hr i :
  removeKey b hr i
  = {| replicateCount := replicateCount hr;
       nodes := delete (nodeKey b i) (nodes hr);
       sortedNodes := dropKey (nodeKey b i) (sortedNodes hr) |}.
Proof.
  unfold removeKey, dropKey, getIndexForKey.
  by destruct (getIndexForKey_from 0 (sortedNodes hr) (nodeKey b i)).
Qed.

Lemma removeKey_loop b hr (js : list nat) :
  foldl (removeKey b) hr js
  = {| replicateCount := replicateCount hr;
       nodes := foldl (λ m i, delete (nodeKey b i) m) (nodes hr) js;
       sortedNodes := foldl (λ s i, dropKey (nodeKey b i) s) (sortedNodes hr) js |}.
Proof.
  revert hr. induction js as [|i js IH]; intros hr; simpl.
  - by destruct hr.
  - rewrite IH, removeKey_step. done.
Qed.

Lemma lookup_insert_loop b (m : gmap N string) (js : list nat) k :
  foldl (λ m i, <[nodeKey b i := b]> m) m js !! k
  = if decide (k ∈ nodeKey b <$> js) then Some b else m !! k.
Proof.
  revert m. induction js as [|i js IH]; intros m; cbn [foldl].
  - rewrite decide_False; [done|]. apply not_elem_of_nil.
  - rewrite IH, fmap_cons.
    destruct (decide (k = nodeKey b i)) as [->|Hne].
    + rewrite lookup_insert_eq, (decide_True (P := _ ∈ _ :: _)) by left.
      by destruct (decide _).
    + rewrite lookup_insert_ne by done.
      destruct (decide (k ∈ nodeKey b <$> js)) as [Hin|Hnin].
      * rewrite decide_True; [done|by right].
      * rewrite decide_False; [done|]. by apply not_elem_of_cons.
Qed.

Lemma lookup_delete_loop b (m : gmap N string) (js : list nat) k :
  foldl (λ m i, delete (nodeKey b i) m) m js !! k
  = if decide (k ∈ nodeKey b <$> js) then None else m !! k.
Proof.
  revert m. induction js as [|i js IH]; intros m; cbn [foldl].
  - rewrite decide_False; [done|]. apply not_elem_of_nil.
  - rewrite IH, fmap_cons.
    destruct (decide (k = nodeKey b i)) as [->|Hne].
    + rewrite lookup_delete_eq, (decide_True (P := _ ∈ _ :: _)) by left.
      by destruct (decide _).
    + rewrite lookup_delete_ne by done.
      destruct (decide (k ∈ nodeKey b <$> js)) as [Hin|Hnin].
      * rewrite decide_True; [done|by right].
      * rewrite decide_False; [done|]. by apply not_elem_of_cons.
Qed.

Lemma dropKey_loop_Sorted b (js : list nat) s :
  Sorted N.le s → Sorted N.le (foldl (λ s i, dropKey (nodeKey b i) s) s js).
Proof.
  revert s. induction js as [|i js IH]; intros s Hs; simpl; [done|].
  by apply IH, dropKey_Sorted.
Qed.

Lemma dropKey_loop_subseteq b (js : list nat) s x :
  x ∈ foldl (λ s i, dropKey (nodeKey b i) s) s js → x ∈ s.
Proof.
  revert s. induction js as [|i js IH]; intros s; simpl; [done|].
  intros H. by eapply dropKey_subseteq, IH.
Qed.

(** Taking out, one by one, the keys that were appended gives back the
    slice up to the order of its entries. *)
Lemma dropKey_loop_Permutation b (js : list nat) s l :
  s ≡ₚ l ++ (nodeKey b <$> js) →
  foldl (λ s i, dropKey (nodeKey b i) s) s js ≡ₚ l.
Proof.
  revert s. induction js as [|i js IH]; intros s Hp; simpl in *.
  - by rewrite app_nil_r in Hp.
  - apply IH.
    assert (nodeKey b i ∈ s) as Hin.
    { rewrite Hp. set_solver. }
    apply dropKey_Permutation in Hin.
    rewrite Hin in Hp. rewrite <- Permutation_middle in Hp.
    by apply (inj (cons _)) in Hp.
Qed.

End HashRingFacts.

Section HashRingInvariant.
Import GoLib HashRing.
Local Open Scope list_scope.
Local Open Scope N_scope.

(** *** The two operations, field by field *)

Lemma AddNode_fields b hr :
  AddNode b hr
  = {| replicateCount := replicateCount hr;
       nodes := foldl (λ m i, <[nodeKey b i := b]> m) (nodes hr)
                  (replicas (replicateCount hr));
       sortedNodes :=
         sortSlice (sortedNodes hr ++ ringKeys (replicateCount hr) b) |}.
Proof. unfold AddNode. by rewrite addKey_loop. Qed.

Lemma removeNode_fields b hr :
  removeNode b hr
  = {| replicateCount := replicateCount hr;
       nodes := foldl (λ m i, delete (nodeKey b i) m) (nodes hr)
                  (replicas (replicateCount hr));
       sortedNodes :=
         foldl (λ s i, dropKey (nodeKey b i) s) (sortedNodes hr)
           (replicas (replicateCount hr)) |}.
Proof. unfold removeNode. by rewrite removeKey_loop. Qed.

Lemma AddNode_lookup b hr k :
  nodes (AddNode b hr) !! k
  = if decide (k ∈ ringKeys (replicateCount hr) b) then Some b
    else nodes hr !! k.
Proof. rewrite AddNode_fields. apply lookup_insert_loop. Qed.

Lemma removeNode_lookup b hr k :
  nodes (removeNode b hr) !! k
  = if decide (k ∈ ringKeys (replicateCount hr) b) then None
    else nodes hr !! k.
Proof. rewrite removeNode_fields. apply lookup_delete_loop. Qed.

Lemma sortSlice_Sorted l : Sorted N.le (sortSlice l).
Proof. apply Sorted_merge_sort; apply _. Qed.

Lemma sortSlice_Permutation l : sortSlice l ≡ₚ l.
Proof. apply merge_sort_Permutation. Qed.

Lemma sortSlice_fixed l : Sorted N.le l → sortSlice l = l.
Proof.
  intros Hl. apply (Sorted_unique N.le); [apply sortSlice_Sorted|done|].
  apply sortSlice_Permutation.
Qed.

(** *** The invariant holds of every ring the API builds *)

Lemma ring_inv_empty count :
  ring_inv count {| replicateCount := count; nodes := ∅; sortedNodes := [] |}.
Proof.
  split; simpl; [done|constructor| |].
  - intros k [x Hx]. by rewrite lookup_empty in Hx.
  - intros k b Hk. by rewrite lookup_empty in Hk.
Qed.

Lemma ring_inv_AddNode count b hr :
  ring_inv count hr → ring_inv count (AddNode b hr).
Proof.
  intros [Hc Hs Hk Ho]. split.
  - by rewrite AddNode_fields.
  - rewrite AddNode_fields. apply sortSlice_Sorted.
  - intros k. rewrite AddNode_lookup. rewrite AddNode_fields; simpl.
    rewrite sortSlice_Permutation, elem_of_app.
    case_decide; [by right|]. intros ?. left. by apply Hk.
  - intros k b'. rewrite AddNode_lookup, Hc.
    case_decide; [by intros [= <-]|]. apply Ho.
Qed.

Lemma ring_inv_removeNode count b hr :
  ring_inv count hr → ring_inv count (removeNode b hr).
Proof.
  intros [Hc Hs Hk Ho]. split.
  - by rewrite removeNode_fields.
  - rewrite removeNode_fields. by apply dropKey_loop_Sorted.
  - intros k. rewrite removeNode_lookup. rewrite removeNode_fields; simpl.
    case_decide as Hin; [by intros [? ?]|]. intros Hsome.
    specialize (Hk k Hsome). clear Hsome Hs.
    revert Hk Hin. unfold ringKeys.
    generalize (replicas (replicateCount hr)) (sortedNodes hr).
    intros js. induction js as [|i js IH]; intros s Hks Hnin; [done|].
    cbn [foldl]. rewrite fmap_cons in Hnin.
    apply not_elem_of_cons in Hnin as [Hne Hnin]. apply IH; [|done].
    destruct (decide (nodeKey b i ∈ s)) as [Hin'|Hnin'].
    + apply dropKey_Permutation in Hin'. rewrite Hin' in Hks.
      apply elem_of_cons in Hks as [?|?]; [done|done].
    + by rewrite dropKey_miss.
  - intros k b'. rewrite removeNode_lookup.
    case_decide; [done|]. apply Ho.
Qed.

Lemma ring_inv_addNodes count masterNodes hr :
  ring_inv count hr → ring_inv count (addNodes masterNodes hr).
Proof.
  revert hr. unfold addNodes.
  induction masterNodes as [|b bs IH]; intros hr Hinv; [done|].
  cbn [foldl]. by apply IH, ring_inv_AddNode.
Qed.

Lemma reachable_ring_inv count hr : reachable count hr → ring_inv count hr.
Proof.
  induction 1 as [bs|b hr _ IH|b hr _ IH].
  - apply ring_inv_addNodes, ring_inv_empty.
  - by apply ring_inv_AddNode.
  - by apply ring_inv_removeNode.
Qed.

(** *** The lookup loop *)

Lemma GetNode_loop_spec hr h d l :
  (∃ pre n post,
      l = pre ++ n :: post ∧ Forall (λ m, m ≤ h) pre ∧ h < n ∧
      GetNode_loop hr h d l = backend hr n)
  ∨ (Forall (λ m, m ≤ h) l ∧ GetNode_loop hr h d l = d).
Proof.
  induction l as [|node l IH]; simpl.
  - right. by split.
  - destruct (N.ltb_spec h node) as [Hlt|Hge].
    + left. exists [], node, l. by repeat split.
    + destruct IH as [(pre & n & post & -> & Hpre & Hn & Hres)|[Hall Hres]].
      * left. exists (node :: pre), n, post. repeat split; try done.
        by constructor.
      * right. split; [by constructor|done].
Qed.

End HashRingInvariant.

Section HashRingClaims.
Import GoLib HashRing.
Local Open Scope list_scope.
Local Open Scope N_scope.


(** When the hashes of the nodes of [b] do not collide, [AddNode b] leaves
    exactly [count] entries of the map on [b]. *)
Lemma AddNode_replica_count count hr b :
  reachable count hr →
  NoDup (ringKeys count b) →
  List.length (filter (λ e : N * string, e.2 = b)
                 (map_to_list (nodes (AddNode b hr))))
  = Z.to_nat count.
Proof.
  intros Hreach Hnd.
  pose proof (reachable_ring_inv _ _ (reachable_AddNode _ b _ Hreach)) as Hinv.
  pose proof (reachable_ring_inv _ _ Hreach) as Hinv0.
  set (m := nodes (AddNode b hr)).
  set (es := filter (λ e : N * string, e.2 = b) (map_to_list m)).
  assert (es.*1 ≡ₚ ringKeys count b) as Hperm.
  { apply NoDup_Permutation; [|done|].
    - apply (sublist_NoDup _ ((map_to_list m).*1));
        [apply (NoDup_fst_map_to_list m)|].
      apply fmap_sublist, sublist_filter.
    - intros k. unfold es. rewrite list_elem_of_fmap. split.
      + intros ([k' v] & -> & [Hv Hk]%list_elem_of_filter). simpl in *. subst v.
        apply elem_of_map_to_list in Hk. by apply (inv_owner _ _ Hinv).
      + intros Hk. exists (k, b). split; [done|].
        apply list_elem_of_filter. split; [done|].
        apply elem_of_map_to_list. unfold m.
        rewrite AddNode_lookup, (inv_count _ _ Hinv0). by rewrite decide_True. }
  rewrite <- (length_fmap fst es), Hperm. unfold ringKeys, replicas.
  by rewrite length_fmap, length_seq.
Qed.

(** Adding a server and removing it again restores the ring, as soon as
    none of the server's node hashes was a key of the map before. *)
Lemma removeNode_AddNode_fresh count b hr :
  ring_inv count hr →
  Forall (λ k, nodes hr !! k = None) (ringKeys count b) →
  removeNode b (AddNode b hr) = hr.
Proof.
  intros [Hc Hs Hk Ho] Hfresh.
  rewrite removeNode_fields, AddNode_fields. cbn [replicateCount nodes sortedNodes].
  destruct hr as [c m s]; simpl in *. subst c. f_equal.
  - apply map_eq. intros k. rewrite lookup_delete_loop, lookup_insert_loop.
    fold (ringKeys count b). case_decide as Hin; [|done].
    rewrite Forall_forall in Hfresh. symmetry. by apply Hfresh.
  - apply (Sorted_unique N.le); [|done|].
    + apply dropKey_loop_Sorted, sortSlice_Sorted.
    + apply dropKey_loop_Permutation. apply sortSlice_Permutation.
Qed.

(** C9. For every ring built through the API and every address [b] whose
    [count] node hashes are pairwise distinct and distinct from every key
    on the ring, [AddNode b] followed by [removeNode b] gives back the
    same ring: the same map and the same slice. *)
Theorem removeNode_AddNode_restores count b hr :
  reachable count hr →
  NoDup (ringKeys count b) →
  Forall (λ k, k ∉ sortedNodes hr) (ringKeys count b) →
  removeNode b (AddNode b hr) = hr.
Proof.
  intros Hreach _ Hfresh. pose proof (reachable_ring_inv _ _ Hreach) as Hinv.
  apply (removeNode_AddNode_fresh count); [done|].
  eapply Forall_impl; [exact Hfresh|]. intros k Hnin. simpl in Hnin.
  destruct (nodes hr !! k) as [x|] eqn:Hkx; [|done].
  exfalso. apply Hnin. apply (inv_keys _ _ Hinv). by exists x.
Qed.

End HashRingClaims.


(** The server ["c"] is added to and removed from the ring of ["a"] and
    ["b"]; its two node hashes differ and are not on the ring. *)
Lemma removeNode_AddNode_restores_witness :
  HashRing.reachable 2 (HashRing.New ["a"; "b"] 2)
  ∧ NoDup (HashRing.ringKeys 2 "c")
  ∧ Forall (λ k, k ∉ HashRing.sortedNodes (HashRing.New ["a"; "b"] 2))
      (HashRing.ringKeys 2 "c")
  ∧ HashRing.removeNode "c" (HashRing.AddNode "c" (HashRing.New ["a"; "b"] 2))
    = HashRing.New ["a"; "b"] 2.
Proof.
  assert (HashRing.reachable 2 (HashRing.New ["a"; "b"] 2)) as H1
    by constructor.
  assert (NoDup (HashRing.ringKeys 2 "c")) as H2.
  { apply (bool_decide_unpack _). vm_compute. exact I. }
  assert (Forall (λ k, k ∉ HashRing.sortedNodes (HashRing.New ["a"; "b"] 2))
            (HashRing.ringKeys 2 "c")) as H3.
  { apply (bool_decide_unpack _). vm_compute. exact I. }
  split_and!; [exact H1|exact H2|exact H3|].
  exact (removeNode_AddNode_restores 2 "c" (HashRing.New ["a"; "b"] 2) H1 H2 H3).
Defined.

(** ** The registry *)

Section RegistryFacts.
Import GoLib Registry.
Local Open Scope list_scope.
Local Open Scope Z_scope.

(** *** The order of strings *)

Lemma ascii_compare_refl c : Ascii.compare c c = Eq.
Proof. apply N.compare_refl. Qed.

Lemma string_compare_trans_le s1 : ∀ s2 s3,
  String.compare s1 s2 ≠ Gt → String.compare s2 s3 ≠ Gt →
  String.compare s1 s3 ≠ Gt.
Proof.
  induction s1 as [|c1 s1 IH]; intros [|c2 s2] [|c3 s3]; simpl; try done.
  unfold Ascii.compare.
  destruct (N.compare_spec (N_of_ascii c1) (N_of_ascii c2)) as [E12|L12|G12];
    destruct (N.compare_spec (N_of_ascii c2) (N_of_ascii c3)) as [E23|L23|G23];
    destruct (N.compare_spec (N_of_ascii c1) (N_of_ascii c3)) as [E13|L13|G13];
    try done; try lia.
  apply IH.
Qed.

#[local] Instance strLe_trans : Transitive strLe.
Proof.
  intros s1 s2 s3. unfold strLe, String.leb. intros H12 H23.
  pose proof (string_compare_trans_le s1 s2 s3) as Ht.
  destruct (String.compare s1 s2); try done;
    destruct (String.compare s2 s3); try done;
    destruct (String.compare s1 s3); try done; exfalso; by apply Ht.
Qed.

#[local] Instance strLe_total : Total strLe.
Proof. intros s1 s2. apply String.leb_total. Qed.

#[local] Instance strLe_antisym : AntiSymm (=) strLe.
Proof. intros s1 s2. apply String.leb_antisym. Qed.

Lemma sortStrings_Sorted l : Sorted strLe (sortStrings l).
Proof. apply Sorted_merge_sort; apply _. Qed.

Lemma sortStrings_Permutation l : sortStrings l ≡ₚ l.
Proof. apply merge_sort_Permutation. Qed.

Lemma isAlive_spec t now s : isAlive t now s = true ↔ aliveAt t now s.
Proof.
  unfold isAlive, aliveAt. rewrite orb_true_iff, Z.eqb_eq, Z.ltb_lt. done.
Qed.

(** *** The eviction loop *)

Lemma aliveStep_loop t now (order : list (string * ServerItem)) acc m :
  foldl (aliveStep t now) (acc, m) order
  = (acc ++ (fst <$> filter (λ e, aliveAt t now e.2) order),
     foldl (λ m k, delete k m) m
       (fst <$> filter (λ e, ¬ aliveAt t now e.2) order)).
Proof.
  revert acc m. induction order as [|[addr s] order IH]; intros acc m.
  - simpl. by rewrite app_nil_r.
  - cbn [foldl]. unfold aliveStep at 2. cbn [fst snd].
    destruct (isAlive t now s) eqn:Ha.
    + apply isAlive_spec in Ha. rewrite IH.
      rewrite (filter_cons_True (λ e, aliveAt t now e.2)) by done.
      rewrite (filter_cons_False (λ e, ¬ aliveAt t now e.2)) by (simpl; tauto).
      rewrite fmap_cons. cbn [fst]. by rewrite <- app_assoc.
    + assert (¬ aliveAt t now s) as Hd.
      { intros Hal. apply isAlive_spec in Hal. congruence. }
      rewrite IH.
      rewrite (filter_cons_False (λ e, aliveAt t now e.2)) by done.
      rewrite (filter_cons_True (λ e, ¬ aliveAt t now e.2)) by done.
      by rewrite fmap_cons.
Qed.

Lemma lookup_delete_keys (m : gmap string ServerItem) (ks : list string) k :
  foldl (λ m k, delete k m) m ks !! k
  = if decide (k ∈ ks) then None else m !! k.
Proof.
  revert m. induction ks as [|k' ks IH]; intros m; cbn [foldl].
  - rewrite decide_False; [done|]. apply not_elem_of_nil.
  - rewrite IH. destruct (decide (k = k')) as [->|Hne].
    + rewrite lookup_delete_eq, (decide_True (P := _ ∈ _ :: _)) by left.
      by destruct (decide _).
    + rewrite lookup_delete_ne by done.
      destruct (decide (k ∈ ks)) as [Hin|Hnin].
      * rewrite decide_True; [done|by right].
      * rewrite decide_False; [done|]. by apply not_elem_of_cons.
Qed.

Lemma aliveServers_in_fields order now r :
  aliveServers_in order now r
  = (sortStrings (fst <$> filter (λ e, aliveAt (timeout r) now e.2) order),
     {| timeout := timeout r;
        servers := foldl (λ m k, delete k m) (servers r)
          (fst <$> filter (λ e, ¬ aliveAt (timeout r) now e.2) order) |}).
Proof. unfold aliveServers_in. by rewrite aliveStep_loop. Qed.

End RegistryFacts.

Section RegistryClaims.
Import GoLib Registry.
Local Open Scope Z_scope.

(** C4. For every registry with timeout [T] and every GET served at time
    [now], whatever the order in which the loop visits the table: an
    address is in the answer iff the table holds it with a last heartbeat
    [t] such that [T = 0] or [now < t + T]; the table after the request
    is the table before it without the entries that fail this test; the
    answer is sorted ascending and without repetition; and the response
    carries it, joined by commas, in the header [X-Myrpc-Servers]. *)
Theorem aliveServers_spec order now r hdr :
  order ≡ₚ map_to_list (servers r) →
  let res := aliveServers_in order now r in
  (∀ addr, addr ∈ res.1
           ↔ ∃ s, servers r !! addr = Some s
                  ∧ (timeout r = 0 ∨ now < start s + timeout r))
  ∧ servers res.2
    = filter (λ e, timeout r = 0 ∨ now < start e.2 + timeout r) (servers r)
  ∧ timeout res.2 = timeout r
  ∧ Sorted strLe res.1
  ∧ NoDup res.1
  ∧ ServeHTTP_in order now {| Method := "GET"; Header := hdr |} r
    = ({| StatusCode := 200;
          RespHeader := {[ "X-Myrpc-Servers" := Join res.1 "," ]} |}, res.2).
Proof.
  intros Hperm res. subst res. rewrite aliveServers_in_fields. cbn [fst snd].
  assert (∀ addr s, (addr, s) ∈ order ↔ servers r !! addr = Some s) as Hin.
  { intros addr s. rewrite Hperm. apply elem_of_map_to_list. }
  assert (NoDup (fst <$> order)) as Hnd.
  { rewrite Hperm. apply NoDup_fst_map_to_list. }
  split_and!.
  - intros addr. rewrite sortStrings_Permutation, list_elem_of_fmap. split.
    + intros ([a s] & -> & [Hal Hmem]%list_elem_of_filter). exists s.
      split; [by apply Hin|done].
    + intros (s & Hs & Hal). exists (addr, s). split; [done|].
      apply list_elem_of_filter. split; [done|by apply Hin].
  - cbn [servers]. apply map_eq. intros k. rewrite lookup_delete_keys.
    apply option_eq. intros x. rewrite map_lookup_filter_Some. cbn [fst snd].
    case_decide as Hdead.
    + split; [done|]. intros [Hk Hal]. exfalso.
      apply list_elem_of_fmap in Hdead as ([a s] & -> & [Hd Hmem]%list_elem_of_filter).
      apply Hin in Hmem. simpl in *. rewrite Hk in Hmem. injection Hmem as ->.
      by apply Hd.
    + split; [|by intros [? ?]]. intros Hk. split; [done|].
      destruct (decide (aliveAt (timeout r) now x)) as [Hal|Hd]; [done|].
      exfalso. apply Hdead. apply list_elem_of_fmap. exists (k, x).
      split; [done|]. apply list_elem_of_filter. split; [done|by apply Hin].
  - done.
  - apply sortStrings_Sorted.
  - rewrite sortStrings_Permutation.
    revert Hnd. generalize order. intros l. induction l as [|e l IH]; intros Hl.
    + constructor.
    + rewrite fmap_cons in Hl. apply NoDup_cons in Hl as [Hhd Htl].
      destruct (decide (aliveAt (timeout r) now e.2)) as [Hal|Hd].
      * rewrite filter_cons_True by done. rewrite fmap_cons.
        apply NoDup_cons. split; [|by apply IH].
        intros Hmem. apply Hhd.
        apply list_elem_of_fmap in Hmem as (e' & -> & [_ Hmem]%list_elem_of_filter).
        apply list_elem_of_fmap. by exists e'.
      * rewrite filter_cons_False by done. by apply IH.
  - unfold ServeHTTP_in. cbn [Method]. rewrite String.eqb_refl.
    by rewrite aliveServers_in_fields.
Qed.

End RegistryClaims.

Example ServeHTTP_other_method :
  (Registry.ServeHTTP 0 {| Registry.Method := "PUT"; Registry.Header := ∅ |}
     (Registry.New Registry.defaultTimeout)).1
  = {| Registry.StatusCode := 405; Registry.RespHeader := ∅ |}.
Proof. reflexivity. Qed.

Example ServeHTTP_post_without_address :
  (Registry.ServeHTTP 0 {| Registry.Method := "POST"; Registry.Header := ∅ |}
     (Registry.New Registry.defaultTimeout)).1
  = {| Registry.StatusCode := 500; Registry.RespHeader := ∅ |}.
Proof. reflexivity. Qed.

(** Witness of C4: a registry with a one-second timeout that heard from ["tcp@a"] at
    time 0 and from ["tcp@b"] one second later, asked 1.5 seconds after
    the first heartbeat: ["tcp@a"] is evicted, ["tcp@b"] is returned. *)
Lemma aliveServers_spec_witness :
  [("tcp@b", Registry.mkServerItem "tcp@b" 1000000000);
   ("tcp@a", Registry.mkServerItem "tcp@a" 0)]
    ≡ₚ map_to_list
         (Registry.servers
            (Registry.putServer "tcp@b" 1000000000
               (Registry.putServer "tcp@a" 0 (Registry.New 1000000000))))
  ∧ Registry.ServeHTTP_in
      [("tcp@b", Registry.mkServerItem "tcp@b" 1000000000);
       ("tcp@a", Registry.mkServerItem "tcp@a" 0)]
      1500000000
      {| Registry.Method := "GET"; Registry.Header := ∅ |}
      (Registry.putServer "tcp@b" 1000000000
         (Registry.putServer "tcp@a" 0 (Registry.New 1000000000)))
    = ({| Registry.StatusCode := 200;
          Registry.RespHeader := {[ "X-Myrpc-Servers" := "tcp@b" ]} |},
       {| Registry.timeout := 1000000000;
          Registry.servers :=
            {[ "tcp@b" := Registry.mkServerItem "tcp@b" 1000000000 ]} |}).
Proof.
  assert ([("tcp@b", Registry.mkServerItem "tcp@b" 1000000000);
           ("tcp@a", Registry.mkServerItem "tcp@a" 0)]
            ≡ₚ map_to_list
                 (Registry.servers
                    (Registry.putServer "tcp@b" 1000000000
                       (Registry.putServer "tcp@a" 0 (Registry.New 1000000000)))))
    as Hperm.
  { vm_compute. first [reflexivity | apply perm_swap]. }
  split; [exact Hperm|].
  pose proof (aliveServers_spec _ 1500000000 _ ∅ Hperm) as H.
  cbv zeta in H. destruct H as (_ & _ & _ & _ & _ & ->).
  vm_compute. reflexivity.
Defined.

(** ** The client *)

Section ClientPrimitives.
Import Client.
Local Open Scope N_scope.

(** *** What the assignments through a pointer leave unchanged *)

Lemma seqOf_setError l e w l' : seqOf (setError l e w) l' = seqOf w l'.
Proof.
  unfold seqOf, setError. cbn. destruct (decide (l = l')) as [->|Hne].
  - rewrite lookup_alter_eq. by destruct (heap w !! l').
  - by rewrite lookup_alter_ne.
Qed.

Lemma seqOf_setReply l b w l' : seqOf (setReply l b w) l' = seqOf w l'.
Proof.
  unfold seqOf, setReply. cbn. destruct (decide (l = l')) as [->|Hne].
  - rewrite lookup_alter_eq. by destruct (heap w !! l').
  - by rewrite lookup_alter_ne.
Qed.

Lemma seqOf_setSeq l s w l' :
  seqOf (setSeq l s w) l'
  = if decide (l = l') then (λ _, s) <$> seqOf w l' else seqOf w l'.
Proof.
  unfold seqOf, setSeq. cbn. case_decide as Hl.
  - subst. rewrite lookup_alter_eq. by destruct (heap w !! l').
  - by rewrite lookup_alter_ne.
Qed.

Lemma seqOf_done l w l' : seqOf (done l w) l' = seqOf w l'.
Proof. unfold seqOf, done. by destruct (heap w !! l). Qed.

Lemma notified_alter f l w l' :
  (∀ c, Done (f c) = Done c) →
  notified (setHeap (alter f l (heap w)) w) l' = notified w l'.
Proof.
  intros Hf. unfold notified. cbn. destruct (decide (l = l')) as [->|Hne].
  - rewrite lookup_alter_eq. destruct (heap w !! l'); [|done]. cbn.
    by rewrite Hf.
  - by rewrite lookup_alter_ne.
Qed.

Lemma notified_setError l e w l' : notified (setError l e w) l' = notified w l'.
Proof. by apply notified_alter. Qed.

Lemma notified_setReply l b w l' : notified (setReply l b w) l' = notified w l'.
Proof. by apply notified_alter. Qed.

Lemma notified_setSeq l s w l' : notified (setSeq l s w) l' = notified w l'.
Proof. by apply notified_alter. Qed.

Lemma allocated_alter f l (h : gmap loc Call) l' :
  is_Some (alter f l h !! l') ↔ is_Some (h !! l').
Proof.
  destruct (decide (l = l')) as [->|Hne].
  - rewrite lookup_alter_eq. by rewrite fmap_is_Some.
  - by rewrite lookup_alter_ne.
Qed.

Lemma allocated_seqOf w l : is_Some (heap w !! l) ↔ is_Some (seqOf w l).
Proof. unfold seqOf. by rewrite fmap_is_Some. Qed.

(** *** The effect of [call.done()] *)

Lemma notified_done l w l' :
  notified (done l w) l'
  = (notified w l'
     + if decide (l = l' ∧ is_Some (heap w !! l)) then 1 else 0)%nat.
Proof.
  unfold notified, done. destruct (heap w !! l) as [c|] eqn:Hl; cbn.
  - destruct (heap w !! l') as [c'|] eqn:Hl'.
    + destruct (decide (Done c = Done c')) as [Heq|Hne].
      * rewrite Heq, lookup_insert_eq. cbn.
        rewrite filter_app, length_app. f_equal.
        destruct (decide (l = l')) as [->|Hll].
        -- rewrite decide_True by (split; [done|by eexists]).
           by rewrite filter_cons_True.
        -- rewrite decide_False by tauto.
           by rewrite filter_cons_False.
      * rewrite lookup_insert_ne by done.
        rewrite decide_False; [lia|]. intros [-> _]. congruence.
    + rewrite decide_False; [done|]. intros [-> _]. congruence.
  - rewrite decide_False; [lia|]. intros [_ [? ?]]. congruence.
Qed.

Lemma logged_done l w l' :
  logged (done l w) l' → logged w l' ∨ (l' = l ∧ is_Some (heap w !! l)).
Proof.
  unfold logged, done. destruct (heap w !! l) as [c|] eqn:Hl; cbn.
  - intros [ch Hch]. destruct (decide (Done c = ch)) as [<-|Hne].
    + rewrite lookup_insert_eq in Hch. cbn in Hch.
      apply elem_of_app in Hch as [Hch|Hch].
      * left. by exists (Done c).
      * apply list_elem_of_singleton in Hch. right. split; [done|by eexists].
    + rewrite lookup_insert_ne in Hch by done. left. by exists ch.
  - intros H. by left.
Qed.

End ClientPrimitives.

Section ClientInvariant.
Import Client.
Local Open Scope N_scope.

Lemma seqOf_ext w w' l : heap w' = heap w → seqOf w' l = seqOf w l.
Proof. unfold seqOf. by intros ->. Qed.

Lemma notified_ext w w' l :
  heap w' = heap w → chans w' = chans w → notified w' l = notified w l.
Proof. unfold notified. by intros -> ->. Qed.

Lemma logged_ext w w' l : chans w' = chans w → logged w' l → logged w l.
Proof. unfold logged. by intros ->. Qed.

Lemma length_snoc_N (evs : list event) ev :
  N.of_nat (List.length (evs ++ [ev])) = N.of_nat (List.length evs) + 1.
Proof. rewrite length_app. simpl. lia. Qed.

(** *** Steps that touch neither the table nor the calls *)

Lemma client_inv_frame evs ev w w' :
  client_inv evs w →
  heap w' = heap w → chans w' = chans w →
  pending (client w') = pending (client w) →
  seq (client w') = seq (client w) →
  shutdown (client w') = shutdown (client w) →
  sender w' = sender w ∨ sender w' = None →
  recv w' = recv w ∨ shutdown (client w) = false →
  client_inv (evs ++ [ev]) w'.
Proof.
  intros [H1 H2 H3 H4 H5 H6 H7 H8 H9 H10 H11] Hh Hc Hp Hs Hsh Hsd Hr.
  split.
  - by rewrite Hs.
  - rewrite Hs, length_snoc_N. lia.
  - intros k l. rewrite Hp, (seqOf_ext w w') by done. apply H3.
  - intros l k. rewrite Hs, (seqOf_ext w w') by done. apply H4.
  - intros l1 l2 k. rewrite !(seqOf_ext w w') by done. apply H5.
  - intros l Hl. rewrite Hh. by apply H6, (logged_ext w w').
  - intros l. rewrite (notified_ext w w') by done. apply H7.
  - intros k l. rewrite Hp, Hsh, (notified_ext w w') by done. apply H8.
  - intros l k. rewrite Hp, (seqOf_ext w w'), (notified_ext w w') by done.
    intros Hk Hn. destruct (H9 l k Hk Hn) as [?|?]; [by left|right].
    apply elem_of_app. by left.
  - intros l s. rewrite Hsh. destruct Hsd as [->| ->]; [apply H10|done].
  - rewrite Hsh. intros Hshut. destruct Hr as [->|Hf]; [by apply H11|congruence].
Qed.

(** *** Steps that take one call out of the table *)

(** The call found under [s] is taken out and notified. *)
Lemma client_inv_complete evs ev w w' s l :
  client_inv evs w →
  shutdown (client w) = false →
  pending (client w) !! s = Some l →
  (∀ x, seqOf w' x = seqOf w x) →
  (∀ x, is_Some (heap w' !! x) ↔ is_Some (heap w !! x)) →
  (∀ x, notified w' x = (notified w x + if decide (l = x) then 1 else 0)%nat) →
  (∀ x, logged w' x → logged w x ∨ x = l) →
  pending (client w') = delete s (pending (client w)) →
  seq (client w') = seq (client w) →
  shutdown (client w') = false →
  sender w' = sender w ∨ sender w' = None →
  client_inv (evs ++ [ev]) w'.
Proof.
  intros [H1 H2 H3 H4 H5 H6 H7 H8 H9 H10 H11] Hsh Hl Hseq Hal Hn Hlog Hp Hs Hsh' Hsd.
  assert (notified w l = 0%nat) as Hl0.
  { rewrite (H8 s l Hl), Hsh. done. }
  destruct (H3 s l Hl) as [Hs1 Hsl].
  split.
  - by rewrite Hs.
  - rewrite Hs, length_snoc_N. lia.
  - intros k x. rewrite Hp, Hseq. intros Hk.
    apply lookup_delete_Some in Hk as [_ Hk]. by apply H3.
  - intros x k. rewrite Hs, Hseq. apply H4.
  - intros l1 l2 k. rewrite !Hseq. apply H5.
  - intros x Hx. apply Hal. destruct (Hlog x Hx) as [?| ->]; [by apply H6|].
    apply allocated_seqOf. by rewrite Hsl.
  - intros x. rewrite Hn. case_decide as Hx.
    + subst x. rewrite Hl0. lia.
    + specialize (H7 x). lia.
  - intros k x. rewrite Hp, Hsh', Hn. intros Hk.
    apply lookup_delete_Some in Hk as [Hne Hk].
    rewrite decide_False.
    + rewrite (H8 k x Hk), Hsh. lia.
    + intros <-. destruct (H3 k l Hk) as [_ Hkl]. congruence.
  - intros x k. rewrite Hseq, Hn, Hp. intros Hk Hx0.
    case_decide as Hx; [lia|]. rewrite Nat.add_0_r in Hx0.
    destruct (H9 x k Hk Hx0) as [Hpk|Hc].
    + left. apply lookup_delete_Some. split; [|done].
      intros <-. congruence.
    + right. apply elem_of_app. by left.
  - intros x k. rewrite Hsh'. done.
  - rewrite Hsh'. done.
Qed.

(** The key [s] is deleted from the table without a notification: there
    was nothing under it, or the caller of the call under it gave up. *)
Lemma client_inv_remove evs ev w w' s :
  client_inv evs w →
  (∀ l, pending (client w) !! s = Some l → ev = EvCancel l) →
  heap w' = heap w → chans w' = chans w →
  pending (client w') = delete s (pending (client w)) →
  seq (client w') = seq (client w) →
  shutdown (client w') = shutdown (client w) →
  sender w' = sender w ∨ sender w' = None →
  recv w' = recv w ∨ shutdown (client w) = false →
  client_inv (evs ++ [ev]) w'.
Proof.
  intros Hinv Hev Hh Hc Hp Hs Hsh Hsd Hr.
  pose proof Hinv as [H1 H2 H3 H4 H5 H6 H7 H8 H9 H10 H11].
  split.
  - by rewrite Hs.
  - rewrite Hs, length_snoc_N. lia.
  - intros k l. rewrite Hp, (seqOf_ext w w') by done. intros Hk.
    apply lookup_delete_Some in Hk as [_ Hk]. by apply H3.
  - intros l k. rewrite Hs, (seqOf_ext w w') by done. apply H4.
  - intros l1 l2 k. rewrite !(seqOf_ext w w') by done. apply H5.
  - intros l Hl. rewrite Hh. by apply H6, (logged_ext w w').
  - intros l. rewrite (notified_ext w w') by done. apply H7.
  - intros k l. rewrite Hp, Hsh, (notified_ext w w') by done. intros Hk.
    apply lookup_delete_Some in Hk as [_ Hk]. by apply (H8 k).
  - intros l k. rewrite Hp, (seqOf_ext w w'), (notified_ext w w') by done.
    intros Hk Hn. destruct (H9 l k Hk Hn) as [Hpk|Hcan].
    + destruct (decide (s = k)) as [->|Hne].
      * right. rewrite (Hev l Hpk). apply elem_of_app. right. by left.
      * left. by apply lookup_delete_Some.
    + right. apply elem_of_app. by left.
  - intros l k. rewrite Hsh. destruct Hsd as [->| ->]; [apply H10|done].
  - rewrite Hsh. intros Hshut. destruct Hr as [->|Hf]; [by apply H11|congruence].
Qed.

End ClientInvariant.

Section ClientSteps.
Import Client.
Local Open Scope N_scope.

Lemma notified_done_allocated l w x :
  is_Some (heap w !! l) →
  notified (done l w) x = (notified w x + if decide (l = x) then 1 else 0)%nat.
Proof.
  intros Hl. rewrite notified_done. f_equal.
  destruct (decide (l = x)) as [->|Hne].
  - by rewrite decide_True.
  - rewrite decide_False; [done|]. tauto.
Qed.

Lemma heap_done l w : heap (done l w) = heap w.
Proof. unfold done. by destruct (heap w !! l). Qed.

Lemma client_done l w : client (done l w) = client w.
Proof. unfold done. by destruct (heap w !! l). Qed.

Lemma sender_done l w : sender (done l w) = sender w.
Proof. unfold done. by destruct (heap w !! l). Qed.

Lemma recv_done l w : recv (done l w) = recv w.
Proof. unfold done. by destruct (heap w !! l). Qed.

(** *** [removeCall] followed by a notification, or by none *)

Lemma client_inv_removeCall_notify evs ev w s l (upd : World → World) w' :
  client_inv evs w →
  shutdown (client w) = false →
  pending (client w) !! s = Some l →
  (∀ v x, seqOf (upd v) x = seqOf v x) →
  (∀ v x, notified (upd v) x = notified v x) →
  (∀ v x, is_Some (heap (upd v) !! x) ↔ is_Some (heap v !! x)) →
  (∀ v, chans (upd v) = chans v) →
  (∀ v, client (upd v) = client v) →
  (∀ v, sender (upd v) = sender v) →
  heap w' = heap (done l (upd (removeCall s w).2)) →
  chans w' = chans (done l (upd (removeCall s w).2)) →
  client w' = client (removeCall s w).2 →
  sender w' = sender w ∨ sender w' = None →
  client_inv (evs ++ [ev]) w'.
Proof.
  intros Hinv Hsh Hl U1 U2 U3 U4 U5 U6 Hh Hc Hcl Hsd.
  destruct (inv_pend_key _ _ Hinv s l Hl) as [_ Hsl].
  assert (is_Some (heap w !! l)) as Hal.
  { apply allocated_seqOf. by rewrite Hsl. }
  set (v := done l (upd (removeCall s w).2)) in *.
  apply (client_inv_complete evs ev w w' s l); try done.
  - intros x. rewrite (seqOf_ext v w') by done. unfold v.
    rewrite seqOf_done, U1. done.
  - intros x. rewrite Hh. unfold v. rewrite heap_done, U3. done.
  - intros x. rewrite (notified_ext v w') by done. unfold v.
    rewrite notified_done_allocated by (by apply U3).
    rewrite U2. done.
  - intros x Hx. apply (logged_ext v w') in Hx; [|done]. unfold v in Hx.
    apply logged_done in Hx as [Hx|[-> _]]; [left|by right].
    destruct Hx as [ch Hch]. exists ch. by rewrite U4 in Hch.
  - by rewrite Hcl.
  - by rewrite Hcl.
  - by rewrite Hcl.
Qed.

Lemma setError_upd l e :
  (∀ v x, seqOf (setError l e v) x = seqOf v x)
  ∧ (∀ v x, notified (setError l e v) x = notified v x)
  ∧ (∀ v x, is_Some (heap (setError l e v) !! x) ↔ is_Some (heap v !! x))
  ∧ (∀ v, chans (setError l e v) = chans v)
  ∧ (∀ v, client (setError l e v) = client v)
  ∧ (∀ v, sender (setError l e v) = sender v).
Proof.
  split_and!; try done.
  - intros. apply seqOf_setError.
  - intros. apply notified_setError.
  - intros. apply allocated_alter.
Qed.

Lemma setReply_upd l b :
  (∀ v x, seqOf (setReply l b v) x = seqOf v x)
  ∧ (∀ v x, notified (setReply l b v) x = notified v x)
  ∧ (∀ v x, is_Some (heap (setReply l b v) !! x) ↔ is_Some (heap v !! x))
  ∧ (∀ v, chans (setReply l b v) = chans v)
  ∧ (∀ v, client (setReply l b v) = client v)
  ∧ (∀ v, sender (setReply l b v) = sender v).
Proof.
  split_and!; try done.
  - intros. apply seqOf_setReply.
  - intros. apply notified_setReply.
  - intros. apply allocated_alter.
Qed.

Lemma client_inv_notify_error evs ev w s l e w' :
  client_inv evs w →
  shutdown (client w) = false →
  pending (client w) !! s = Some l →
  heap w' = heap (done l (setError l e (removeCall s w).2)) →
  chans w' = chans (done l (setError l e (removeCall s w).2)) →
  client w' = client (removeCall s w).2 →
  sender w' = sender w ∨ sender w' = None →
  client_inv (evs ++ [ev]) w'.
Proof.
  intros Hinv Hsh Hl. destruct (setError_upd l e) as (?&?&?&?&?&?).
  by apply (client_inv_removeCall_notify evs ev w s l (setError l e)).
Qed.

Lemma client_inv_notify_reply evs ev w s l b w' :
  client_inv evs w →
  shutdown (client w) = false →
  pending (client w) !! s = Some l →
  heap w' = heap (done l (setReply l b (removeCall s w).2)) →
  chans w' = chans (done l (setReply l b (removeCall s w).2)) →
  client w' = client (removeCall s w).2 →
  sender w' = sender w ∨ sender w' = None →
  client_inv (evs ++ [ev]) w'.
Proof.
  intros Hinv Hsh Hl. destruct (setReply_upd l b) as (?&?&?&?&?&?).
  by apply (client_inv_removeCall_notify evs ev w s l (setReply l b)).
Qed.

Lemma not_shutdown_of_recv evs w :
  client_inv evs w → recv w ≠ Exited → shutdown (client w) = false.
Proof.
  intros Hinv Hr. destruct (shutdown (client w)) eqn:Hsh; [|done].
  exfalso. by apply Hr, (inv_recv _ _ Hinv).
Qed.

(** *** The events one by one *)

Lemma step_inv_Close evs w :
  client_inv evs w → client_inv (evs ++ [EvClose]) (Close w).2.
Proof.
  intros Hinv. apply (client_inv_frame evs _ w); try done;
    unfold Close; destruct (closing (client w)); try done; by left.
Qed.

Lemma step_inv_Write evs w l s err :
  client_inv evs w → sender w = Some (l, s) →
  client_inv (evs ++ [EvWrite err]) (sendWrite s err w).
Proof.
  intros Hinv Hsd. destruct err as [e|]; cbn.
  - destruct (pending (client w) !! s) as [l'|] eqn:Hl.
    + assert (shutdown (client w) = false) as Hsh.
      { destruct (shutdown (client w)) eqn:Hsh; [|done].
        rewrite (inv_sender _ _ Hinv l s Hsd Hsh) in Hl.
        destruct (inv_pend_key _ _ Hinv 0 l' Hl) as [? _]. lia. }
      apply (client_inv_notify_error evs _ w s l' (Some e)); try done.
      * cbn. by rewrite client_done.
      * by right.
    + apply (client_inv_remove evs _ w _ s); try done.
      * intros l'. by rewrite Hl.
      * by right.
      * by left.
  - apply (client_inv_frame evs _ w); try done; [by right|by left].
Qed.

Lemma step_inv_Header evs w h body bodyErr :
  client_inv evs w → recv w = Receiving →
  client_inv (evs ++ [EvHeader h body bodyErr]) (receiveHeader h body bodyErr w).
Proof.
  intros Hinv Hr.
  assert (shutdown (client w) = false) as Hsh.
  { apply (not_shutdown_of_recv evs); [done|]. by rewrite Hr. }
  unfold receiveHeader. cbn.
  destruct (pending (client w) !! Codec.Seq h) as [l|] eqn:Hl.
  - destruct (negb (Codec.Error h =? "")%string).
    + apply (client_inv_notify_error evs _ w (Codec.Seq h) l
               (Some (Codec.Error h))); try done.
      * cbn. by rewrite client_done.
      * left. cbn. by rewrite sender_done.
    + destruct bodyErr as [e|].
      * apply (client_inv_notify_error evs _ w (Codec.Seq h) l
                 (Some ("reading body" ++ e)%string)); try done.
        -- cbn. by rewrite client_done.
        -- left. cbn. by rewrite sender_done.
      * apply (client_inv_notify_reply evs _ w (Codec.Seq h) l body); try done.
        -- cbn. by rewrite client_done.
        -- left. cbn. by rewrite sender_done.
  - apply (client_inv_remove evs _ w _ (Codec.Seq h)); try done.
    + intros l. by rewrite Hl.
    + by left.
    + by right.
Qed.

Lemma step_inv_HeaderErr evs w err :
  client_inv evs w → recv w = Receiving →
  client_inv (evs ++ [EvHeaderErr err]) (setRecv (Failed err) w).
Proof.
  intros Hinv Hr. apply (client_inv_frame evs _ w); try done; [by left|].
  right. apply (not_shutdown_of_recv evs); [done|]. by rewrite Hr.
Qed.

Lemma step_inv_Cancel evs w l c :
  client_inv evs w → heap w !! l = Some c →
  client_inv (evs ++ [EvCancel l]) (removeCall (Seq c) w).2.
Proof.
  intros Hinv Hl. apply (client_inv_remove evs _ w _ (Seq c)); try done.
  - intros l' Hl'. f_equal.
    destruct (inv_pend_key _ _ Hinv _ _ Hl') as [Hge Hs'].
    apply (inv_seq_inj _ _ Hinv l l' (Seq c)); [|done|lia].
    unfold seqOf. by rewrite Hl.
  - by left.
  - by left.
Qed.

End ClientSteps.

Section ClientGo.
Import Client.
Local Open Scope N_scope.

(** *** A new call *)

Lemma fresh_not_notified evs w l c0 :
  client_inv evs w → heap w !! l = None →
  notified (setHeap (<[l := c0]> (heap w)) w) l = 0%nat.
Proof.
  intros Hinv Hl. unfold notified. cbn. rewrite lookup_insert_eq.
  destruct (filter (λ x, x = l) (default [] (chans w !! Done c0)))
    as [|y ys] eqn:Hf; [done|].
  exfalso. assert (y ∈ y :: ys) as Hy by left.
  rewrite <- Hf in Hy. apply list_elem_of_filter in Hy as [-> Hy].
  assert (logged w l) as Hlog by (by exists (Done c0)).
  apply (inv_logged _ _ Hinv) in Hlog as [? ?]. congruence.
Qed.

Lemma other_notified w l c0 x :
  x ≠ l → notified (setHeap (<[l := c0]> (heap w)) w) x = notified w x.
Proof. intros Hne. unfold notified. cbn. by rewrite lookup_insert_ne. Qed.

Lemma seqOf_alloc w l c0 x :
  seqOf (setHeap (<[l := c0]> (heap w)) w) x
  = if decide (l = x) then Some (Seq c0) else seqOf w x.
Proof.
  unfold seqOf. cbn. case_decide as Hx.
  - subst. by rewrite lookup_insert_eq.
  - by rewrite lookup_insert_ne.
Qed.

Lemma step_inv_Go evs w l sm args dn :
  client_inv evs w →
  N.of_nat (List.length (evs ++ [EvGo l sm args dn])) < uint64_max →
  heap w !! l = None → sender w = None →
  client_inv (evs ++ [EvGo l sm args dn])
    (sendRegister l (setHeap (<[l := mkCall 0 sm args "" None dn]> (heap w)) w)).
Proof.
  intros Hinv Hlen Hl Hsd.
  pose proof Hinv as [H1 H2 H3 H4 H5 H6 H7 H8 H9 H10 H11].
  set (c0 := mkCall 0 sm args "" None dn).
  set (w0 := setHeap (<[l := c0]> (heap w)) w).
  assert (seqOf w l = None) as Hsl by (unfold seqOf; by rewrite Hl).
  assert (∀ k x, pending (client w) !! k = Some x → x ≠ l) as Hpl.
  { intros k x Hk ->. destruct (H3 k l Hk) as [_ ?]. congruence. }
  rewrite length_snoc_N in Hlen. unfold uint64_max, uint64_modulus in Hlen.
  unfold sendRegister, registerCall.
  change (client w0) with (client w).
  destruct (closing (client w) || shutdown (client w)) eqn:Hflags.
  - (* the client is closed: the call is notified with ErrShutdown *)
    set (w2 := done l (setError l (Some ErrShutdown) w0)).
    assert (∀ x, seqOf w2 x = if decide (l = x) then Some 0 else seqOf w x) as Hseq.
    { intros x. unfold w2. rewrite seqOf_done, seqOf_setError. apply seqOf_alloc. }
    assert (∀ x, notified w2 x
                 = if decide (l = x) then 1%nat else notified w x) as Hn.
    { intros x. unfold w2. rewrite notified_done_allocated, notified_setError.
      - case_decide as Hx.
        + subst x. unfold w0. by rewrite (fresh_not_notified evs).
        + unfold w0. rewrite other_notified by done. lia.
      - apply allocated_alter. cbn. rewrite lookup_insert_eq. by eexists. }
    assert (client w2 = client w) as Hcl by (unfold w2; by rewrite client_done).
    split; cbn; rewrite ?Hcl.
    + done.
    + rewrite length_snoc_N. lia.
    + intros k x Hk. destruct (H3 k x Hk) as [? Hx]. split; [done|].
      change (seqOf w2 x = Some k). rewrite Hseq, decide_False; [done|].
      intros <-. by apply (Hpl k l).
    + intros x k. change (seqOf w2 x = Some k → k < seq (client w)).
      rewrite Hseq. case_decide; [intros [= <-]; lia|apply H4].
    + intros l1 l2 k.
      change (seqOf w2 l1 = Some k → seqOf w2 l2 = Some k → k ≠ 0 → l1 = l2).
      rewrite !Hseq. repeat case_decide; try (intros [= <-]; done).
      * intros _ [= <-]. done.
      * apply H5.
    + intros x Hx. change (is_Some (heap w2 !! x)).
      unfold w2. rewrite heap_done. apply allocated_alter. cbn.
      destruct (decide (l = x)) as [->|Hne]; [rewrite lookup_insert_eq; by eexists|].
      rewrite lookup_insert_ne by done. apply H6.
      assert (logged w2 x) as Hx2 by exact Hx.
      unfold w2 in Hx2. apply logged_done in Hx2 as [Hx2|[-> _]]; [|done].
      exact Hx2.
    + intros x. change (notified w2 x ≤ 1)%nat. rewrite Hn.
      case_decide; [lia|apply H7].
    + intros k x Hk. change (notified w2 x = if shutdown (client w) then 1%nat else 0%nat).
      rewrite Hn, decide_False; [by apply (H8 k)|].
      intros <-. by apply (Hpl k l).
    + intros x k.
      change (seqOf w2 x = Some k → notified w2 x = 0%nat →
              pending (client w) !! k = Some x
              ∨ EvCancel x ∈ evs ++ [EvGo l sm args dn]).
      rewrite Hseq, Hn. case_decide; [done|]. intros Hk Hx0.
      destruct (H9 x k Hk Hx0) as [?|?]; [by left|right].
      apply elem_of_app. by left.
    + intros x s [= <- <-]. done.
    + unfold w2. rewrite recv_done. apply H11.
  - (* the call enters the table under the current sequence number *)
    apply orb_false_iff in Hflags as [Hclo Hshut].
    set (s := seq (client w)) in *.
    assert (wrap64 (s + 1) = s + 1) as Hwrap.
    { unfold wrap64, uint64_modulus. apply N.mod_small. lia. }
    set (w1 := setSeq l s w0).
    assert (∀ x, seqOf w1 x = if decide (l = x) then Some s else seqOf w x) as Hseq.
    { intros x. unfold w1. rewrite seqOf_setSeq. unfold w0. rewrite seqOf_alloc.
      by case_decide. }
    assert (∀ x, notified w1 x = if decide (l = x) then 0%nat else notified w x) as Hn.
    { intros x. unfold w1. rewrite notified_setSeq. case_decide as Hx.
      - subst x. unfold w0. by rewrite (fresh_not_notified evs).
      - unfold w0. by rewrite other_notified. }
    split; cbn; rewrite ?Hwrap, ?Hshut.
    + lia.
    + rewrite length_snoc_N. fold s. lia.
    + intros k x Hk. change (1 ≤ k ∧ seqOf w1 x = Some k). rewrite Hseq.
      destruct (decide (s = k)) as [<-|Hne].
      * rewrite lookup_insert_eq in Hk. injection Hk as <-.
        rewrite decide_True by done. split; [done|done].
      * rewrite lookup_insert_ne in Hk by done.
        destruct (H3 k x Hk) as [? Hx]. split; [done|].
        rewrite decide_False; [done|]. intros <-. by apply (Hpl k l).
    + intros x k. change (seqOf w1 x = Some k → k < s + 1). rewrite Hseq.
      case_decide; [intros [= <-]; lia|]. intros Hk%H4. fold s in Hk. lia.
    + intros l1 l2 k.
      change (seqOf w1 l1 = Some k → seqOf w1 l2 = Some k → k ≠ 0 → l1 = l2).
      rewrite !Hseq. repeat case_decide; try congruence.
      * intros [= <-] Hk%H4. fold s in Hk. lia.
      * intros Hk%H4 [= <-]. fold s in Hk. lia.
      * apply H5.
    + intros x Hx. change (is_Some (heap w1 !! x)).
      unfold w1. apply allocated_alter. cbn.
      destruct (decide (l = x)) as [->|Hne]; [rewrite lookup_insert_eq; by eexists|].
      rewrite lookup_insert_ne by done. apply H6. exact Hx.
    + intros x. change (notified w1 x ≤ 1)%nat. rewrite Hn.
      case_decide; [lia|apply H7].
    + intros k x Hk. change (notified w1 x = 0%nat). rewrite Hn.
      case_decide; [done|].
      destruct (decide (s = k)) as [<-|Hne].
      * rewrite lookup_insert_eq in Hk. congruence.
      * rewrite lookup_insert_ne in Hk by done.
        rewrite (H8 k x Hk), Hshut. done.
    + intros x k.
      change (seqOf w1 x = Some k → notified w1 x = 0%nat →
              <[s:=l]> (pending (client w)) !! k = Some x
              ∨ EvCancel x ∈ evs ++ [EvGo l sm args dn]).
      rewrite Hseq, Hn. case_decide as Hx.
      * subst x. intros [= <-] _. left. by rewrite lookup_insert_eq.
      * intros Hk Hx0. destruct (H9 x k Hk Hx0) as [Hp|?].
        -- left. rewrite lookup_insert_ne; [done|].
           intros <-. apply H4 in Hk. fold s in Hk. lia.
        -- right. apply elem_of_app. by left.
    + done.
    + done.
Qed.

End ClientGo.

Section ClientTerminate.
Import Client.
Local Open Scope N_scope.

(** *** Shutdown *)

(** The loop of [terminateCalls] over the entries [es]. *)
Lemma terminate_loop err (es : list (N * loc)) : ∀ w,
  (∀ e, e ∈ es → is_Some (heap w !! e.2)) →
  let w' := foldl (λ w e, done e.2 (setError e.2 (Some err) w)) w es in
  client w' = client w ∧ sender w' = sender w ∧ recv w' = recv w
  ∧ (∀ x, seqOf w' x = seqOf w x)
  ∧ (∀ x, is_Some (heap w' !! x) ↔ is_Some (heap w !! x))
  ∧ (∀ x, notified w' x
          = (notified w x + List.length (filter (λ e, e.2 = x) es))%nat)
  ∧ (∀ x, logged w' x → logged w x ∨ ∃ e, e ∈ es ∧ e.2 = x).
Proof.
  induction es as [|e es IH]; intros w Hes; cbn [foldl].
  - cbv zeta. split_and!; try done. intros. by left.
  - set (w1 := done e.2 (setError e.2 (Some err) w)).
    assert (∀ x, is_Some (heap w1 !! x) ↔ is_Some (heap w !! x)) as Hal.
    { intros x. unfold w1. rewrite heap_done. apply allocated_alter. }
    destruct (IH w1) as (Hc & Hs & Hr & Hq & Ha & Hn & Hlog).
    { intros e' He'. apply Hal. apply Hes. by right. }
    cbv zeta. split_and!.
    + rewrite Hc. unfold w1. by rewrite client_done.
    + rewrite Hs. unfold w1. by rewrite sender_done.
    + rewrite Hr. unfold w1. by rewrite recv_done.
    + intros x. rewrite Hq. unfold w1. by rewrite seqOf_done, seqOf_setError.
    + intros x. by rewrite Ha, Hal.
    + intros x. rewrite Hn. unfold w1.
      rewrite notified_done_allocated, notified_setError.
      * destruct (decide (e.2 = x)) as [Hx|Hx].
        -- rewrite filter_cons_True by done. simpl. lia.
        -- rewrite filter_cons_False by done. lia.
      * apply allocated_alter. apply Hes. by left.
    + intros x Hx. destruct (Hlog x Hx) as [Hx1|(e' & He' & <-)].
      * unfold w1 in Hx1. apply logged_done in Hx1 as [Hx1|[-> _]].
        -- left. exact Hx1.
        -- right. exists e. split; [by left|done].
      * right. exists e'. split; [by right|done].
Qed.

Lemma NoDup_all_equal {A} (l : list A) a :
  NoDup l → (∀ x, x ∈ l → x = a) → (List.length l ≤ 1)%nat.
Proof.
  intros Hnd Hall. destruct l as [|x [|y l]]; simpl; [lia|lia|].
  exfalso. apply NoDup_cons in Hnd as [Hx _]. apply Hx.
  rewrite (Hall x) by left. rewrite (Hall y) by (right; left). by left.
Qed.

Lemma pending_values (m : gmap N loc) x :
  x ∈ (map_to_list m).*2 ↔ ∃ k, m !! k = Some x.
Proof.
  rewrite list_elem_of_fmap. split.
  - intros ([k x'] & -> & Hk). exists k. by apply elem_of_map_to_list.
  - intros [k Hk]. exists (k, x). split; [done|]. by apply elem_of_map_to_list.
Qed.

(** Each call of the table is met once by the loop. *)
Lemma pending_count evs w x :
  client_inv evs w →
  List.length (filter (λ e : N * loc, e.2 = x) (map_to_list (pending (client w))))
  = if decide (x ∈ (map_to_list (pending (client w))).*2) then 1%nat else 0%nat.
Proof.
  intros Hinv. case_decide as Hx.
  - apply pending_values in Hx as [k Hk].
    assert ((k, x) ∈ filter (λ e : N * loc, e.2 = x)
                        (map_to_list (pending (client w)))) as Hin.
    { apply list_elem_of_filter. split; [done|]. by apply elem_of_map_to_list. }
    assert (List.length (filter (λ e : N * loc, e.2 = x)
                           (map_to_list (pending (client w)))) ≤ 1)%nat as Hle.
    { apply (NoDup_all_equal _ (k, x)).
      - apply NoDup_filter, NoDup_map_to_list.
      - intros [k' x'] [Hx' Hk']%list_elem_of_filter. simpl in Hx'. subst x'.
        apply elem_of_map_to_list in Hk'.
        destruct (inv_pend_key _ _ Hinv _ _ Hk) as [_ H1].
        destruct (inv_pend_key _ _ Hinv _ _ Hk') as [_ H2].
        congruence. }
    destruct (filter _ _) as [|? ?]; [by apply elem_of_nil in Hin|].
    simpl in *. lia.
  - destruct (filter _ _) as [|[k x'] ?] eqn:Hf; [done|].
    exfalso. apply Hx. apply pending_values. exists k.
    assert ((k, x') ∈ filter (λ e : N * loc, e.2 = x)
                         (map_to_list (pending (client w)))) as Hin.
    { rewrite Hf. by left. }
    apply list_elem_of_filter in Hin as [Hx' Hk]. simpl in Hx'. subst x'.
    by apply elem_of_map_to_list.
Qed.

Lemma step_inv_Terminate evs w err :
  client_inv evs w → recv w = Failed err → sender w = None →
  client_inv (evs ++ [EvTerminate]) (setRecv Exited (terminateCalls err w)).
Proof.
  intros Hinv Hr Hsd.
  assert (shutdown (client w) = false) as Hsh.
  { apply (not_shutdown_of_recv evs); [done|]. by rewrite Hr. }
  pose proof Hinv as [H1 H2 H3 H4 H5 H6 H7 H8 H9 H10 H11].
  unfold terminateCalls.
  set (c1 := {| header := header (client w); pending := pending (client w);
                seq := seq (client w); closing := closing (client w);
                shutdown := true |}).
  set (w1 := setClient c1 w).
  destruct (terminate_loop err (map_to_list (pending (client w))) w1)
    as (Hc & Hs & _ & Hq & Ha & Hn & Hlog).
  { intros [k x] Hk. apply elem_of_map_to_list in Hk. simpl.
    change (heap w1) with (heap w). apply allocated_seqOf.
    destruct (H3 k x Hk) as [_ ->]. by eexists. }
  set (w2 := foldl (λ w e, done e.2 (setError e.2 (Some err) w)) w1
               (map_to_list (pending (client w)))) in *.
  assert (∀ x, notified w2 x
    = (notified w x
       + if decide (x ∈ (map_to_list (pending (client w))).*2) then 1 else 0)%nat)
    as Hn'.
  { intros x. rewrite Hn. by rewrite (pending_count evs). }
  split; cbn; rewrite ?Hc; cbn.
  - done.
  - rewrite length_snoc_N. lia.
  - intros k x Hk. change (1 ≤ k ∧ seqOf w2 x = Some k). rewrite Hq. by apply H3.
  - intros x k. change (seqOf w2 x = Some k → k < seq (client w)).
    rewrite Hq. apply H4.
  - intros l1 l2 k.
    change (seqOf w2 l1 = Some k → seqOf w2 l2 = Some k → k ≠ 0 → l1 = l2).
    rewrite !Hq. apply H5.
  - intros x Hx. change (is_Some (heap w2 !! x)). apply Ha.
    change (heap w1) with (heap w).
    assert (logged w2 x) as Hx2 by exact Hx.
    destruct (Hlog x Hx2) as [Hx1|([k x'] & Hk & <-)].
    + by apply H6.
    + apply elem_of_map_to_list in Hk. simpl. apply allocated_seqOf.
      destruct (H3 k x' Hk) as [_ ->]. by eexists.
  - intros x. change (notified w2 x ≤ 1)%nat. rewrite Hn'.
    change (notified w1 x) with (notified w x). case_decide as Hx.
    + apply pending_values in Hx as [k Hk]. rewrite (H8 k x Hk), Hsh. lia.
    + specialize (H7 x). lia.
  - intros k x Hk. change (notified w2 x = 1%nat). rewrite Hn'.
    rewrite decide_True by (apply pending_values; by exists k).
    change (notified w1 x) with (notified w x).
    rewrite (H8 k x Hk), Hsh. done.
  - intros x k.
    change (seqOf w2 x = Some k → notified w2 x = 0%nat →
            pending (client w) !! k = Some x ∨ EvCancel x ∈ evs ++ [EvTerminate]).
    rewrite Hq, Hn'. intros Hk Hx0. case_decide as Hx; [lia|].
    rewrite Nat.add_0_r in Hx0.
    destruct (H9 x k Hk Hx0) as [?|?]; [by left|right].
    apply elem_of_app. by left.
  - intros x s. change (sender w2 = Some (x, s) → true = true → s = 0).
    rewrite Hs. change (sender w1) with (sender w). by rewrite Hsd.
  - done.
Qed.

End ClientTerminate.

Section ClientClaims.
Import Client.
Local Open Scope N_scope.

Lemma client_inv_newWorld : client_inv [] newWorld.
Proof.
  split; cbn; try done.
  - intros l [ch Hch]. cbn in Hch. rewrite lookup_empty in Hch.
    by apply elem_of_nil in Hch.
  - intros l. unfold notified. cbn. rewrite lookup_empty. lia.
Qed.

Lemma step_inv evs ev w w' :
  client_inv evs w →
  N.of_nat (List.length (evs ++ [ev])) < uint64_max →
  step ev w = Some w' →
  client_inv (evs ++ [ev]) w'.
Proof.
  intros Hinv Hlen Hstep. destruct ev as [l sm args dn|err|h body bodyErr|err| |l|];
    cbn in Hstep.
  - destruct (heap w !! l) eqn:Hl; [done|].
    destruct (sender w) eqn:Hsd; [done|]. injection Hstep as <-.
    by apply step_inv_Go.
  - destruct (sender w) as [[l s]|] eqn:Hsd; [|done]. injection Hstep as <-.
    by apply (step_inv_Write evs w l).
  - destruct (recv w) eqn:Hr; try done. injection Hstep as <-.
    by apply step_inv_Header.
  - destruct (recv w) eqn:Hr; try done. injection Hstep as <-.
    by apply step_inv_HeaderErr.
  - destruct (recv w) as [|err|] eqn:Hr; try done.
    destruct (sender w) eqn:Hsd; [done|]. injection Hstep as <-.
    by apply step_inv_Terminate.
  - destruct (heap w !! l) as [c|] eqn:Hl; [|done]. injection Hstep as <-.
    by apply step_inv_Cancel.
  - injection Hstep as <-. by apply step_inv_Close.
Qed.

Lemma run_snoc evs ev w w' :
  run (evs ++ [ev]) w = Some w' ↔ ∃ w1, run evs w = Some w1 ∧ step ev w1 = Some w'.
Proof.
  revert w. induction evs as [|e evs IH]; intros w; cbn.
  - split.
    + intros H. exists w. split; [done|]. by destruct (step ev w).
    + intros (w1 & [= <-] & ->). done.
  - destruct (step e w) as [w1|]; [apply IH|].
    split; [done|]. by intros (w1 & ? & _).
Qed.

Lemma run_inv evs : ∀ w,
  run evs newWorld = Some w →
  N.of_nat (List.length evs) < uint64_max →
  client_inv evs w.
Proof.
  induction evs as [|ev evs IH] using rev_ind; intros w Hrun Hlen.
  - injection Hrun as <-. apply client_inv_newWorld.
  - apply run_snoc in Hrun as (w1 & Hrun & Hstep).
    apply (step_inv evs ev w1); [|done|done].
    apply IH; [done|]. rewrite length_snoc_N in Hlen. lia.
Qed.



(** C8 (amended for the wrap-around of [seq]). [registerCall]: on a client
    that is closing or shut down it returns [(0, ErrShutdown)] and changes
    nothing; otherwise it returns the current [seq], writes it to the
    call, puts the call in the table under it, and sets [seq] to
    [seq + 1] modulo 2^64, which is [seq + 1], greater than the number
    just assigned, unless [seq] was 2^64 - 1. *)
Theorem registerCall_spec l w :
  (closing (client w) || shutdown (client w) = true →
     registerCall l w = ((0, Some ErrShutdown), w))
  ∧ (closing (client w) || shutdown (client w) = false →
     (registerCall l w).1 = (seq (client w), None)
     ∧ pending (client (registerCall l w).2)
       = <[seq (client w) := l]> (pending (client w))
     ∧ seq (client (registerCall l w).2) = (seq (client w) + 1) mod 2 ^ 64
     ∧ closing (client (registerCall l w).2) = false
     ∧ shutdown (client (registerCall l w).2) = false
     ∧ (is_Some (heap w !! l) →
          seqOf (registerCall l w).2 l = Some (seq (client w)))
     ∧ (seq (client w) < uint64_max →
          seq (client (registerCall l w).2) = seq (client w) + 1
          ∧ seq (client w) < seq (client (registerCall l w).2))).
Proof.
  unfold registerCall. split.
  - by intros ->.
  - intros Hflags. rewrite Hflags. cbn.
    apply orb_false_iff in Hflags as [Hc Hs].
    split_and!; try done.
    + intros Hl. change (seqOf (setSeq l (seq (client w)) w) l = Some (seq (client w))).
      rewrite seqOf_setSeq, decide_True by done.
      apply allocated_seqOf in Hl as [k ->]. done.
    + intros Hlt. unfold uint64_max, uint64_modulus in Hlt.
      unfold wrap64, uint64_modulus. rewrite N.mod_small by lia. lia.
Qed.

End ClientClaims.

(** *** Concrete runs *)


(** Each way to complete named by the claim, run from a new client. *)

Example notified_sample_run :
  Client.notifiedAfter Client.sampleRun 0%nat = Some 1%nat
  ∧ Client.notifiedAfter Client.sampleRun 1%nat = Some 1%nat.
Proof. split; vm_compute; reflexivity. Qed.

Example notified_registration_failure :
  Client.notifiedAfter
    [Client.EvClose; Client.EvGo 0%nat "Foo.Sum" "{1,2}" 7%nat;
     Client.EvWrite (Some "use of closed network connection");
     Client.EvHeaderErr "use of closed network connection";
     Client.EvTerminate] 0%nat = Some 1%nat.
Proof. vm_compute. reflexivity. Qed.

Example notified_write_failure :
  Client.notifiedAfter
    [Client.EvGo 0%nat "Foo.Sum" "{1,2}" 7%nat;
     Client.EvWrite (Some "broken pipe");
     Client.EvHeaderErr "EOF"; Client.EvTerminate] 0%nat = Some 1%nat.
Proof. vm_compute. reflexivity. Qed.

Example notified_server_error :
  Client.notifiedAfter
    [Client.EvGo 0%nat "Foo.Missing" "{1,2}" 7%nat; Client.EvWrite None;
     Client.EvHeader
       (Codec.mkHeader "Foo.Missing" 1 "rpc server: can't find method Missing")
       "" None;
     Client.EvHeaderErr "EOF"; Client.EvTerminate] 0%nat = Some 1%nat.
Proof. vm_compute. reflexivity. Qed.

Example notified_decode_failure :
  Client.notifiedAfter
    [Client.EvGo 0%nat "Foo.Sum" "{1,2}" 7%nat; Client.EvWrite None;
     Client.EvHeader (Codec.mkHeader "Foo.Sum" 1 "") "" (Some "bad body");
     Client.EvTerminate] 0%nat = Some 1%nat.
Proof. vm_compute. reflexivity. Qed.

Example not_notified_after_cancel :
  Client.notifiedAfter
    [Client.EvGo 0%nat "Foo.Sleep" "{3,0}" 7%nat; Client.EvWrite None;
     Client.EvCancel 0%nat;
     Client.EvHeader (Codec.mkHeader "Foo.Sleep" 1 "") "3" None;
     Client.EvHeaderErr "EOF"; Client.EvTerminate] 0%nat = Some 0%nat.
Proof. vm_compute. reflexivity. Qed.


Example parseOptions_overrides_magic :
  Client.parseOptions [Some (Client.mkOption 42 "" 7 9)]
  = Client.OK (Client.mkOption Client.MagicNumber Codec.GobType 7 9).
Proof. reflexivity. Qed.

(** C8 as stated fails: on a client whose counter is 2^64 - 1,
    [registerCall] succeeds and the counter becomes 0. *)
Lemma registerCall_seq_wraps :
  ¬ (∀ (l : Client.loc) (w : Client.World),
       Client.closing (Client.client w) || Client.shutdown (Client.client w) = false →
       Client.seq (Client.client (Client.registerCall l w).2)
       = (Client.seq (Client.client w) + 1)%N).
Proof.
  intros H. specialize (H 0%nat Client.lastSeqWorld eq_refl).
  vm_compute in H. discriminate H.
Qed.

Example registerCall_at_last_seq :
  (Client.registerCall 0%nat Client.lastSeqWorld).1 = (18446744073709551615%N, None)
  ∧ Client.seq (Client.client (Client.registerCall 0%nat Client.lastSeqWorld).2) = 0%N.
Proof. split; vm_compute; reflexivity. Qed.

Example registerCall_new_client :
  (Client.registerCall 0%nat
     (Client.setHeap {[ 0%nat := Client.mkCall 0 "Foo.Sum" "{1,2}" "" None 7%nat ]}
        Client.newWorld)).1 = (1%N, None).
Proof. reflexivity. Qed.

(** ** The server *)

Section ServerFacts.
Import GoLib Server.

(** *** Splitting at the last dot *)

Lemma LastIndexDot_None s : LastIndexDot s = None ↔ containsDot s = false.
Proof.
  induction s as [|c s IH]; simpl; [done|].
  destruct (LastIndexDot s) as [i|].
  - split; [done|]. intros H. apply orb_false_iff in H as [_ H].
    apply IH in H. done.
  - destruct (Ascii.eqb c ".") eqn:Hc; simpl; [done|]. by rewrite <- IH.
Qed.

Lemma LastIndexDot_trailing p :
  LastIndexDot (p ++ ".")%string = Some (String.length p).
Proof.
  induction p as [|c p IH]; simpl; [done|]. by rewrite IH.
Qed.

Lemma prefix_to_app p q : prefix_to (String.length p) (p ++ q)%string = p.
Proof. induction p as [|c p IH]; simpl; [by destruct q|]. by rewrite IH. Qed.

Lemma suffix_from_app p q : suffix_from (String.length p) (p ++ q)%string = q.
Proof. induction p as [|c p IH]; simpl; [done|]. by rewrite IH. Qed.

Lemma suffix_from_trailing p :
  suffix_from (String.length p + 1) (p ++ ".")%string = ""%string.
Proof. induction p as [|c p IH]; simpl; [done|]. by rewrite IH. Qed.

Lemma LastIndexDot_leading m :
  containsDot m = false → LastIndexDot ("." ++ m)%string = Some 0%nat.
Proof.
  intros H. apply LastIndexDot_None in H.
  change ("." ++ m)%string with (String "."%char m).
  change (LastIndexDot (String "."%char m))
    with (match LastIndexDot m with
          | Some i => Some (S i)
          | None => if Ascii.eqb "." "." then Some 0%nat else None
          end).
  by rewrite H.
Qed.

(** *** Names in the tables are exported, hence not empty *)

Lemma registerMethod_exported m f k :
  (∀ k, is_Some (m !! k) → IsExported k = true) →
  is_Some (registerMethod m f !! k) → IsExported k = true.
Proof.
  intros Hm. unfold registerMethod.
  destruct (IsExported (Name f)) eqn:Hf; simpl; [|apply Hm].
  repeat (match goal with |- context [if ?b then _ else _] => destruct b end;
          simpl; try apply Hm).
  destruct (decide (Name f = k)) as [<-|Hne]; [done|].
  rewrite lookup_insert_ne by done. apply Hm.
Qed.

Lemma registerMethods_exported r k :
  is_Some (registerMethods r !! k) → IsExported k = true.
Proof.
  unfold registerMethods.
  assert (∀ k, is_Some ((∅ : gmap string methodType) !! k) → IsExported k = true)
    as H0.
  { intros k' [x Hx]. by rewrite lookup_empty in Hx. }
  revert k. generalize dependent (∅ : gmap string methodType).
  induction (Methods r) as [|f fs IH]; intros m Hm k; simpl; [apply Hm|].
  apply IH. intros k'. by apply registerMethod_exported.
Qed.

(** Every service is under its own name, an exported one, and so are its
    methods. *)
Lemma reachable_exported server :
  reachable server →
  ∀ k svc, serviceMap server !! k = Some svc →
    IsExported k = true ∧ ∀ m, is_Some (methods svc !! m) → IsExported m = true.
Proof.
  induction 1 as [|r server err server' _ IH Hreg]; intros k svc Hk.
  - unfold NewServer in Hk. cbn [serviceMap] in Hk.
    by rewrite lookup_empty in Hk.
  - unfold Register, newService in Hreg.
    destruct (IsExported (TypeName r)) eqn:Hexp; simpl in Hreg; [|done].
    destruct (serviceMap server !! TypeName r) eqn:Hdup.
    + injection Hreg as _ <-. by apply IH.
    + injection Hreg as _ <-. simpl in Hk.
      destruct (decide (TypeName r = k)) as [<-|Hne].
      * rewrite lookup_insert_eq in Hk. injection Hk as <-. simpl.
        split; [done|]. intros m. apply registerMethods_exported.
      * rewrite lookup_insert_ne in Hk by done. by apply IH.
Qed.

Lemma reachable_no_empty_service server :
  reachable server → serviceMap server !! ""%string = None.
Proof.
  intros Hr. destruct (serviceMap server !! ""%string) as [svc|] eqn:Hk; [|done].
  by destruct (reachable_exported server Hr _ _ Hk) as [? _].
Qed.

Lemma reachable_no_empty_method server k svc :
  reachable server → serviceMap server !! k = Some svc →
  methods svc !! ""%string = None.
Proof.
  intros Hr Hk. destruct (methods svc !! ""%string) as [m|] eqn:Hm; [|done].
  destruct (reachable_exported server Hr _ _ Hk) as [_ H].
  by specialize (H ""%string (ex_intro _ m Hm)).
Qed.

End ServerFacts.

Section ServerClaims.
Import GoLib Server.

(** C10 (amended). [findService]: on every server built by [NewServer] and
    [Register], the error is the ill-formed one exactly when the string
    has no dot; a string [p ++ "."] is split into the service [p] and the
    empty method name, and gives the error of the missing method (and the
    service) when [p] is registered, the error of the missing service [p]
    when it is not; a string ["." ++ m] with no other dot is split into
    the empty service name and [m] and gives the error of the missing
    service. *)
Theorem findService_spec server :
  reachable server →
  (∀ s, (findService server s).2
        = Some ("rpc server: server/method request ill-formed: " ++ s)%string
        ↔ containsDot s = false)
  ∧ (∀ p svc, serviceMap server !! p = Some svc →
       findService server (p ++ ".")%string
       = (Some svc, None, Some "rpc server: can't find method "%string))
  ∧ (∀ p, serviceMap server !! p = None →
       findService server (p ++ ".")%string
       = (None, None, Some ("rpc server: can't find service " ++ p)%string))
  ∧ (∀ m, containsDot m = false →
       findService server ("." ++ m)%string
       = (None, None, Some "rpc server: can't find service "%string)).
Proof.
  intros Hr. split_and!.
  - intros s. unfold findService. rewrite <- LastIndexDot_None.
    destruct (LastIndexDot s) as [dot|]; [|done].
    split; [|done]. intros H. exfalso.
    destruct (serviceMap server !! prefix_to dot s) as [svc|].
    + destruct (methods svc !! suffix_from (dot + 1) s); simpl in H;
        [done|]. injection H as H. discriminate H.
    + simpl in H. injection H as H. discriminate H.
  - intros p svc Hp. unfold findService.
    rewrite LastIndexDot_trailing, prefix_to_app, suffix_from_trailing, Hp.
    by rewrite (reachable_no_empty_method server p svc).
  - intros p Hp. unfold findService.
    by rewrite LastIndexDot_trailing, prefix_to_app, Hp.
  - intros m Hm. unfold findService.
    rewrite LastIndexDot_leading by done. cbn [prefix_to].
    by rewrite reachable_no_empty_service.
Qed.

(** C6 (amended). The HTTP handshake: the client writes
    [CONNECT /_myrpc_ HTTP/1.0] followed by two line feeds and, on the
    status [200 Connected to MyRPC], goes on with the negotiation of
    options; the server answers a CONNECT with
    [HTTP/1.0 200 Connected to MyRPC] followed by two line feeds on the
    hijacked connection and then serves it; to any other method it
    answers 405 with a plain-text body [405 must CONNECT] and one line
    feed. *)
Theorem HTTP_handshake_spec :
  NewHTTPClient (inl connected)
  = [ ClientWrite ("CONNECT " ++ defaultRPCPath ++ " HTTP/1.0" ++ LF ++ LF)%string;
      NewClient ]
  ∧ ServeHTTP "CONNECT" true
    = [ Hijack;
        ConnWrite ("HTTP/1.0 200 Connected to MyRPC" ++ LF ++ LF)%string;
        ServerConn ]
  ∧ (∀ reqMethod hijackOk, reqMethod ≠ "CONNECT"%string →
       ServeHTTP reqMethod hijackOk
       = [ SetHeader "Content-Type" "text/plain; charset=utf-8";
           WriteHeader 405;
           WriteBody ("405 must CONNECT" ++ LF)%string ]).
Proof.
  split_and!; [done|done|].
  intros reqMethod hijackOk Hne. unfold ServeHTTP.
  destruct (String.eqb_spec reqMethod "CONNECT"); [done|done].
Qed.

End ServerClaims.

(** A server with the service [Foo] and its method [Sum]. *)
Lemma findService_spec_witness :
  Server.reachable
    {| Server.serviceMap :=
         {[ "Foo" :=
              {| Server.name := "Foo";
                 Server.rcvr :=
                   Server.mkReceiver "Foo" [Server.mkMethod "Sum" 3 1 true true true];
                 Server.methods :=
                   {[ "Sum" := Server.mkMethodType
                                 (Server.mkMethod "Sum" 3 1 true true true) 0 ]} |} ]} |}
  ∧ Server.findService
      {| Server.serviceMap :=
           {[ "Foo" :=
                {| Server.name := "Foo";
                   Server.rcvr :=
                     Server.mkReceiver "Foo" [Server.mkMethod "Sum" 3 1 true true true];
                   Server.methods :=
                     {[ "Sum" := Server.mkMethodType
                                   (Server.mkMethod "Sum" 3 1 true true true) 0 ]} |} ]} |}
      (".Sum")%string
    = (None, None, Some "rpc server: can't find service "%string).
Proof.
  assert (Server.reachable
    {| Server.serviceMap :=
         {[ "Foo" :=
              {| Server.name := "Foo";
                 Server.rcvr :=
                   Server.mkReceiver "Foo" [Server.mkMethod "Sum" 3 1 true true true];
                 Server.methods :=
                   {[ "Sum" := Server.mkMethodType
                                 (Server.mkMethod "Sum" 3 1 true true true) 0 ]} |} ]} |})
    as Hr.
  { apply (Server.reachable_Register
             (Server.mkReceiver "Foo" [Server.mkMethod "Sum" 3 1 true true true])
             Server.NewServer None); [constructor|].
    vm_compute. reflexivity. }
  split; [exact Hr|].
  apply (findService_spec _ Hr). reflexivity.
Defined.

Example findService_found :
  (Server.findService
     {| Server.serviceMap :=
          {[ "Foo" :=
               {| Server.name := "Foo";
                  Server.rcvr := Server.mkReceiver "Foo" [];
                  Server.methods :=
                    {[ "Sum" := Server.mkMethodType
                                  (Server.mkMethod "Sum" 3 1 true true true) 0 ]} |} ]} |}
     "Foo.Sum").2 = None.
Proof. vm_compute. reflexivity. Qed.

(** C10 as stated fails: on a server without services, ["Foo."] fails
    with the error of the missing service, not with that of the missing
    method. *)
Lemma findService_trailing_dot_unregistered :
  Server.findService Server.NewServer "Foo."
  = (None, None, Some "rpc server: can't find service Foo")
  ∧ (Server.findService Server.NewServer "Foo.").2
    ≠ Some "rpc server: can't find method ".
Proof. split; [reflexivity|]. vm_compute. discriminate. Qed.

(** C6 as stated fails: the bytes written by the client and by the server
    end in two line feeds, with no carriage return. *)
Lemma HTTP_handshake_no_carriage_return :
  Server.NewHTTPClient (inl Server.connected)
  ≠ [ Server.ClientWrite
        ("CONNECT /_myrpc_ HTTP/1.0" ++ GoLib.CR ++ GoLib.LF ++ GoLib.CR ++ GoLib.LF)%string;
      Server.NewClient ]
  ∧ Server.ServeHTTP "CONNECT" true
    ≠ [ Server.Hijack;
        Server.ConnWrite
          ("HTTP/1.0 200 Connected to MyRPC"
           ++ GoLib.CR ++ GoLib.LF ++ GoLib.CR ++ GoLib.LF)%string;
        Server.ServerConn ].
Proof. split; vm_compute; discriminate. Qed.

(** *** The handle timeout *)

Section HandleTimeout.
Import Server.

(** When the timer expires first, the waiting goroutine writes the
    timeout error for the request; when the method returns afterwards,
    its goroutine writes a second response under the same sequence
    number. *)
Lemma handleRequest_timeout_then_return durationString timeout h err reply :
  timeout ≠ 0%Z →
  ∃ r1 r2,
    handleRequest durationString timeout h
      [TimerExpires; SelectWakes; MethodReturns err reply] = Some [r1; r2]
    ∧ r1 = (Codec.mkHeader (Codec.ServiceMethod h) (Codec.Seq h)
              (timeoutError durationString timeout), invalidRequest)
    ∧ Codec.Seq r2.1 = Codec.Seq h.
Proof.
  intros Ht. unfold handleRequest. cbn.
  destruct (Z.eqb_spec timeout 0) as [?|_]; [done|]. cbn.
  destruct err as [e|]; cbn; eauto.
Qed.

End HandleTimeout.

(** C1 (the code departs from it). With a handle timeout of one second, a
    method that returns its reply after the timer has expired: the
    timeout error is written for the request, and then the reply of the
    method is written as well, as a second response with the same [Seq]
    (carrying the timeout text in its header, which the two goroutines
    share). *)
Theorem handleRequest_late_response_written :
  Server.handleRequest Server.secondsString 1000000000
    (Codec.mkHeader "Foo.Sleep" 7 "")
    [Server.TimerExpires; Server.SelectWakes; Server.MethodReturns None "3"]
  = Some
      [ (Codec.mkHeader "Foo.Sleep" 7
           "rpc server: request handle timeout: expect within 1s",
         Server.invalidRequest);
        (Codec.mkHeader "Foo.Sleep" 7
           "rpc server: request handle timeout: expect within 1s",
         Server.replyBody "3") ].
Proof. vm_compute. reflexivity. Qed.

(** The same happens without any expiry: the [cancel] of the method's
    goroutine also ends the wait, and the timeout error follows the
    reply. *)
Example handleRequest_in_time_also_writes_timeout :
  Server.handleRequest Server.secondsString 1000000000
    (Codec.mkHeader "Foo.Sum" 7 "")
    [Server.MethodReturns None "5"; Server.SelectWakes]
  = Some
      [ (Codec.mkHeader "Foo.Sum" 7 "", Server.replyBody "5");
        (Codec.mkHeader "Foo.Sum" 7
           "rpc server: request handle timeout: expect within 1s",
         Server.invalidRequest) ].
Proof. vm_compute. reflexivity. Qed.

(** Without a timeout a reply is written once. *)
Example handleRequest_no_timeout :
  Server.handleRequest Server.secondsString 0
    (Codec.mkHeader "Foo.Sum" 7 "")
    [Server.MethodReturns None "5"; Server.SelectWakes]
  = Some [ (Codec.mkHeader "Foo.Sum" 7 "", Server.replyBody "5") ].
Proof. vm_compute. reflexivity. Qed.

(** ** The balancing client *)

Section BroadcastFacts.
Import XClient.

Lemma fold_error (eps : list endpoint) : ∀ st,
  e (foldl endpointDone st eps)
  = match e st with
    | Some x => Some x
    | None => firstError (outcomes st eps)
    end.
Proof.
  induction eps as [|ep eps IH]; intros st; cbn [foldl outcomes firstError].
  - by destruct (e st).
  - rewrite IH. unfold endpointDone.
    destruct (callResult st ep) as [v|err]; cbn [firstError].
    + by destruct (negb (replyDone st)).
    + destruct (e st) eqn:He; cbn; by rewrite ?He.
Qed.

Lemma fold_reply (eps : list endpoint) : ∀ st,
  reply (foldl endpointDone st eps)
  = if replyDone st then reply st
    else default (reply st) (firstReply (outcomes st eps)).
Proof.
  induction eps as [|ep eps IH]; intros st; cbn [foldl outcomes firstReply].
  - by destruct (replyDone st).
  - rewrite IH. unfold endpointDone.
    destruct (callResult st ep) as [v|err]; cbn [firstReply].
    + destruct (replyDone st) eqn:Hd; cbn; by rewrite ?Hd.
    + destruct (e st); cbn; by destruct (replyDone st).
Qed.

Lemma fold_cancelled (eps : list endpoint) : ∀ st,
  (cancelled st = true ↔ is_Some (e st)) →
  (cancelled (foldl endpointDone st eps) = true
   ↔ is_Some (e (foldl endpointDone st eps))).
Proof.
  induction eps as [|ep eps IH]; intros st Hst; cbn [foldl]; [done|].
  apply IH. unfold endpointDone.
  destruct (callResult st ep) as [v|err].
  - by destruct (negb (replyDone st)).
  - destruct (e st) eqn:He; [by rewrite He|]. cbn. split; [by eexists|done].
Qed.

Lemma outcomes_app (pre post : list endpoint) : ∀ st,
  outcomes st (pre ++ post)
  = outcomes st pre ++ outcomes (foldl endpointDone st pre) post.
Proof.
  induction pre as [|ep pre IH]; intros st; cbn [foldl outcomes app]; [done|].
  by rewrite IH.
Qed.

Lemma outcomes_length (eps : list endpoint) : ∀ st,
  List.length (outcomes st eps) = List.length eps.
Proof.
  induction eps as [|ep eps IH]; intros st; cbn; [done|]. by rewrite IH.
Qed.

Lemma firstError_None rs : firstError rs = None ↔ Forall succeeded rs.
Proof.
  induction rs as [|[v|err] rs IH]; cbn.
  - split; [constructor|done].
  - rewrite IH. split; [by constructor|by inversion 1].
  - split; [done|]. by inversion 1.
Qed.

End BroadcastFacts.

Section BroadcastClaims.
Import XClient.

(** C2 (amended). [Broadcast]: for every list of endpoints returned by
    [GetAll] and every non-nil [reply]: the caller's reply holds the
    reply of the first call that succeeds, if one does, and is left as it
    was otherwise; the returned error is the first error among the calls,
    so that it is nil exactly when every call succeeds, and non-nil when
    all of at least one call fail, or when some fail and others succeed;
    [cancel] is called exactly when a call fails, and every call that is
    still running after a failure returns the error of the cancelled
    context.  When [GetAll] fails its error is returned. *)
Theorem Broadcast_spec :
  (∀ eps v0,
     let r := Broadcast (inr eps) (Some v0) in
     let rs := broadcastOutcomes eps (Some v0) in
     callerReply r = Some (default v0 (firstReply rs))
     ∧ returnedError r = firstError rs
     ∧ (returnedError r = None ↔ Forall succeeded rs)
     ∧ (cancelCalled r = true ↔ is_Some (returnedError r))
     ∧ (∀ pre ep post, eps = pre ++ ep :: post →
          is_Some (firstError (broadcastOutcomes pre (Some v0))) →
          stillRunning ep = true →
          rs !! List.length pre = Some (inr ctxCanceled)))
  ∧ (∀ err reply0, returnedError (Broadcast (inl err) reply0) = Some err).
Proof.
  split; [|done]. intros eps v0 r rs. subst r rs.
  unfold Broadcast, broadcastOutcomes, callerReply, returnedError, cancelCalled.
  cbn [fst snd fmap option_fmap option_map].
  change (default ""%string (Some v0)) with v0.
  set (st0 := {| e := None; replyDone := false; reply := v0; cancelled := false |}).
  split_and!.
  - by rewrite fold_reply.
  - by rewrite fold_error.
  - rewrite fold_error. cbn. apply firstError_None.
  - apply fold_cancelled. cbn. split; [done|]. by intros [? ?].
  - intros pre ep post -> Hfail Hrun.
    change (default ""%string (Some v0)) with v0 in Hfail. fold st0 in Hfail.
    rewrite outcomes_app. rewrite lookup_app_r by (rewrite outcomes_length; lia).
    rewrite outcomes_length.
    rewrite Nat.sub_diag. cbn [outcomes lookup list_lookup]. f_equal.
    unfold callResult.
    assert (cancelled (foldl endpointDone st0 pre) = true) as ->.
    { apply fold_cancelled; [cbn; split; [done|by intros [? ?]]|].
      rewrite fold_error. cbn. exact Hfail. }
    by rewrite Hrun.
Qed.

End BroadcastClaims.

(** C2 as stated fails: one endpoint answers 7 and another fails; the
    caller gets the reply and the error. *)
Lemma Broadcast_success_and_error :
  ¬ (∀ eps v0,
       (∃ v, inl v ∈ XClient.broadcastOutcomes eps (Some v0)) →
       XClient.returnedError (XClient.Broadcast (inr eps) (Some v0)) = None).
Proof.
  intros H.
  specialize (H [XClient.mkEndpoint "tcp@a" (inl "7") false;
                 XClient.mkEndpoint "tcp@b" (inr "boom") false] "0").
  assert (∃ v : string,
            inl v ∈ XClient.broadcastOutcomes
                      [XClient.mkEndpoint "tcp@a" (inl "7") false;
                       XClient.mkEndpoint "tcp@b" (inr "boom") false] (Some "0"))
    as Hex.
  { exists "7". cbn. left. }
  specialize (H Hex). vm_compute in H. discriminate H.
Qed.

Example Broadcast_first_reply_then_error :
  XClient.Broadcast
    (inr [XClient.mkEndpoint "tcp@a" (inl "7") false;
          XClient.mkEndpoint "tcp@b" (inr "boom") false]) (Some "0")
  = (Some "boom", Some "7", true).
Proof. vm_compute. reflexivity. Qed.

(** The scenario of two servers of which one answers at once and the
    other runs into the deadline of the caller's context. *)
Example Broadcast_one_times_out :
  XClient.Broadcast
    (inr [XClient.mkEndpoint "tcp@fast" (inl "7") false;
          XClient.mkEndpoint "tcp@slow"
            (inr "rpc client: call failed: context deadline exceeded") false])
    (Some "0")
  = (Some "rpc client: call failed: context deadline exceeded", Some "7", true).
Proof. vm_compute. reflexivity. Qed.

Example Broadcast_all_succeed :
  XClient.Broadcast
    (inr [XClient.mkEndpoint "tcp@a" (inl "7") false;
          XClient.mkEndpoint "tcp@b" (inl "8") true]) (Some "0")
  = (None, Some "7", false).
Proof. vm_compute. reflexivity. Qed.

Example Broadcast_error_cancels_running :
  XClient.broadcastOutcomes
    [XClient.mkEndpoint "tcp@a" (inr "boom") false;
     XClient.mkEndpoint "tcp@b" (inl "8") true] (Some "0")
  = [inr "boom"; inr XClient.ctxCanceled].
Proof. vm_compute. reflexivity. Qed.

(** ** More on the hash ring *)

Section HashRingMore.
Import GoLib HashRing.
Local Open Scope N_scope.

(** Rings that were only added to: every entry of the slice is a key of
    the map, and every server of the map is one of [servers]. *)
Lemma addNodes_full (servers : list string) : ∀ hr (known : list string),
  (∀ k, k ∈ sortedNodes hr → is_Some (nodes hr !! k)) →
  (∀ k s, nodes hr !! k = Some s → s ∈ known) →
  (∀ s, s ∈ servers → s ∈ known) →
  (∀ k, k ∈ sortedNodes (addNodes servers hr)
        → is_Some (nodes (addNodes servers hr) !! k))
  ∧ (∀ k s, nodes (addNodes servers hr) !! k = Some s → s ∈ known).
Proof.
  unfold addNodes.
  induction servers as [|b bs IH]; intros hr known Hfull Hval Hsub; [done|].
  cbn [foldl]. apply IH.
  - intros k. rewrite AddNode_lookup. rewrite AddNode_fields. cbn [sortedNodes].
    rewrite sortSlice_Permutation, elem_of_app.
    case_decide as Hk; [by eexists|]. intros [Hin|Hin]; [by apply Hfull|done].
  - intros k s. rewrite AddNode_lookup. case_decide.
    + intros [= <-]. apply Hsub. by left.
    + apply Hval.
  - intros s Hs. apply Hsub. by right.
Qed.

Lemma addNodes_count (servers : list string) : ∀ hr,
  replicateCount (addNodes servers hr) = replicateCount hr.
Proof.
  unfold addNodes. induction servers as [|b bs IH]; intros hr; [done|].
  cbn [foldl]. rewrite IH. by rewrite AddNode_fields.
Qed.

Lemma GetNode_loop_on_slice hr h d l :
  GetNode_loop hr h d l = d ∨ ∃ n, n ∈ l ∧ GetNode_loop hr h d l = backend hr n.
Proof.
  destruct (GetNode_loop_spec hr h d l)
    as [(pre & n & post & -> & _ & _ & Hres)|[_ Hres]]; [right|by left].
  exists n. split; [|done]. apply elem_of_app. right. by left.
Qed.

(** X1. Every ring built by [New], [AddNode] and [removeNode] keeps its
    slice in ascending order, has every key of its map on the slice, maps
    a key to a server only if the key is one of the server's node hashes,
    and keeps the replica count it was made with. *)
Theorem HashRing_invariant count hr :
  reachable count hr →
  replicateCount hr = count
  ∧ StronglySorted N.le (sortedNodes hr)
  ∧ (∀ k s, nodes hr !! k = Some s →
       k ∈ sortedNodes hr
       ∧ ∃ i, (i < Z.to_nat count)%nat ∧ k = hashKey (Itoa i ++ s)%string).
Proof.
  intros Hreach. destruct (reachable_ring_inv _ _ Hreach) as [Hc Hs Hk Ho].
  split_and!; [done| |].
  - by apply (Sorted_StronglySorted N.le).
  - intros k s Hks. split; [apply Hk; by eexists|].
    specialize (Ho k s Hks). unfold ringKeys, replicas in Ho.
    apply list_elem_of_fmap in Ho as (i & -> & Hi%elem_of_seq).
    exists i. split; [lia|done].
Qed.

(** X2. After [removeNode b] no key of the map is mapped to [b], and a key
    mapped to another server stays mapped to it unless it is also one of
    the node hashes of [b]. *)
Theorem removeNode_removes_server count hr b :
  reachable count hr →
  (∀ k, nodes (removeNode b hr) !! k ≠ Some b)
  ∧ (∀ k s, nodes hr !! k = Some s → k ∉ ringKeys count b →
       nodes (removeNode b hr) !! k = Some s).
Proof.
  intros Hreach. destruct (reachable_ring_inv _ _ Hreach) as [Hc Hs Hk Ho].
  split.
  - intros k. rewrite removeNode_lookup, Hc. case_decide as Hin; [done|].
    intros Hkb. by apply Hin, Ho.
  - intros k s Hks Hnin. rewrite removeNode_lookup, Hc. by rewrite decide_False.
Qed.

(** X3. On every ring built through the API [GetNode] returns without
    running out of the slice, and what it returns is the empty string or
    a server of the map. *)
Theorem GetNode_safe count hr key :
  reachable count hr →
  ∃ s, GetNode key hr = Some s
       ∧ (s = ""%string ∨ ∃ k, nodes hr !! k = Some s).
Proof.
  intros Hreach. destruct (reachable_ring_inv _ _ Hreach) as [Hc Hs Hk Ho].
  unfold GetNode. case_decide as Hsz; [exists ""%string; by split; [|left]|].
  assert (nodes hr ≠ ∅) as Hne by (by rewrite <- map_size_empty_iff).
  apply map_choose in Hne as (k0 & x0 & Hk0).
  assert (k0 ∈ sortedNodes hr) as Hin by (apply Hk; by eexists).
  destruct (sortedNodes hr) as [|n0 rest] eqn:Hsl; [by apply elem_of_nil in Hin|].
  eexists. split; [done|].
  assert (∀ n, backend hr n = ""%string ∨ ∃ k, nodes hr !! k = Some (backend hr n))
    as Hback.
  { intros n. unfold backend. destruct (nodes hr !! n) eqn:Hn; [|by left].
    right. by exists n. }
  destruct (GetNode_loop_on_slice hr (hashKey key) (backend hr n0) (n0 :: rest))
    as [->|(n & _ & ->)]; apply Hback.
Qed.

(** X4. On a ring made by [New] from a non-empty list of servers with a
    positive replica count, [GetNode] returns one of these servers, for
    every key. *)
Theorem GetNode_New_member servers count key :
  (0 < count)%Z → servers ≠ [] →
  ∃ s, GetNode key (New servers count) = Some s ∧ s ∈ servers.
Proof.
  intros Hcount Hservers. unfold New.
  set (hr0 := {| replicateCount := count; nodes := ∅; sortedNodes := [] |}).
  destruct (addNodes_full servers hr0 servers) as [Hfull Hval].
  { intros k Hk. by apply elem_of_nil in Hk. }
  { intros k s Hk. unfold hr0 in Hk. cbn [nodes] in Hk.
    by rewrite lookup_empty in Hk. }
  { done. }
  set (hr := addNodes servers hr0) in *.
  assert (nodes hr ≠ ∅) as Hne.
  { destruct servers as [|b bs]; [done|]. unfold hr, addNodes. cbn [foldl].
    fold (addNodes bs (AddNode b hr0)).
    assert (is_Some (nodes (AddNode b hr0) !! nodeKey b 0%nat)) as Hb.
    { rewrite AddNode_lookup. rewrite decide_True; [by eexists|].
      unfold ringKeys, replicas. cbn [replicateCount hr0].
      apply list_elem_of_fmap. exists 0%nat. split; [done|].
      apply elem_of_seq. lia. }
    clear -Hb. revert Hb. generalize (AddNode b hr0). unfold addNodes.
    induction bs as [|c cs IH]; intros h Hb; cbn [foldl].
    - intros Hempty. rewrite Hempty, lookup_empty in Hb. by destruct Hb.
    - apply IH. rewrite AddNode_lookup. case_decide; [by eexists|done]. }
  unfold GetNode. rewrite decide_False by (by rewrite map_size_empty_iff).
  destruct (sortedNodes hr) as [|n0 rest] eqn:Hsl.
  - exfalso. apply map_choose in Hne as (k & x & Hkx).
    assert (reachable count hr) as Hr by apply reachable_New.
    destruct (reachable_ring_inv _ _ Hr) as [_ _ Hk _].
    assert (k ∈ sortedNodes hr) as Hin by (apply Hk; by eexists).
    rewrite Hsl in Hin. by apply elem_of_nil in Hin.
  - eexists. split; [done|].
    assert (∀ n, n ∈ n0 :: rest → backend hr n ∈ servers) as Hback.
    { intros n Hn. destruct (Hfull n Hn) as [s Hs].
      unfold backend. rewrite Hs. cbn. by apply (Hval n). }
    destruct (GetNode_loop_on_slice hr (hashKey key) (backend hr n0) (n0 :: rest))
      as [->|(n & Hn & ->)]; apply Hback; [by left|done].
Qed.

(** X5. [getIndexForKey] returns [(true, i)] with [i] the index of the
    first entry of the slice equal to the key, and [(false, -1)] exactly
    when the key is not on the slice. *)
Theorem getIndexForKey_spec hr key :
  (key ∉ sortedNodes hr → getIndexForKey hr key = (false, (-1)%Z))
  ∧ (key ∈ sortedNodes hr →
       ∃ i, getIndexForKey hr key = (true, Z.of_nat i)
            ∧ sortedNodes hr !! i = Some key
            ∧ ∀ j, (j < i)%nat → sortedNodes hr !! j ≠ Some key).
Proof.
  unfold getIndexForKey. split.
  - apply getIndexForKey_from_miss.
  - intros Hin. apply list_elem_of_split_l in Hin as (pre & post & -> & Hnin).
    exists (List.length pre). split_and!.
    + by rewrite getIndexForKey_from_hit.
    + by rewrite list_lookup_middle.
    + intros j Hj Hlook. apply Hnin.
      rewrite lookup_app_l in Hlook by done.
      by apply list_elem_of_lookup_2 in Hlook.
Qed.

(** X6. With a replica count that is zero or negative, [New] makes a ring
    with no node whatever the servers, and [GetNode] returns the empty
    string on it. *)
Theorem New_no_replicas servers count key :
  (count ≤ 0)%Z →
  New servers count = {| replicateCount := count; nodes := ∅; sortedNodes := [] |}
  ∧ GetNode key (New servers count) = Some ""%string.
Proof.
  intros Hcount.
  assert (New servers count
          = {| replicateCount := count; nodes := ∅; sortedNodes := [] |}) as ->.
  { unfold New, addNodes. induction servers as [|b bs IH]; [done|].
    cbn [foldl]. rewrite AddNode_fields. cbn [replicateCount nodes sortedNodes].
    unfold ringKeys, replicas. replace (Z.to_nat count) with 0%nat by lia.
    exact IH. }
  split; [done|]. unfold GetNode. cbn [nodes].
  by rewrite map_size_empty, decide_True.
Qed.

End HashRingMore.

Lemma HashRing_invariant_witness :
  HashRing.reachable 2 (HashRing.removeNode "a" (HashRing.New ["a"; "b"] 2))
  ∧ StronglySorted N.le
      (HashRing.sortedNodes (HashRing.removeNode "a" (HashRing.New ["a"; "b"] 2))).
Proof.
  assert (HashRing.reachable 2 (HashRing.removeNode "a" (HashRing.New ["a"; "b"] 2)))
    as H by (apply HashRing.reachable_removeNode, HashRing.reachable_New).
  split; [exact H|]. apply (HashRing_invariant 2 _ H).
Defined.

Lemma removeNode_removes_server_witness :
  HashRing.reachable 2 (HashRing.New ["a"; "b"] 2)
  ∧ HashRing.nodes (HashRing.removeNode "a" (HashRing.New ["a"; "b"] 2))
      !! 2754246082%N ≠ Some "a".
Proof.
  assert (HashRing.reachable 2 (HashRing.New ["a"; "b"] 2)) as H
    by apply HashRing.reachable_New.
  split; [exact H|]. apply (removeNode_removes_server 2 _ "a" H).
Defined.

Lemma GetNode_safe_witness :
  HashRing.reachable 2
    (HashRing.removeNode "a" (HashRing.AddNode "a" (HashRing.New ["a"; "b"] 2)))
  ∧ ∃ s, HashRing.GetNode "hello"
           (HashRing.removeNode "a" (HashRing.AddNode "a" (HashRing.New ["a"; "b"] 2)))
         = Some s
         ∧ (s = ""%string
            ∨ ∃ k, HashRing.nodes
                     (HashRing.removeNode "a"
                        (HashRing.AddNode "a" (HashRing.New ["a"; "b"] 2))) !! k
                   = Some s).
Proof.
  assert (HashRing.reachable 2
            (HashRing.removeNode "a" (HashRing.AddNode "a" (HashRing.New ["a"; "b"] 2))))
    as H by (apply HashRing.reachable_removeNode, HashRing.reachable_AddNode,
               HashRing.reachable_New).
  split; [exact H|]. apply (GetNode_safe 2 _ "hello" H).
Defined.

(** After ["a"] was added twice and removed once the slice still holds
    its hashes while the map does not: keys that fall before one of them
    get the empty string although ["b"] is on the ring. *)
Example GetNode_stale_entry :
  HashRing.GetNode "b"
    (HashRing.removeNode "a" (HashRing.AddNode "a" (HashRing.New ["a"; "b"] 2)))
  = Some ""%string.
Proof. vm_compute. reflexivity. Qed.

Lemma GetNode_New_member_witness :
  (0 < 2)%Z ∧ ["a"; "b"] ≠ ([] : list string)
  ∧ ∃ s, HashRing.GetNode "hello" (HashRing.New ["a"; "b"] 2) = Some s
         ∧ s ∈ ["a"; "b"].
Proof.
  assert (0 < 2)%Z as H1 by lia.
  assert (["a"; "b"] ≠ ([] : list string)) as H2 by discriminate.
  split_and!; [exact H1|exact H2|].
  apply (GetNode_New_member ["a"; "b"] 2 "hello" H1 H2).
Defined.

Lemma New_no_replicas_witness :
  (0 ≤ 0)%Z
  ∧ HashRing.GetNode "hello" (HashRing.New ["a"; "b"] 0) = Some ""%string.
Proof.
  assert (0 ≤ 0)%Z as H by lia.
  split; [exact H|]. apply (New_no_replicas ["a"; "b"] 0 "hello" H).
Defined.

(** ** More on the registry *)

Section RegistryMore.
Import GoLib Registry.
Local Open Scope Z_scope.

#[local] Existing Instance strLe_trans.
#[local] Existing Instance strLe_antisym.

Lemma alive_elem order now r addr :
  order ≡ₚ map_to_list (servers r) →
  addr ∈ (aliveServers_in order now r).1
  ↔ ∃ s, servers r !! addr = Some s ∧ aliveAt (timeout r) now s.
Proof.
  intros Hperm. rewrite aliveServers_in_fields. cbn [fst].
  rewrite sortStrings_Permutation, list_elem_of_fmap. split.
  - intros ([a s] & -> & [Hal Hmem]%list_elem_of_filter). exists s.
    split; [|done]. rewrite Hperm in Hmem. by apply elem_of_map_to_list.
  - intros (s & Hs & Hal). exists (addr, s). split; [done|].
    apply list_elem_of_filter. split; [done|].
    rewrite Hperm. by apply elem_of_map_to_list.
Qed.

Lemma alive_table order now r k :
  order ≡ₚ map_to_list (servers r) →
  servers (aliveServers_in order now r).2 !! k
  = match servers r !! k with
    | Some s => if decide (aliveAt (timeout r) now s) then Some s else None
    | None => None
    end.
Proof.
  intros Hperm. rewrite aliveServers_in_fields. cbn [snd servers].
  rewrite lookup_delete_keys. case_decide as Hdead.
  - apply list_elem_of_fmap in Hdead as ([a s] & -> & [Hd Hmem]%list_elem_of_filter).
    rewrite Hperm in Hmem. apply elem_of_map_to_list in Hmem. cbn [fst snd] in *.
    rewrite Hmem. by rewrite decide_False.
  - destruct (servers r !! k) as [s|] eqn:Hk; [|done].
    rewrite decide_True; [done|].
    destruct (decide (aliveAt (timeout r) now s)) as [|Hd]; [done|].
    exfalso. apply Hdead. apply list_elem_of_fmap. exists (k, s).
    split; [done|]. apply list_elem_of_filter. split; [done|].
    rewrite Hperm. by apply elem_of_map_to_list.
Qed.

Lemma alive_NoDup order now r :
  order ≡ₚ map_to_list (servers r) → NoDup (aliveServers_in order now r).1.
Proof.
  intros Hperm. rewrite aliveServers_in_fields. cbn [fst].
  rewrite sortStrings_Permutation.
  apply (NoDup_fmap_2_strong fst).
  - intros [a1 s1] [a2 s2] [_ H1]%list_elem_of_filter [_ H2]%list_elem_of_filter Heq.
    cbn in Heq. subst a2. rewrite Hperm in H1, H2.
    apply elem_of_map_to_list in H1, H2. congruence.
  - apply NoDup_filter. rewrite Hperm. apply NoDup_map_to_list.
Qed.

Lemma registry_eq (a b : MyRegistry) :
  timeout a = timeout b → servers a = servers b → a = b.
Proof. destruct a, b. cbn. by intros -> ->. Qed.

(** X7. The answer of [aliveServers] and the table it leaves do not depend
    on the order in which the loop visits the map. *)
Theorem aliveServers_order_irrelevant order1 order2 now r :
  order1 ≡ₚ map_to_list (servers r) →
  order2 ≡ₚ map_to_list (servers r) →
  aliveServers_in order1 now r = aliveServers_in order2 now r.
Proof.
  intros H1 H2.
  assert ((aliveServers_in order1 now r).1 = (aliveServers_in order2 now r).1) as Hl.
  { apply (Sorted_unique strLe).
    - rewrite aliveServers_in_fields. apply sortStrings_Sorted.
    - rewrite aliveServers_in_fields. apply sortStrings_Sorted.
    - apply NoDup_Permutation; [by apply alive_NoDup..|].
      intros a. by rewrite !alive_elem. }
  assert ((aliveServers_in order1 now r).2 = (aliveServers_in order2 now r).2) as Ht.
  { assert (servers (aliveServers_in order1 now r).2
            = servers (aliveServers_in order2 now r).2) as Hs.
    { apply map_eq. intros k. by rewrite !alive_table. }
    rewrite !aliveServers_in_fields in *. cbn [snd servers] in *. by rewrite Hs. }
  destruct (aliveServers_in order1 now r), (aliveServers_in order2 now r).
  cbn in *. by subst.
Qed.

(** X8. A heartbeat is seen: after [putServer addr] at time [t], every
    [aliveServers] at a time [now] with [now < t + timeout], or with a
    zero timeout, lists [addr]; and [putServer] leaves the entries of the
    other addresses as they were. *)
Theorem putServer_then_alive addr t now r :
  timeout r = 0 ∨ now < t + timeout r →
  addr ∈ (aliveServers now (putServer addr t r)).1
  ∧ ∀ a, a ≠ addr → servers (putServer addr t r) !! a = servers r !! a.
Proof.
  intros Hal.
  assert (timeout (putServer addr t r) = timeout r) as Ht.
  { unfold putServer. by destruct (servers r !! addr). }
  assert (∃ s, servers (putServer addr t r) !! addr = Some s ∧ start s = t)
    as (s & Hs & Hst).
  { unfold putServer. destruct (servers r !! addr); cbn;
      rewrite lookup_insert_eq; by eexists. }
  split.
  - unfold aliveServers. apply alive_elem; [done|]. exists s.
    split; [done|]. unfold aliveAt. by rewrite Ht, Hst.
  - intros a Ha. unfold putServer.
    destruct (servers r !! addr); cbn; by rewrite lookup_insert_ne.
Qed.

(** X9. Asking twice at the same instant gives the same answer, and the
    second request finds nothing left to evict; and whenever the next
    request comes, if no heartbeat came in between it lists only servers
    that the first one listed: an evicted server does not come back. *)
Theorem aliveServers_again now now' r :
  aliveServers now (aliveServers now r).2 = aliveServers now r
  ∧ (∀ a, a ∈ (aliveServers now' (aliveServers now r).2).1
          → a ∈ (aliveServers now r).1).
Proof.
  set (r1 := (aliveServers now r).2).
  assert (timeout r1 = timeout r) as Ht.
  { unfold r1, aliveServers. by rewrite aliveServers_in_fields. }
  assert (∀ k, servers r1 !! k
               = match servers r !! k with
                 | Some s => if decide (aliveAt (timeout r) now s) then Some s else None
                 | None => None
                 end) as Hr1.
  { intros k. unfold r1, aliveServers. by apply alive_table. }
  split.
  - assert ((aliveServers now r1).1 = (aliveServers now r).1) as Hl.
    { apply (Sorted_unique strLe).
      - unfold aliveServers. rewrite aliveServers_in_fields. apply sortStrings_Sorted.
      - unfold aliveServers. rewrite aliveServers_in_fields. apply sortStrings_Sorted.
      - apply NoDup_Permutation; [by apply alive_NoDup..|].
        intros a. unfold aliveServers at 1 2. rewrite !alive_elem by done.
        rewrite Ht. split.
        + intros (s & Hs & Hal). rewrite Hr1 in Hs.
          destruct (servers r !! a) as [s'|]; [|done]. case_decide; [|done].
          injection Hs as ->. by exists s.
        + intros (s & Hs & Hal). exists s. split; [|done].
          rewrite Hr1, Hs. by rewrite decide_True. }
    assert (servers (aliveServers now r1).2 = servers r1) as Hs.
    { apply map_eq. intros k. unfold aliveServers at 1. rewrite alive_table by done.
      rewrite Ht, Hr1. destruct (servers r !! k) as [s|]; [|done].
      destruct (decide (aliveAt (timeout r) now s)); [|done].
      by rewrite decide_True. }
    assert (timeout (aliveServers now r1).2 = timeout r1) as Ht1.
    { unfold aliveServers. by rewrite aliveServers_in_fields. }
    rewrite (surjective_pairing (aliveServers now r1)).
    rewrite (surjective_pairing (aliveServers now r)).
    f_equal; [exact Hl|]. fold r1. by apply registry_eq.
  - intros a. unfold aliveServers. rewrite !alive_elem by done.
    rewrite Ht. intros (s & Hs & Hal). rewrite Hr1 in Hs.
    destruct (servers r !! a) as [s'|]; [|done]. case_decide; [|done].
    injection Hs as ->. by exists s.
Qed.

(** X10. Whatever requests a registry has served, each entry of its table
    is stored under its own address, no entry has the empty address, and
    the timeout is the one the registry was made with. *)
Theorem Registry_invariant t r :
  reachable t r →
  timeout r = t
  ∧ ∀ k s, servers r !! k = Some s → Addr s = k ∧ k ≠ ""%string.
Proof.
  induction 1 as [|order now req r _ [IHt IHs] Hperm].
  - split; [done|]. intros k s Hk. cbn in Hk. by rewrite lookup_empty in Hk.
  - unfold ServeHTTP_in.
    destruct (Method req =? "GET")%string.
    + cbn [snd]. split; [by rewrite aliveServers_in_fields|].
      intros k s Hk. rewrite alive_table in Hk by done.
      destruct (servers r !! k) as [s'|] eqn:Hk'; [|done].
      case_decide; [|done]. injection Hk as <-. by apply IHs.
    + destruct (Method req =? "POST")%string; [|by cbn].
      destruct (String.eqb_spec (HeaderGet req "X-Myrpc-Server") "") as [|Hne];
        [by cbn|].
      cbn [snd]. unfold putServer.
      destruct (servers r !! HeaderGet req "X-Myrpc-Server") as [s0|] eqn:H0;
        cbn; (split; [done|]); intros k s Hk.
      * destruct (decide (HeaderGet req "X-Myrpc-Server" = k)) as [<-|Hk'].
        -- rewrite lookup_insert_eq in Hk. injection Hk as <-. cbn.
           split; [|done]. by apply IHs.
        -- rewrite lookup_insert_ne in Hk by done. by apply IHs.
      * destruct (decide (HeaderGet req "X-Myrpc-Server" = k)) as [<-|Hk'].
        -- rewrite lookup_insert_eq in Hk. injection Hk as <-. by cbn.
        -- rewrite lookup_insert_ne in Hk by done. by apply IHs.
Qed.

End RegistryMore.

Lemma aliveServers_order_irrelevant_witness :
  [("tcp@b", Registry.mkServerItem "tcp@b" 1000000000);
   ("tcp@a", Registry.mkServerItem "tcp@a" 0)]
    ≡ₚ map_to_list
         (Registry.servers
            (Registry.putServer "tcp@b" 1000000000
               (Registry.putServer "tcp@a" 0 (Registry.New 1000000000))))
  ∧ [("tcp@a", Registry.mkServerItem "tcp@a" 0);
     ("tcp@b", Registry.mkServerItem "tcp@b" 1000000000)]
      ≡ₚ map_to_list
           (Registry.servers
              (Registry.putServer "tcp@b" 1000000000
                 (Registry.putServer "tcp@a" 0 (Registry.New 1000000000))))
  ∧ Registry.aliveServers_in
      [("tcp@b", Registry.mkServerItem "tcp@b" 1000000000);
       ("tcp@a", Registry.mkServerItem "tcp@a" 0)] 500000000
      (Registry.putServer "tcp@b" 1000000000
         (Registry.putServer "tcp@a" 0 (Registry.New 1000000000)))
    = Registry.aliveServers_in
        [("tcp@a", Registry.mkServerItem "tcp@a" 0);
         ("tcp@b", Registry.mkServerItem "tcp@b" 1000000000)] 500000000
        (Registry.putServer "tcp@b" 1000000000
           (Registry.putServer "tcp@a" 0 (Registry.New 1000000000))).
Proof.
  assert ([("tcp@b", Registry.mkServerItem "tcp@b" 1000000000);
           ("tcp@a", Registry.mkServerItem "tcp@a" 0)]
            ≡ₚ map_to_list
                 (Registry.servers
                    (Registry.putServer "tcp@b" 1000000000
                       (Registry.putServer "tcp@a" 0 (Registry.New 1000000000)))))
    as H1.
  { vm_compute. first [reflexivity | apply perm_swap]. }
  assert ([("tcp@a", Registry.mkServerItem "tcp@a" 0);
           ("tcp@b", Registry.mkServerItem "tcp@b" 1000000000)]
            ≡ₚ map_to_list
                 (Registry.servers
                    (Registry.putServer "tcp@b" 1000000000
                       (Registry.putServer "tcp@a" 0 (Registry.New 1000000000)))))
    as H2.
  { vm_compute. first [reflexivity | apply perm_swap]. }
  split_and!; [exact H1|exact H2|].
  exact (aliveServers_order_irrelevant _ _ 500000000 _ H1 H2).
Defined.

(** The scenario of one heartbeat at time 0 under a timeout of one
    second: listed half a second later, gone after a second and a half. *)
Lemma putServer_then_alive_witness :
  (Registry.timeout (Registry.New 1000000000) = 0
   ∨ 500000000 < 0 + Registry.timeout (Registry.New 1000000000))%Z
  ∧ "tcp@a" ∈ (Registry.aliveServers 500000000
                 (Registry.putServer "tcp@a" 0 (Registry.New 1000000000))).1.
Proof.
  assert (Registry.timeout (Registry.New 1000000000) = 0
          ∨ 500000000 < 0 + Registry.timeout (Registry.New 1000000000))%Z as H.
  { right. cbn. lia. }
  split; [exact H|].
  apply (putServer_then_alive "tcp@a" 0 500000000 (Registry.New 1000000000) H).
Defined.

Example heartbeat_expired :
  (Registry.aliveServers 1500000000
     (Registry.putServer "tcp@a" 0 (Registry.New 1000000000))).1 = [].
Proof. vm_compute. reflexivity. Qed.

Lemma Registry_invariant_witness :
  Registry.reachable 1000000000
    (Registry.ServeHTTP_in [] 0
       {| Registry.Method := "POST";
          Registry.Header := {[ "X-Myrpc-Server" := "tcp@a" ]} |}
       (Registry.New 1000000000)).2
  ∧ Registry.timeout
      (Registry.ServeHTTP_in [] 0
         {| Registry.Method := "POST";
            Registry.Header := {[ "X-Myrpc-Server" := "tcp@a" ]} |}
         (Registry.New 1000000000)).2 = 1000000000%Z.
Proof.
  assert (Registry.reachable 1000000000
            (Registry.ServeHTTP_in [] 0
               {| Registry.Method := "POST";
                  Registry.Header := {[ "X-Myrpc-Server" := "tcp@a" ]} |}
               (Registry.New 1000000000)).2) as H.
  { apply Registry.reachable_ServeHTTP; [apply Registry.reachable_New|].
    cbn. by rewrite map_to_list_empty. }
  split; [exact H|]. apply (Registry_invariant _ _ H).
Defined.

(** ** Discovery *)

Section DiscoveryFacts.
Import GoLib Discovery.
Local Open Scope Z_scope.

Lemma wrapInt_small z : - 2 ^ 63 ≤ z < 2 ^ 63 → wrapInt z = z.
Proof. intros Hz. unfold wrapInt. rewrite Z.mod_small by lia. lia. Qed.

Lemma at_index_in_range (s : list string) i :
  0 ≤ i < Z.of_nat (List.length s) →
  ∃ x, at_index s i = Some x ∧ s !! Z.to_nat i = Some x.
Proof.
  intros Hi. unfold at_index. destruct (Z.ltb_spec i 0) as [?|_]; [lia|].
  destruct (lookup_lt_is_Some_2 s (Z.to_nat i)) as [x Hx]; [lia|]. eauto.
Qed.

(** One call of [Get(RoundRobinSelect)] on a list that is not empty. *)
Lemma Get_RoundRobin drawn d :
  servers d ≠ [] → 0 ≤ index d < 2 ^ 63 - 1 →
  let n := Z.of_nat (List.length (servers d)) in
  ∃ s, Get RoundRobinSelect drawn d
       = Some (s, None, {| servers := servers d; index := (index d + 1) mod n |})
       ∧ servers d !! Z.to_nat (index d mod n) = Some s.
Proof.
  intros Hne Hidx n.
  assert (0 < n) as Hn.
  { unfold n. destruct (servers d); [done|]. simpl. lia. }
  unfold Get. fold n. destruct (Z.eqb_spec n 0) as [?|_]; [lia|].
  cbn [RoundRobinSelect RandomSelect Z.eqb].
  rewrite Z.rem_mod_nonneg by lia.
  destruct (at_index_in_range (servers d) (index d mod n)) as (s & -> & Hs).
  { fold n. apply Z.mod_pos_bound. lia. }
  exists s. split; [|done]. rewrite wrapInt_small by lia.
  by rewrite Z.rem_mod_nonneg by lia.
Qed.

(** *** Splitting and trimming *)

Lemma Split_nonempty sep s : Split sep s ≠ [].
Proof.
  induction s as [|c s IH]; simpl; [done|].
  destruct (Ascii.eqb c sep); [done|]. by destruct (Split sep s).
Qed.

Lemma Split_no_sep sep s : containsByte sep s = false → Split sep s = [s].
Proof.
  induction s as [|c s IH]; simpl; [done|].
  destruct (Ascii.eqb c sep); simpl; [done|]. intros H. by rewrite IH.
Qed.

Lemma Split_app sep a rest :
  containsByte sep a = false →
  Split sep (a ++ String sep rest)%string = a :: Split sep rest.
Proof.
  induction a as [|c a IH]; simpl.
  - intros _. by rewrite Ascii.eqb_refl.
  - destruct (Ascii.eqb c sep); simpl; [done|]. intros H. by rewrite IH.
Qed.









End DiscoveryFacts.

Section DiscoveryClaims.
Import GoLib Discovery.
Local Open Scope Z_scope.

(** X11. On a list of servers that is not empty, with an index that is
    not negative and a drawn number within the list, [Get] in the modes
    [RandomSelect] and [RoundRobinSelect] runs into no index out of range
    and returns, without error, one of the servers; the list is left as
    it is and the index stays non-negative and, after a round-robin call,
    below the length of the list. *)
Theorem Get_member mode drawn d :
  servers d ≠ [] →
  0 ≤ index d < 2 ^ 63 - 1 →
  0 ≤ drawn < Z.of_nat (List.length (servers d)) →
  mode = RandomSelect ∨ mode = RoundRobinSelect →
  ∃ s d', Get mode drawn d = Some (s, None, d')
          ∧ s ∈ servers d
          ∧ servers d' = servers d
          ∧ 0 ≤ index d'
          ∧ (mode = RoundRobinSelect →
               index d' < Z.of_nat (List.length (servers d))).
Proof.
  intros Hne Hidx Hdrawn [-> | ->].
  - unfold Get. destruct (Z.eqb_spec (Z.of_nat (List.length (servers d))) 0); [lia|].
    cbn [RandomSelect Z.eqb].
    destruct (at_index_in_range (servers d) drawn Hdrawn) as (s & -> & Hs).
    exists s, d. split_and!; try done; try lia.
    by apply list_elem_of_lookup_2 in Hs.
  - destruct (Get_RoundRobin drawn d Hne Hidx) as (s & -> & Hs). cbv zeta.
    exists s. eexists. split_and!; [done| |done|..]; cbn [index].
    + by apply list_elem_of_lookup_2 in Hs.
    + apply Z.mod_pos_bound. lia.
    + intros _. apply Z.mod_pos_bound. lia.
Qed.

(** X12. Round robin: of [k] calls of [Get(RoundRobinSelect)] in a row on
    a list of [n > 0] servers, with no update in between, the call number
    [j] returns the server at position [(index + j) mod n]; so any [n]
    calls in a row return each position once. *)
Theorem roundRobin_cycle k : ∀ d,
  servers d ≠ [] →
  0 ≤ index d < 2 ^ 63 - 1 →
  Z.of_nat (List.length (servers d)) < 2 ^ 63 - 1 →
  ∃ l, roundRobin k d = Some l
       ∧ List.length l = k
       ∧ ∀ j, (j < k)%nat →
           l !! j
           = servers d !! Z.to_nat ((index d + Z.of_nat j)
                                    mod Z.of_nat (List.length (servers d))).
Proof.
  induction k as [|k IH]; intros d Hne Hidx Hlen.
  - exists []. split_and!; [done|done|]. intros j Hj. lia.
  - destruct (Get_RoundRobin 0 d Hne Hidx) as (s & Hget & Hs). cbv zeta in Hget.
    set (n := Z.of_nat (List.length (servers d))) in *.
    assert (0 < n) as Hn.
    { unfold n. destruct (servers d); [done|]. simpl. lia. }
    set (d' := {| servers := servers d; index := (index d + 1) mod n |}) in *.
    destruct (IH d') as (l & Hl & Hlen' & Hnth).
    { done. }
    { cbn [index d']. pose proof (Z.mod_pos_bound (index d + 1) n Hn). lia. }
    { done. }
    exists (s :: l). cbn [roundRobin]. rewrite Hget, Hl.
    split_and!; [done|simpl; by rewrite Hlen'|].
    intros [|j] Hj.
    + cbn [lookup list_lookup]. rewrite Z.add_0_r. by rewrite Hs.
    + cbn [lookup list_lookup]. rewrite Hnth by lia. cbn [d' servers index].
      fold n. f_equal. f_equal. rewrite Zplus_mod_idemp_l. f_equal. lia.
Qed.



End DiscoveryClaims.

Example Split_examples :
  GoLib.Split ","%char "" = [""]
  ∧ GoLib.Split ","%char "a,,b," = ["a"; ""; "b"; ""]
  ∧ GoLib.TrimSpace "  tcp@a:1 " = "tcp@a:1".
Proof. repeat split. Qed.

Lemma Get_member_witness :
  Discovery.servers (Discovery.mkMSD ["a"; "b"; "c"] 7) ≠ []
  ∧ (0 ≤ Discovery.index (Discovery.mkMSD ["a"; "b"; "c"] 7) < 2 ^ 63 - 1)%Z
  ∧ (0 ≤ 2 < Z.of_nat (List.length
                          (Discovery.servers (Discovery.mkMSD ["a"; "b"; "c"] 7))))%Z
  ∧ (Discovery.RoundRobinSelect = Discovery.RandomSelect
     ∨ Discovery.RoundRobinSelect = Discovery.RoundRobinSelect)
  ∧ ∃ s d', Discovery.Get Discovery.RoundRobinSelect 2
              (Discovery.mkMSD ["a"; "b"; "c"] 7) = Some (s, None, d')
            ∧ s ∈ Discovery.servers (Discovery.mkMSD ["a"; "b"; "c"] 7)
            ∧ Discovery.servers d'
              = Discovery.servers (Discovery.mkMSD ["a"; "b"; "c"] 7)
            ∧ (0 ≤ Discovery.index d')%Z
            ∧ (Discovery.RoundRobinSelect = Discovery.RoundRobinSelect →
                 (Discovery.index d'
                  < Z.of_nat (List.length
                                (Discovery.servers
                                   (Discovery.mkMSD ["a"; "b"; "c"] 7))))%Z).
Proof.
  assert (Discovery.servers (Discovery.mkMSD ["a"; "b"; "c"] 7) ≠ []) as H1
    by discriminate.
  assert (0 ≤ Discovery.index (Discovery.mkMSD ["a"; "b"; "c"] 7) < 2 ^ 63 - 1)%Z
    as H2 by (cbn; lia).
  assert (0 ≤ 2 < Z.of_nat (List.length
                              (Discovery.servers
                                 (Discovery.mkMSD ["a"; "b"; "c"] 7))))%Z
    as H3 by (cbn; lia).
  assert (Discovery.RoundRobinSelect = Discovery.RandomSelect
          ∨ Discovery.RoundRobinSelect = Discovery.RoundRobinSelect) as H4
    by (by right).
  refine (conj H1 (conj H2 (conj H3 (conj H4 _)))).
  exact (Get_member Discovery.RoundRobinSelect 2 _ H1 H2 H3 H4).
Defined.

Example roundRobin_three :
  Discovery.roundRobin 4 (Discovery.mkMSD ["a"; "b"; "c"] 7)
  = Some ["b"; "c"; "a"; "b"].
Proof. vm_compute. reflexivity. Qed.

Lemma roundRobin_cycle_witness :
  Discovery.servers (Discovery.mkMSD ["a"; "b"; "c"] 7) ≠ []
  ∧ (0 ≤ Discovery.index (Discovery.mkMSD ["a"; "b"; "c"] 7) < 2 ^ 63 - 1)%Z
  ∧ (Z.of_nat (List.length (Discovery.servers (Discovery.mkMSD ["a"; "b"; "c"] 7)))
     < 2 ^ 63 - 1)%Z
  ∧ ∃ l, Discovery.roundRobin 3 (Discovery.mkMSD ["a"; "b"; "c"] 7) = Some l
         ∧ List.length l = 3%nat
         ∧ ∀ j, (j < 3)%nat →
             l !! j
             = Discovery.servers (Discovery.mkMSD ["a"; "b"; "c"] 7)
                 !! Z.to_nat
                      ((Discovery.index (Discovery.mkMSD ["a"; "b"; "c"] 7)
                        + Z.of_nat j)
                       mod Z.of_nat
                             (List.length
                                (Discovery.servers
                                   (Discovery.mkMSD ["a"; "b"; "c"] 7)))).
Proof.
  assert (Discovery.servers (Discovery.mkMSD ["a"; "b"; "c"] 7) ≠ []) as H1
    by discriminate.
  assert (0 ≤ Discovery.index (Discovery.mkMSD ["a"; "b"; "c"] 7) < 2 ^ 63 - 1)%Z
    as H2 by (cbn; lia).
  assert (Z.of_nat (List.length (Discovery.servers (Discovery.mkMSD ["a"; "b"; "c"] 7)))
          < 2 ^ 63 - 1)%Z as H3 by (cbn; lia).
  refine (conj H1 (conj H2 (conj H3 _))).
  exact (roundRobin_cycle 3 _ H1 H2 H3).
Defined.


Example Refresh_drops_empty :
  Discovery.servers
    (Discovery.multi
       (Discovery.Refresh 0 (inl " tcp@a , ,tcp@b")
          (Discovery.NewMyRegistryDiscovery "http://r" 0 7)).2)
  = ["tcp@a"; "tcp@b"].
Proof. vm_compute. reflexivity. Qed.


(** ** More on the client *)

Section ClientMore.
Import Client.
Local Open Scope N_scope.

Lemma errorOf_setError l e w x :
  errorOf (setError l e w) x
  = if decide (l = x) then (λ _, e) <$> errorOf w x else errorOf w x.
Proof.
  unfold errorOf, setError. cbn. case_decide as Hl.
  - subst. rewrite lookup_alter_eq. by destruct (heap w !! x).
  - by rewrite lookup_alter_ne.
Qed.

Lemma errorOf_done l w x : errorOf (done l w) x = errorOf w x.
Proof. unfold errorOf. by rewrite heap_done. Qed.

Lemma terminate_loop_errors err (es : list (N * loc)) : ∀ w x,
  errorOf (foldl (λ w e, done e.2 (setError e.2 (Some err) w)) w es) x
  = if decide (x ∈ es.*2) then (λ _, Some err) <$> errorOf w x
    else errorOf w x.
Proof.
  induction es as [|e es IH]; intros w x; cbn [foldl].
  - rewrite decide_False; [done|]. apply not_elem_of_nil.
  - rewrite IH, errorOf_done, errorOf_setError, fmap_cons.
    destruct (decide (e.2 = x)) as [Hx|Hx].
    + rewrite (decide_True (P := x ∈ e.2 :: es.*2)) by (subst; left).
      destruct (decide (x ∈ es.*2)); by destruct (errorOf w x).
    + destruct (decide (x ∈ es.*2)) as [Hin|Hnin].
      * rewrite decide_True; [done|by right].
      * rewrite decide_False; [done|]. apply not_elem_of_cons. by split.
Qed.

(** X15. [Close] is idempotent up to its error: the first call on a
    client sets [closing] and leaves the table and the counter alone, any
    later call returns [ErrShutdown] and changes nothing; and once closed
    the client is not available and every [registerCall] is refused with
    [ErrShutdown], the state unchanged. *)
Theorem Close_then_refused w l :
  closing (client (Close w).2) = true
  ∧ pending (client (Close w).2) = pending (client w)
  ∧ seq (client (Close w).2) = seq (client w)
  ∧ Close (Close w).2 = (Some ErrShutdown, (Close w).2)
  ∧ IsAvailable (Close w).2 = false
  ∧ registerCall l (Close w).2 = ((0, Some ErrShutdown), (Close w).2).
Proof.
  unfold Close, IsAvailable, registerCall.
  destruct (closing (client w)) eqn:Hc; cbn; rewrite ?Hc; cbn;
    split_and!; try done; by rewrite andb_false_r.
Qed.

(** X16. On a client reached from a new one, a call that [registerCall]
    puts in the table is what [removeCall] finds under the number
    returned, and taking it out gives back the table as it was before the
    registration. *)
Theorem removeCall_registerCall evs w l :
  run evs newWorld = Some w →
  N.of_nat (List.length evs) < uint64_max →
  closing (client w) || shutdown (client w) = false →
  (removeCall (registerCall l w).1.1 (registerCall l w).2).1 = Some l
  ∧ pending (client (removeCall (registerCall l w).1.1 (registerCall l w).2).2)
    = pending (client w).
Proof.
  intros Hrun Hlen Hflags. pose proof (run_inv evs w Hrun Hlen) as Hinv.
  unfold registerCall. rewrite Hflags. cbn.
  rewrite lookup_insert_eq. split; [done|].
  rewrite delete_insert_eq. apply delete_id.
  destruct (pending (client w) !! seq (client w)) as [l'|] eqn:Hl'; [|done].
  destruct (inv_pend_key _ _ Hinv _ _ Hl') as [_ Hs].
  apply (inv_seq_lt _ _ Hinv) in Hs. lia.
Qed.

(** X17. [terminateCalls(err)] on a client reached from a new one: the
    client is shut down and no longer available, the table keeps its
    entries, every call of the table has [err] as its error, and the
    error of every other call is untouched. *)
Theorem terminateCalls_fails_pending evs w err :
  run evs newWorld = Some w →
  N.of_nat (List.length evs) < uint64_max →
  shutdown (client (terminateCalls err w)) = true
  ∧ IsAvailable (terminateCalls err w) = false
  ∧ pending (client (terminateCalls err w)) = pending (client w)
  ∧ (∀ k l, pending (client w) !! k = Some l →
       errorOf (terminateCalls err w) l = Some (Some err))
  ∧ (∀ l, (∀ k, pending (client w) !! k ≠ Some l) →
       errorOf (terminateCalls err w) l = errorOf w l).
Proof.
  intros Hrun Hlen. pose proof (run_inv evs w Hrun Hlen) as Hinv.
  unfold terminateCalls.
  set (c1 := {| header := header (client w); pending := pending (client w);
                seq := seq (client w); closing := closing (client w);
                shutdown := true |}).
  set (w1 := setClient c1 w).
  destruct (terminate_loop err (map_to_list (pending (client w))) w1)
    as (Hc & _).
  { intros [k x] Hk. apply elem_of_map_to_list in Hk. simpl.
    change (heap w1) with (heap w). apply allocated_seqOf.
    destruct (inv_pend_key _ _ Hinv k x Hk) as [_ ->]. by eexists. }
  cbv zeta in Hc.
  split_and!.
  - by rewrite Hc.
  - unfold IsAvailable. by rewrite Hc.
  - by rewrite Hc.
  - intros k l Hk. rewrite terminate_loop_errors.
    rewrite decide_True by (apply pending_values; by exists k).
    change (errorOf w1 l) with (errorOf w l). unfold errorOf.
    destruct (inv_pend_key _ _ Hinv k l Hk) as [_ Hs]. unfold seqOf in Hs.
    by destruct (heap w !! l).
  - intros l Hl. rewrite terminate_loop_errors.
    rewrite decide_False; [done|]. intros [k Hk]%pending_values. by apply (Hl k).
Qed.

(** X18. On a client reached from a new one no two calls carry the same
    sequence number, apart from the number 0 of the calls that were
    refused; every number given is at least 1 and below the counter. *)
Theorem Seq_unique evs w l1 l2 c1 c2 :
  run evs newWorld = Some w →
  N.of_nat (List.length evs) < uint64_max →
  heap w !! l1 = Some c1 → heap w !! l2 = Some c2 →
  Seq c1 < seq (client w)
  ∧ (l1 ≠ l2 → Seq c1 ≠ 0 → Seq c1 ≠ Seq c2)
  ∧ (∀ k, pending (client w) !! k = Some l1 → Seq c1 = k ∧ 1 ≤ k).
Proof.
  intros Hrun Hlen H1 H2. pose proof (run_inv evs w Hrun Hlen) as Hinv.
  assert (seqOf w l1 = Some (Seq c1)) as Hs1 by (unfold seqOf; by rewrite H1).
  assert (seqOf w l2 = Some (Seq c2)) as Hs2 by (unfold seqOf; by rewrite H2).
  split_and!.
  - by apply (inv_seq_lt _ _ Hinv l1).
  - intros Hne H0 Heq. apply Hne.
    apply (inv_seq_inj _ _ Hinv l1 l2 (Seq c1)); [done| |done]. by rewrite Heq.
  - intros k Hk. destruct (inv_pend_key _ _ Hinv k l1 Hk) as [? Hs].
    split; [congruence|done].
Qed.

(** *** The address of [XDial] *)

Lemma Split_length sep s :
  List.length (GoLib.Split sep s) = S (countByte sep s).
Proof.
  induction s as [|c s IH]; simpl; [done|].
  destruct (Ascii.eqb c sep); simpl; [by rewrite IH|].
  destruct (GoLib.Split sep s); simpl in *; [done|]. done.
Qed.

Lemma countByte_containsByte sep s :
  countByte sep s = 0%nat ↔ GoLib.containsByte sep s = false.
Proof.
  induction s as [|c s IH]; simpl; [done|].
  destruct (Ascii.eqb c sep); simpl; [done|]. apply IH.
Qed.

(** X19. [XDial] refuses an address exactly when it does not hold one
    [@]; an address [protocol@addr] with no other [@] is dialled over
    HTTP on the network [tcp] when the protocol is [http], and directly
    on the network [protocol] otherwise. *)
Theorem XDial_spec rpcAddr :
  ((∃ err, XDial rpcAddr = PlanError err) ↔ countByte "@"%char rpcAddr ≠ 1%nat)
  ∧ (∀ protocol addr,
       GoLib.containsByte "@"%char protocol = false →
       GoLib.containsByte "@"%char addr = false →
       rpcAddr = (protocol ++ String "@"%char addr)%string →
       XDial rpcAddr
       = if String.eqb protocol "http" then PlanDialHTTP "tcp" addr
         else PlanDial protocol addr).
Proof.
  split.
  - pose proof (Split_length "@"%char rpcAddr) as Hlen. unfold XDial.
    destruct (GoLib.Split "@" rpcAddr) as [|p [|a [|b rest]]]; simpl in Hlen.
    + split; [lia|]. intros _. by eexists.
    + split; [lia|]. intros _. by eexists.
    + split; [|lia]. intros [err Herr]. by destruct (p =? "http")%string.
    + split; [lia|]. intros _. by eexists.
  - intros protocol addr Hp Ha ->. unfold XDial.
    rewrite Split_app by done. by rewrite Split_no_sep.
Qed.

End ClientMore.

Lemma removeCall_registerCall_witness :
  Client.run [Client.EvGo 0%nat "Foo.Sum" "{1,2}" 7%nat; Client.EvWrite None]
    Client.newWorld
  = Some (default Client.newWorld
            (Client.run [Client.EvGo 0%nat "Foo.Sum" "{1,2}" 7%nat;
                         Client.EvWrite None] Client.newWorld))
  ∧ (N.of_nat (List.length [Client.EvGo 0%nat "Foo.Sum" "{1,2}" 7%nat;
                            Client.EvWrite None]) < Client.uint64_max)%N
  ∧ Client.closing
      (Client.client
         (default Client.newWorld
            (Client.run [Client.EvGo 0%nat "Foo.Sum" "{1,2}" 7%nat;
                         Client.EvWrite None] Client.newWorld)))
    || Client.shutdown
         (Client.client
            (default Client.newWorld
               (Client.run [Client.EvGo 0%nat "Foo.Sum" "{1,2}" 7%nat;
                            Client.EvWrite None] Client.newWorld))) = false
  ∧ (Client.removeCall
       (Client.registerCall 1%nat
          (default Client.newWorld
             (Client.run [Client.EvGo 0%nat "Foo.Sum" "{1,2}" 7%nat;
                          Client.EvWrite None] Client.newWorld))).1.1
       (Client.registerCall 1%nat
          (default Client.newWorld
             (Client.run [Client.EvGo 0%nat "Foo.Sum" "{1,2}" 7%nat;
                          Client.EvWrite None] Client.newWorld))).2).1
    = Some 1%nat.
Proof.
  assert (Client.run [Client.EvGo 0%nat "Foo.Sum" "{1,2}" 7%nat; Client.EvWrite None]
            Client.newWorld
          = Some (default Client.newWorld
                    (Client.run [Client.EvGo 0%nat "Foo.Sum" "{1,2}" 7%nat;
                                 Client.EvWrite None] Client.newWorld)))
    as H1 by (vm_compute; reflexivity).
  assert (N.of_nat (List.length [Client.EvGo 0%nat "Foo.Sum" "{1,2}" 7%nat;
                                 Client.EvWrite None]) < Client.uint64_max)%N
    as H2 by (vm_compute; reflexivity).
  assert (Client.closing
            (Client.client
               (default Client.newWorld
                  (Client.run [Client.EvGo 0%nat "Foo.Sum" "{1,2}" 7%nat;
                               Client.EvWrite None] Client.newWorld)))
          || Client.shutdown
               (Client.client
                  (default Client.newWorld
                     (Client.run [Client.EvGo 0%nat "Foo.Sum" "{1,2}" 7%nat;
                                  Client.EvWrite None] Client.newWorld))) = false)
    as H3 by (vm_compute; reflexivity).
  refine (conj H1 (conj H2 (conj H3 _))).
  apply (removeCall_registerCall _ _ 1%nat H1 H2 H3).
Defined.

Lemma terminateCalls_fails_pending_witness :
  Client.run [Client.EvGo 0%nat "Foo.Sum" "{1,2}" 7%nat; Client.EvWrite None]
    Client.newWorld
  = Some (default Client.newWorld
            (Client.run [Client.EvGo 0%nat "Foo.Sum" "{1,2}" 7%nat;
                         Client.EvWrite None] Client.newWorld))
  ∧ (N.of_nat (List.length [Client.EvGo 0%nat "Foo.Sum" "{1,2}" 7%nat;
                            Client.EvWrite None]) < Client.uint64_max)%N
  ∧ Client.IsAvailable
      (Client.terminateCalls "EOF"
         (default Client.newWorld
            (Client.run [Client.EvGo 0%nat "Foo.Sum" "{1,2}" 7%nat;
                         Client.EvWrite None] Client.newWorld))) = false.
Proof.
  assert (Client.run [Client.EvGo 0%nat "Foo.Sum" "{1,2}" 7%nat; Client.EvWrite None]
            Client.newWorld
          = Some (default Client.newWorld
                    (Client.run [Client.EvGo 0%nat "Foo.Sum" "{1,2}" 7%nat;
                                 Client.EvWrite None] Client.newWorld)))
    as H1 by (vm_compute; reflexivity).
  assert (N.of_nat (List.length [Client.EvGo 0%nat "Foo.Sum" "{1,2}" 7%nat;
                                 Client.EvWrite None]) < Client.uint64_max)%N
    as H2 by (vm_compute; reflexivity).
  refine (conj H1 (conj H2 _)).
  apply (terminateCalls_fails_pending _ _ "EOF" H1 H2).
Defined.

Example terminateCalls_sets_error :
  Client.errorOf
    (Client.terminateCalls "EOF"
       (default Client.newWorld
          (Client.run [Client.EvGo 0%nat "Foo.Sum" "{1,2}" 7%nat;
                       Client.EvWrite None] Client.newWorld))) 0%nat
  = Some (Some "EOF").
Proof. vm_compute. reflexivity. Qed.

Lemma Seq_unique_witness :
  Client.run Client.sampleRun Client.newWorld = Some Client.sampleWorld
  ∧ (N.of_nat (List.length Client.sampleRun) < Client.uint64_max)%N
  ∧ Client.heap Client.sampleWorld !! 0%nat
    = Some (default Client.sampleCall (Client.heap Client.sampleWorld !! 0%nat))
  ∧ Client.heap Client.sampleWorld !! 1%nat = Some Client.sampleCall
  ∧ (Client.Seq (default Client.sampleCall (Client.heap Client.sampleWorld !! 0%nat))
     < Client.seq (Client.client Client.sampleWorld))%N.
Proof.
  assert (Client.run Client.sampleRun Client.newWorld = Some Client.sampleWorld)
    as H1 by (vm_compute; reflexivity).
  assert (N.of_nat (List.length Client.sampleRun) < Client.uint64_max)%N
    as H2 by (vm_compute; reflexivity).
  assert (Client.heap Client.sampleWorld !! 0%nat
          = Some (default Client.sampleCall (Client.heap Client.sampleWorld !! 0%nat)))
    as H3 by (vm_compute; reflexivity).
  assert (Client.heap Client.sampleWorld !! 1%nat = Some Client.sampleCall)
    as H4 by (vm_compute; reflexivity).
  refine (conj H1 (conj H2 (conj H3 (conj H4 _)))).
  apply (Seq_unique _ _ 0%nat 1%nat _ _ H1 H2 H3 H4).
Defined.

Example XDial_examples :
  Client.XDial "tcp@127.0.0.1:12345" = Client.PlanDial "tcp" "127.0.0.1:12345"
  ∧ Client.XDial "http@example.com:80" = Client.PlanDialHTTP "tcp" "example.com:80"
  ∧ Client.XDial "unix@/tmp/rpc.sock" = Client.PlanDial "unix" "/tmp/rpc.sock"
  ∧ Client.XDial "127.0.0.1:12345"
    = Client.PlanError
        "rpc client err: wrong format '127.0.0.1:12345', expect protocol@addr"
  ∧ Client.XDial "tcp@user@host:1"
    = Client.PlanError
        "rpc client err: wrong format 'tcp@user@host:1', expect protocol@addr".
Proof. repeat split. Qed.

Section ClientCancel.
Import Client.
Local Open Scope N_scope.

(** *** A call that is out of the table *)








End ClientCancel.


(** ** More on the server *)

Section ServerMore.
Import GoLib Server.

(** *** Registration *)





(** [Register] never changes or replaces a service that is
    registered: every service found under a name before is found under it
    afterwards; it returns the error [rpc: service already defined: ]
    followed by the name exactly when the name of the receiver's type is
    taken, and then leaves the server as it is; otherwise the new service
    is found under the name of the type. *)
Theorem Register_spec r server err server' :
  Register r server = Some (err, server') →
  (∀ k sv, serviceMap server !! k = Some sv → serviceMap server' !! k = Some sv)
  ∧ (is_Some (serviceMap server !! TypeName r) →
       err = Some ("rpc: service already defined: " ++ TypeName r)%string
       ∧ server' = server)
  ∧ (serviceMap server !! TypeName r = None →
       err = None
       ∧ serviceMap server' !! TypeName r
         = Some {| name := TypeName r; rcvr := r; methods := registerMethods r |}).
Proof.
  unfold Register, newService.
  destruct (IsExported (TypeName r)); cbn; [|done].
  destruct (serviceMap server !! TypeName r) as [sv0|] eqn:H0.
  - intros [= <- <-]. split_and!; [done|done|done].
  - intros [= <- <-]. cbn. split_and!.
    + intros k sv Hk. rewrite lookup_insert_ne; [done|]. intros <-. congruence.
    + by intros [? ?].
    + intros _. by rewrite lookup_insert_eq.
Qed.

(** *** From [Register] to [findService] *)




(** *** The negotiation *)

(** X23. Whatever option [parseOptions] returns passes the check of the
    magic number of [ServerConn]; it is served, and [NewClient] goes on
    with it, exactly when its codec type is [GobType], the only codec in
    [NewCodecFuncMap]: with any other codec type, [JsonType] included,
    [NewClient] fails with [invalid codec type] before it writes
    anything, and the server closes the connection without an answer. *)
Theorem negotiation_spec opts opt :
  Client.parseOptions opts = Client.OK opt →
  (∀ magic, negotiate (Client.OK opt) ≠ ConnBadMagic magic)
  ∧ (Client.Option_CodecType opt = Codec.GobType →
       negotiate (Client.OK opt) = ConnServe Client.NewGobCodec opt
       ∧ Client.NewClient opt None = Client.ClientReady Client.NewGobCodec opt)
  ∧ (Client.Option_CodecType opt ≠ Codec.GobType →
       negotiate (Client.OK opt) = ConnBadCodec (Client.Option_CodecType opt)
       ∧ ∀ encodeErr,
           Client.NewClient opt encodeErr
           = Client.ClientRefused
               ("invalid codec type " ++ Client.Option_CodecType opt)%string).
Proof.
  intros Hparse.
  assert (Client.Option_MagicNumber opt = Client.MagicNumber) as Hmagic.
  { destruct opts as [|[o|] rest]; cbn in Hparse.
    - by injection Hparse as <-.
    - destruct rest; cbn in Hparse; [|done].
      destruct (Client.Option_CodecType o =? "")%string; by injection Hparse as <-.
    - by injection Hparse as <-. }
  unfold negotiate, Client.NewClient, Client.NewCodecFuncMap.
  rewrite Hmagic, Z.eqb_refl. cbn [negb].
  split_and!.
  - intros magic. by destruct (_ !! _).
  - intros ->. by rewrite lookup_singleton_eq.
  - intros Hne. rewrite lookup_singleton_ne by done. done.
Qed.

End ServerMore.

Section ServerLoopMore.
Import GoLib Server.

Variable decodeHeader : string → Client.result Codec.Header.
Variable decodeBody : methodType → string → Client.result string.

(** X24. A request for a service or method that [findService] does not
    find is answered with the error, but its body is left on the stream:
    the loop of [serverCodec] takes the body for the next header, and
    when the body does not decode as a header the loop ends there, so
    that nothing of what follows on the connection is read. *)
Theorem serverCodec_unknown_method server hf bf rest hd err e fuel :
  decodeHeader hf = Client.OK hd →
  (findService server (Codec.ServiceMethod hd)).2 = Some err →
  decodeHeader bf = Client.Err e →
  readRequest decodeHeader decodeBody server (hf :: bf :: rest)
  = Some (Some {| req_h := hd; req_argv := "";
                  req_mtype := (findService server (Codec.ServiceMethod hd)).1.2;
                  req_svc := (findService server (Codec.ServiceMethod hd)).1.1 |},
          Some err, bf :: rest)
  ∧ serverCodec decodeHeader decodeBody (S (S fuel)) server (hf :: bf :: rest)
    = Some [RespondError
              (Codec.mkHeader (Codec.ServiceMethod hd) (Codec.Seq hd) err)].
Proof.
  intros Hh Hfind Hb.
  assert (readRequest decodeHeader decodeBody server (hf :: bf :: rest)
          = Some (Some {| req_h := hd; req_argv := "";
                          req_mtype := (findService server (Codec.ServiceMethod hd)).1.2;
                          req_svc := (findService server (Codec.ServiceMethod hd)).1.1 |},
                  Some err, bf :: rest)) as Hread.
  { unfold readRequest, readRequestHeader. rewrite Hh.
    destruct (findService server (Codec.ServiceMethod hd)) as [[sv mt] er].
    cbn in Hfind. subst er. by destruct mt. }
  split; [exact Hread|].
  cbn [serverCodec]. rewrite Hread. cbn [req_h].
  unfold readRequest, readRequestHeader. by rewrite Hb.
Qed.

End ServerLoopMore.

Section HandleMore.
Import Server.

Variable durationString : Z → string.




(** X26. Without a handle timeout, a method that returns an error gets
    its one error response, and then nothing can happen any more: the
    context is never cancelled, the wait of [handleRequest] never ends,
    and the [WaitGroup] of the connection is never released. *)
Theorem handleRequest_error_without_timeout hd e reply evs st :
  hRun durationString 0 (MethodReturns (Some e) reply :: evs) (startHandling hd)
  = Some st →
  evs = []
  ∧ waiting st = true
  ∧ ctxDone st = false
  ∧ written st
    = [(Codec.mkHeader (Codec.ServiceMethod hd) (Codec.Seq hd) e, invalidRequest)].
Proof.
  cbn. destruct evs as [|ev evs]; cbn.
  - intros [= <-]. done.
  - destruct ev as [[e'|] reply'| |]; cbn; done.
Qed.

End HandleMore.

Lemma Register_spec_witness :
  Server.Register Server.sampleReceiver Server.NewServer
  = Some (None, Server.sampleServer)
  ∧ Server.serviceMap Server.sampleServer !! "Foo"
    = Some {| Server.name := "Foo"; Server.rcvr := Server.sampleReceiver;
              Server.methods := Server.registerMethods Server.sampleReceiver |}.
Proof.
  assert (Server.Register Server.sampleReceiver Server.NewServer
          = Some (None, Server.sampleServer)) as H by (vm_compute; reflexivity).
  split; [exact H|].
  apply (Register_spec Server.sampleReceiver Server.NewServer None
           Server.sampleServer H).
  reflexivity.
Defined.


(** The options of [main.go], which ask for [JsonType]. *)
Lemma negotiation_spec_witness :
  Client.parseOptions
    [Some (Client.mkOption Client.MagicNumber Codec.JsonType 0 0)]
  = Client.OK (Client.mkOption Client.MagicNumber Codec.JsonType 0 0)
  ∧ Server.negotiate
      (Client.OK (Client.mkOption Client.MagicNumber Codec.JsonType 0 0))
    = Server.ConnBadCodec "application/json"
  ∧ Client.NewClient (Client.mkOption Client.MagicNumber Codec.JsonType 0 0) None
    = Client.ClientRefused "invalid codec type application/json".
Proof.
  assert (Client.parseOptions
            [Some (Client.mkOption Client.MagicNumber Codec.JsonType 0 0)]
          = Client.OK (Client.mkOption Client.MagicNumber Codec.JsonType 0 0))
    as H by reflexivity.
  split; [exact H|].
  destruct (negotiation_spec _ _ H) as (_ & _ & Hbad).
  destruct Hbad as [Hn Hc]; [discriminate|].
  split; [exact Hn|exact (Hc None)].
Defined.

Lemma serverCodec_unknown_method_witness :
  Server.sampleDecodeHeader "HBar.Sum" = Client.OK (Codec.mkHeader "Bar.Sum" 1 "")
  ∧ (Server.findService Server.sampleServer "Bar.Sum").2
    = Some "rpc server: can't find service Bar"
  ∧ Server.sampleDecodeHeader "3 4" = Client.Err "gob: type mismatch"
  ∧ Server.serverCodec Server.sampleDecodeHeader Server.sampleDecodeBody 2
      Server.sampleServer ["HBar.Sum"; "3 4"; "HFoo.Sum"; "1 2"]
    = Some [Server.RespondError
              (Codec.mkHeader "Bar.Sum" 1 "rpc server: can't find service Bar")].
Proof.
  assert (Server.sampleDecodeHeader "HBar.Sum"
          = Client.OK (Codec.mkHeader "Bar.Sum" 1 "")) as H1 by reflexivity.
  assert ((Server.findService Server.sampleServer
             (Codec.ServiceMethod (Codec.mkHeader "Bar.Sum" 1 ""))).2
          = Some "rpc server: can't find service Bar")
    as H2 by (vm_compute; reflexivity).
  assert (Server.sampleDecodeHeader "3 4" = Client.Err "gob: type mismatch")
    as H3 by reflexivity.
  refine (conj H1 (conj H2 (conj H3 _))).
  exact (proj2 (serverCodec_unknown_method Server.sampleDecodeHeader
                  Server.sampleDecodeBody Server.sampleServer
                  "HBar.Sum" "3 4" ["HFoo.Sum"; "1 2"] _ _ _ 0%nat H1 H2 H3)).
Defined.

(** The same stream when the method is found: both requests are handled. *)
Example serverCodec_known_method :
  Server.serverCodec Server.sampleDecodeHeader Server.sampleDecodeBody 3
    Server.sampleServer ["HFoo.Sum"; "3 4"; "HFoo.Sum"; "1 2"]
  = Some [Server.Handle
            (Server.mkRequest_ (Codec.mkHeader "Foo.Sum" 1 "") "3 4"
               (Some (Server.mkMethodType
                        (Server.mkMethod "Sum" 3 1 true true true) 0))
               (Some {| Server.name := "Foo"; Server.rcvr := Server.sampleReceiver;
                        Server.methods :=
                          Server.registerMethods Server.sampleReceiver |}));
          Server.Handle
            (Server.mkRequest_ (Codec.mkHeader "Foo.Sum" 1 "") "1 2"
               (Some (Server.mkMethodType
                        (Server.mkMethod "Sum" 3 1 true true true) 0))
               (Some {| Server.name := "Foo"; Server.rcvr := Server.sampleReceiver;
                        Server.methods :=
                          Server.registerMethods Server.sampleReceiver |}))].
Proof. vm_compute. reflexivity. Qed.


Lemma handleRequest_error_without_timeout_witness :
  Server.hRun Server.secondsString 0
    [Server.MethodReturns (Some "division by zero") ""]
    (Server.startHandling (Codec.mkHeader "Foo.Div" 4 ""))
  = Some (Server.mkHandling "Foo.Div" 4 "division by zero" false false true
            [(Codec.mkHeader "Foo.Div" 4 "division by zero", Server.invalidRequest)])
  ∧ Server.waiting
      (Server.mkHandling "Foo.Div" 4 "division by zero" false false true
         [(Codec.mkHeader "Foo.Div" 4 "division by zero", Server.invalidRequest)])
    = true.
Proof.
  assert (Server.hRun Server.secondsString 0
            [Server.MethodReturns (Some "division by zero") ""]
            (Server.startHandling (Codec.mkHeader "Foo.Div" 4 ""))
          = Some (Server.mkHandling "Foo.Div" 4 "division by zero" false false true
                    [(Codec.mkHeader "Foo.Div" 4 "division by zero",
                      Server.invalidRequest)])) as H by reflexivity.
  split; [exact H|].
  exact (proj1 (proj2 (handleRequest_error_without_timeout Server.secondsString
                         _ _ _ _ _ H))).
Defined.

(** ** The heartbeat of a server and the registry *)

Section Heartbeat.
Import GoLib Registry.
Local Open Scope Z_scope.

Lemma ServeHTTP_keeps addr t p now req r :
  (timeout r = 0 ∨ p < timeout r) →
  t ≤ now ≤ t + p →
  (∃ s, servers r !! addr = Some s ∧ t ≤ start s) →
  timeout (ServeHTTP now req r).2 = timeout r
  ∧ ∃ s, servers (ServeHTTP now req r).2 !! addr = Some s ∧ t ≤ start s.
Proof.
  intros Hp Hnow (s & Hs & Hst). unfold ServeHTTP, ServeHTTP_in.
  destruct (Method req =? "GET")%string.
  - cbn [snd]. split; [by rewrite aliveServers_in_fields|].
    exists s. rewrite alive_table by done. rewrite Hs.
    rewrite decide_True; [done|]. unfold aliveAt. lia.
  - destruct (Method req =? "POST")%string; [|cbn; eauto].
    destruct (HeaderGet req "X-Myrpc-Server" =? "")%string; [cbn; eauto|].
    cbn [snd]. unfold putServer.
    destruct (decide (HeaderGet req "X-Myrpc-Server" = addr)) as [->|Hne].
    + rewrite Hs. cbn. split; [done|]. rewrite lookup_insert_eq.
      eexists. split; [done|]. cbn. lia.
    + destruct (servers r !! HeaderGet req "X-Myrpc-Server"); cbn;
        (split; [done|]); rewrite lookup_insert_ne by done; eauto.
Qed.

Lemma serve_keeps addr t p reqs : ∀ r,
  (timeout r = 0 ∨ p < timeout r) →
  Forall (λ x, t ≤ x.1 ≤ t + p) reqs →
  (∃ s, servers r !! addr = Some s ∧ t ≤ start s) →
  timeout (serve reqs r) = timeout r
  ∧ ∃ s, servers (serve reqs r) !! addr = Some s ∧ t ≤ start s.
Proof.
  induction reqs as [|[now req] reqs IH]; intros r Hp Hall Hs; [by cbn|].
  apply Forall_cons in Hall as [Hnow Hall]. cbn [fst] in Hnow.
  unfold serve. cbn [foldl fst snd]. fold (serve reqs (ServeHTTP now req r).2).
  destruct (ServeHTTP_keeps addr t p now req r Hp Hnow Hs) as [Ht Hs'].
  destruct (IH (ServeHTTP now req r).2) as [Ht' Hs'']; [by rewrite Ht|done|done|].
  split; [congruence|done].
Qed.

(** X27. Between two heartbeats the server stays listed.  Once the
    registry has served the heartbeat of [addr] at time [t], then whatever
    requests it serves within the period of [Heartbeat] after [t], be
    they of clients or of other servers, any answer of [aliveServers]
    within that period lists [addr], as long as the period is shorter than
    the timeout of the registry; the default period is shorter than the
    default timeout. *)
Theorem Heartbeat_keeps_alive duration addr t reqs now r :
  addr ≠ ""%string →
  (timeout r = 0 ∨ Server.heartbeatPeriod duration < timeout r) →
  Forall (λ x, t ≤ x.1 ≤ t + Server.heartbeatPeriod duration) reqs →
  t ≤ now ≤ t + Server.heartbeatPeriod duration →
  addr ∈ (aliveServers now
            (serve reqs (ServeHTTP t (Server.sendHeartbeat addr) r).2)).1
  ∧ Server.heartbeatPeriod 0 < defaultTimeout.
Proof.
  intros Haddr Hp Hall Hnow. split; [|by vm_compute].
  set (r1 := (ServeHTTP t (Server.sendHeartbeat addr) r).2).
  assert (timeout r1 = timeout r
          ∧ ∃ s, servers r1 !! addr = Some s ∧ t ≤ start s) as [Ht1 Hs1].
  { unfold r1, ServeHTTP, ServeHTTP_in, Server.sendHeartbeat, HeaderGet.
    cbn [Method Header]. rewrite lookup_singleton_eq. change (default ""%string (Some addr)) with addr.
    change ("POST" =? "GET")%string with false.
    change ("POST" =? "POST")%string with true. cbn match.
    destruct (String.eqb_spec addr "") as [|_]; [done|]. cbn [snd].
    unfold putServer. destruct (servers r !! addr); cbn;
      (split; [done|]); rewrite lookup_insert_eq; eexists; (split; [done|]); cbn; lia. }
  destruct (serve_keeps addr t (Server.heartbeatPeriod duration) reqs r1)
    as [Ht (s & Hs & Hst)]; [by rewrite Ht1|done|done|].
  unfold aliveServers. apply alive_elem; [done|].
  exists s. split; [done|]. unfold aliveAt. rewrite Ht, Ht1. lia.
Qed.

End Heartbeat.

(** A registry with the default timeout, a server with the default
    period, and a client and another server in between. *)
Lemma Heartbeat_keeps_alive_witness :
  "tcp@a" ≠ ""%string
  ∧ (Server.heartbeatPeriod 0
     < Registry.timeout (Registry.New Registry.defaultTimeout))%Z
  ∧ Forall (λ x : Z * Registry.Request,
              (0 ≤ x.1 ≤ 0 + Server.heartbeatPeriod 0)%Z)
      [(1000000000%Z, Registry.mkRequest "GET" ∅);
       (2000000000%Z, Server.sendHeartbeat "tcp@b")]
  ∧ (0 ≤ 240000000000 ≤ 0 + Server.heartbeatPeriod 0)%Z
  ∧ "tcp@a"
    ∈ (Registry.aliveServers 240000000000
         (Registry.serve
            [(1000000000%Z, Registry.mkRequest "GET" ∅);
             (2000000000%Z, Server.sendHeartbeat "tcp@b")]
            (Registry.ServeHTTP 0 (Server.sendHeartbeat "tcp@a")
               (Registry.New Registry.defaultTimeout)).2)).1.
Proof.
  assert ("tcp@a" ≠ ""%string) as H1 by discriminate.
  assert (Server.heartbeatPeriod 0
          < Registry.timeout (Registry.New Registry.defaultTimeout))%Z
    as H2 by (vm_compute; reflexivity).
  assert (Forall (λ x : Z * Registry.Request,
                    (0 ≤ x.1 ≤ 0 + Server.heartbeatPeriod 0)%Z)
            [(1000000000%Z, Registry.mkRequest "GET" ∅);
             (2000000000%Z, Server.sendHeartbeat "tcp@b")]) as H3.
  { repeat constructor; vm_compute; discriminate. }
  assert (0 ≤ 240000000000 ≤ 0 + Server.heartbeatPeriod 0)%Z as H4.
  { split; vm_compute; discriminate. }
  refine (conj H1 (conj H2 (conj H3 (conj H4 _)))).
  exact (proj1 (Heartbeat_keeps_alive 0 "tcp@a" 0 _ _ _ H1 (or_intror H2) H3 H4)).
Defined.

(** One nanosecond after the timeout the server is gone. *)
Example Heartbeat_missed :
  (Registry.aliveServers 300000000000
     (Registry.ServeHTTP 0 (Server.sendHeartbeat "tcp@a")
        (Registry.New Registry.defaultTimeout)).2).1 = [].
Proof. vm_compute. reflexivity. Qed.

(** ** The clients of the balancing client *)

Section ClientFlags.
Import Client.

Lemma closing_done l w : closing (client (done l w)) = closing (client w).
Proof. by rewrite client_done. Qed.

Lemma closing_registerCall l w :
  closing (client (registerCall l w).2) = closing (client w).
Proof.
  unfold registerCall. by destruct (closing (client w) || shutdown (client w)).
Qed.

Lemma closing_terminate_loop err (es : list (N * loc)) : ∀ w,
  closing (client (foldl (λ w e, done e.2 (setError e.2 (Some err) w)) w es))
  = closing (client w).
Proof.
  induction es as [|e es IH]; intros w; cbn [foldl]; [done|].
  by rewrite IH, closing_done.
Qed.

Lemma closing_step ev w w' :
  step ev w = Some w' →
  closing (client w) = true → closing (client w') = true.
Proof.
  intros Hstep Hc. destruct ev as [l sm args dn|err|h body bodyErr|err| |l|];
    cbn in Hstep.
  - destruct (heap w !! l); [done|]. destruct (sender w); [done|].
    injection Hstep as <-. unfold sendRegister.
    destruct (registerCall l _) as [[s err] w1] eqn:Hreg.
    assert (closing (client w1) = true) as H1.
    { change w1 with ((s, err, w1).2). rewrite <- Hreg.
      by rewrite closing_registerCall. }
    destruct err; cbn; by rewrite ?closing_done.
  - destruct (sender w) as [[l s]|]; [|done]. injection Hstep as <-.
    unfold sendWrite. destruct err as [e|]; [|done]. cbn.
    destruct (pending (client w) !! s); cbn; by rewrite ?closing_done.
  - destruct (recv w); try done. injection Hstep as <-.
    unfold receiveHeader. cbn.
    destruct (pending (client w) !! Codec.Seq h); [|done].
    destruct (negb (Codec.Error h =? "")%string); cbn;
      [by rewrite closing_done|].
    destruct bodyErr; cbn; by rewrite closing_done.
  - destruct (recv w); try done. by injection Hstep as <-.
  - destruct (recv w); try done. destruct (sender w); [done|].
    injection Hstep as <-. cbn. unfold terminateCalls.
    by rewrite closing_terminate_loop.
  - destruct (heap w !! l); [|done]. by injection Hstep as <-.
  - injection Hstep as <-. unfold Close. by rewrite Hc.
Qed.

Lemma closing_run evs : ∀ w w',
  run evs w = Some w' →
  closing (client w) = true → closing (client w') = true.
Proof.
  induction evs as [|ev evs IH]; intros w w' Hrun Hc; cbn in Hrun.
  - by injection Hrun as <-.
  - destruct (step ev w) as [w1|] eqn:Hstep; [|done].
    apply (IH w1); [done|]. by apply (closing_step ev w).
Qed.

Lemma closing_Close w : closing (client (Close w).2) = true.
Proof. unfold Close. by destruct (closing (client w)) eqn:Hc. Qed.

End ClientFlags.

Section Pool.
Import XClient.

Lemma pool_inv_New : pool_inv NewXClient.
Proof.
  split; cbn.
  - intros a c H. by rewrite lookup_empty in H.
  - intros a b c H. by rewrite lookup_empty in H.
  - intros c w H. by rewrite lookup_empty in H.
Qed.

(** Closing the client of an entry and deleting the entry. *)
Lemma pool_inv_drop a c xc :
  clients xc !! a = Some c → pool_inv xc →
  pool_inv (deleteClient a (closeClient c xc)).
Proof.
  intros Ha [Hd Hu Hc]. split; cbn.
  - intros b c' Hb. apply lookup_delete_Some in Hb as [_ Hb].
    apply lookup_alter_is_Some. by apply (Hd b).
  - intros b1 b2 c' H1 H2.
    apply lookup_delete_Some in H1 as [_ H1].
    apply lookup_delete_Some in H2 as [_ H2]. by apply (Hu b1 b2 c').
  - intros c' w' Hw. destruct (decide (c' = c)) as [->|Hne].
    + rewrite lookup_alter_eq in Hw.
      destruct (dialled xc !! c) as [w|]; [|done]. injection Hw as <-.
      right. apply closing_Close.
    + rewrite lookup_alter_ne in Hw by done.
      destruct (Hc c' w' Hw) as [[b Hb]|?]; [|by right].
      left. exists b. rewrite lookup_delete_ne; [done|].
      intros <-. congruence.
Qed.

(** Pooling a client just dialled under an address that has none. *)
Lemma pool_inv_add a w xc :
  clients xc !! a = None → pool_inv xc →
  pool_inv {| clients := <[a := fresh (dom (dialled xc))]> (clients xc);
              dialled := <[fresh (dom (dialled xc)) := w]> (dialled xc) |}.
Proof.
  intros Ha [Hd Hu Hc].
  assert (dialled xc !! fresh (dom (dialled xc)) = None) as Hfresh.
  { apply not_elem_of_dom. apply is_fresh. }
  split; cbn.
  - intros b c Hb. destruct (decide (a = b)) as [<-|Hne].
    + rewrite lookup_insert_eq in Hb. injection Hb as <-.
      by rewrite lookup_insert_eq.
    + rewrite lookup_insert_ne in Hb by done.
      apply lookup_insert_is_Some'. right. by apply (Hd b).
  - intros b1 b2 c H1 H2.
    destruct (decide (a = b1)) as [<-|Hn1], (decide (a = b2)) as [<-|Hn2];
      [done| | |].
    + rewrite lookup_insert_eq in H1. injection H1 as <-.
      rewrite lookup_insert_ne in H2 by done.
      destruct (Hd b2 _ H2) as [? ?]. congruence.
    + rewrite lookup_insert_eq in H2. injection H2 as <-.
      rewrite lookup_insert_ne in H1 by done.
      destruct (Hd b1 _ H1) as [? ?]. congruence.
    + rewrite lookup_insert_ne in H1, H2 by done. by apply (Hu b1 b2 c).
  - intros c w' Hw. destruct (decide (fresh (dom (dialled xc)) = c)) as [<-|Hne].
    + left. exists a. by rewrite lookup_insert_eq.
    + rewrite lookup_insert_ne in Hw by done.
      destruct (Hc c w' Hw) as [[b Hb]|?]; [|by right].
      left. exists b. rewrite lookup_insert_ne; [done|]. intros <-. congruence.
Qed.

Lemma pool_inv_dial a connect xc :
  pool_inv xc → pool_inv (dial a connect xc).2.
Proof.
  intros Hinv. unfold dial.
  destruct (clients xc !! a) as [c|] eqn:Ha.
  - destruct (available c xc) eqn:Hav; cbn [negb]; [done|].
    assert (clients (deleteClient a (closeClient c xc)) !! a = None) as Hnone.
    { cbn. apply lookup_delete_eq. }
    pose proof (pool_inv_drop a c xc Ha Hinv) as Hinv1.
    destruct (XDial a connect) as [w|err]; cbn [snd]; [|done].
    by apply pool_inv_add.
  - destruct (XDial a connect) as [w|err]; cbn [snd]; [|done].
    by apply pool_inv_add.
Qed.

Lemma Close_in_inv order : ∀ xc,
  NoDup order.*1 →
  (∀ a c, (a, c) ∈ order → clients xc !! a = Some c) →
  pool_inv xc →
  pool_inv (Close_in order xc)
  ∧ ∀ k, clients (Close_in order xc) !! k
         = if decide (k ∈ order.*1) then None else clients xc !! k.
Proof.
  induction order as [|[a c] order IH]; intros xc Hnd Hin Hinv;
    unfold Close_in; cbn [foldl fmap list_fmap fst snd].
  - split; [done|]. intros k. rewrite decide_False; [done|]. apply not_elem_of_nil.
  - fold (Close_in order (deleteClient a (closeClient c xc))).
    apply NoDup_cons in Hnd as [Hna Hnd].
    destruct (IH (deleteClient a (closeClient c xc))) as [Hinv' Hk]; [done| | |].
    + intros b c' Hb. cbn. rewrite lookup_delete_ne.
      * apply Hin. by right.
      * intros <-. apply Hna. apply list_elem_of_fmap. by exists (a, c').
    + apply pool_inv_drop; [|done]. apply Hin. by left.
    + split; [done|]. intros k. rewrite Hk. cbn.
      destruct (decide (k = a)) as [->|Hne].
      * rewrite lookup_delete_eq, (decide_True (P := _ ∈ _ :: _)) by left.
        by destruct (decide _).
      * rewrite lookup_delete_ne by done.
        destruct (decide (k ∈ order.*1)) as [Hi|Hni].
        -- rewrite decide_True; [done|by right].
        -- rewrite decide_False; [done|]. by apply not_elem_of_cons.
Qed.

Lemma Close_in_perm order xc :
  order ≡ₚ map_to_list (clients xc) → pool_inv xc →
  pool_inv (Close_in order xc) ∧ clients (Close_in order xc) = ∅.
Proof.
  intros Hperm Hinv.
  destruct (Close_in_inv order xc) as [Hinv' Hk]; [| |done|].
  - rewrite Hperm. apply NoDup_fst_map_to_list.
  - intros a c Hac. rewrite Hperm in Hac. by apply elem_of_map_to_list.
  - split; [done|]. apply map_eq. intros k. rewrite Hk, lookup_empty.
    case_decide as Hin; [done|].
    destruct (clients xc !! k) as [c|] eqn:Hc; [|done].
    exfalso. apply Hin. apply list_elem_of_fmap. exists (k, c).
    split; [done|]. rewrite Hperm. by apply elem_of_map_to_list.
Qed.

Lemma pool_inv_clientRuns c evs xc xc' :
  clientRuns c evs xc = Some xc' → pool_inv xc → pool_inv xc'.
Proof.
  unfold clientRuns. intros Hrun [Hd Hu Hc].
  destruct (dialled xc !! c) as [w|] eqn:Hw; [|done].
  destruct (Client.run evs w) as [w'|] eqn:Hr; [|done].
  injection Hrun as <-. split; cbn.
  - intros a c' Ha. apply lookup_insert_is_Some'. right. by apply (Hd a).
  - done.
  - intros c' w1 Hw1. destruct (decide (c = c')) as [<-|Hne].
    + rewrite lookup_insert_eq in Hw1. injection Hw1 as <-.
      destruct (Hc c w Hw) as [?|Hcl]; [by left|right].
      by apply (closing_run evs w).
    + rewrite lookup_insert_ne in Hw1 by done. by apply Hc.
Qed.

Lemma reachable_pool_inv xc : reachable xc → pool_inv xc.
Proof.
  induction 1 as [|a connect xc _ IH|order xc _ IH Hperm|c evs xc xc' _ IH Hrun].
  - apply pool_inv_New.
  - by apply pool_inv_dial.
  - by apply Close_in_perm.
  - by apply (pool_inv_clientRuns c evs xc).
Qed.

(** X28. Whatever an [XClient] has done, and whatever the goroutines and
    the users of its clients have done: every pooled client was dialled,
    no client is pooled under two addresses, and every client that was
    dialled and is no longer pooled has been closed, so that no
    connection is dropped open. *)
Theorem XClient_invariant xc :
  reachable xc →
  (∀ a c, clients xc !! a = Some c → is_Some (dialled xc !! c))
  ∧ (∀ a b c, clients xc !! a = Some c → clients xc !! b = Some c → a = b)
  ∧ (∀ c w, dialled xc !! c = Some w →
       (∃ a, clients xc !! a = Some c)
       ∨ Client.closing (Client.client w) = true).
Proof. intros Hr. by destruct (reachable_pool_inv xc Hr). Qed.

(** X29. [Close] empties the pool, in whatever order the loop visits the
    map, and afterwards every client the [XClient] ever dialled is
    closed and not available. *)
Theorem Close_closes_every_client order xc :
  reachable xc →
  order ≡ₚ map_to_list (clients xc) →
  clients (Close_in order xc) = ∅
  ∧ ∀ c w, dialled (Close_in order xc) !! c = Some w →
      Client.closing (Client.client w) = true ∧ Client.IsAvailable w = false.
Proof.
  intros Hr Hperm.
  destruct (Close_in_perm order xc Hperm (reachable_pool_inv xc Hr))
    as [[_ _ Hc] Hempty].
  split; [done|]. intros c w Hw.
  assert (Client.closing (Client.client w) = true) as Hcl.
  { destruct (Hc c w Hw) as [[a Ha]|?]; [|done].
    rewrite Hempty, lookup_empty in Ha. done. }
  split; [done|]. unfold Client.IsAvailable. rewrite Hcl. apply andb_false_r.
Qed.

(** X30. A successful [dial] returns a client that was dialled and is now
    pooled under the address, and leaves the other entries alone; as long
    as that client is available, every further [dial] of the address
    returns it again without connecting and without changing anything.
    A failed [dial] leaves no entry under the address. *)
Theorem dial_spec a connect xc :
  reachable xc →
  (∀ c xc', dial a connect xc = (Client.OK c, xc') →
     clients xc' !! a = Some c
     ∧ is_Some (dialled xc' !! c)
     ∧ (∀ b, b ≠ a → clients xc' !! b = clients xc !! b)
     ∧ (∀ connect', available c xc' = true →
          dial a connect' xc' = (Client.OK c, xc')))
  ∧ (∀ err xc', dial a connect xc = (Client.Err err, xc') →
       clients xc' !! a = None
       ∧ ∀ b, b ≠ a → clients xc' !! b = clients xc !! b).
Proof.
  intros Hr.
  assert (∀ c xc', dial a connect xc = (Client.OK c, xc') →
            clients xc' !! a = Some c
            ∧ (∀ b, b ≠ a → clients xc' !! b = clients xc !! b)) as Hok.
  { intros c xc'. unfold dial.
    destruct (clients xc !! a) as [c0|] eqn:Ha.
    - destruct (available c0 xc) eqn:Hav; cbn [negb].
      + intros [= <- <-]. done.
      + destruct (XDial a connect) as [w|err]; [|done]. intros [= <- <-]. cbn.
        split; [by rewrite lookup_insert_eq|].
        intros b Hb. by rewrite lookup_insert_ne, lookup_delete_ne.
    - destruct (XDial a connect) as [w|err]; [|done]. intros [= <- <-]. cbn.
      split; [by rewrite lookup_insert_eq|].
      intros b Hb. by rewrite lookup_insert_ne. }
  split.
  - intros c xc' Hdial. destruct (Hok c xc' Hdial) as [Ha Hb].
    assert (pool_inv xc') as [Hd _ _].
    { change xc' with ((Client.OK c, xc').2). rewrite <- Hdial.
      apply pool_inv_dial. by apply reachable_pool_inv. }
    split_and!; [done|by apply (Hd a)|done|].
    intros connect' Hav. unfold dial. by rewrite Ha, Hav.
  - intros err xc'. unfold dial.
    destruct (clients xc !! a) as [c0|] eqn:Ha.
    + destruct (available c0 xc) eqn:Hav; cbn [negb]; [done|].
      destruct (XDial a connect) as [w|err']; [done|]. intros [= <- <-]. cbn.
      split; [apply lookup_delete_eq|]. intros b Hb. by rewrite lookup_delete_ne.
    + destruct (XDial a connect) as [w|err']; [done|]. by intros [= <- <-].
Qed.

End Pool.

Lemma reachable_stalePool : XClient.reachable XClient.stalePool.
Proof.
  apply (XClient.reachable_clientRuns 0%nat
           [Client.EvHeaderErr "EOF"; Client.EvTerminate]
           (XClient.dial "tcp@a" (Client.OK Client.newWorld) XClient.NewXClient).2).
  - apply XClient.reachable_dial, XClient.reachable_New.
  - vm_compute. reflexivity.
Defined.

Lemma reachable_samplePool : XClient.reachable XClient.samplePool.
Proof.
  apply (XClient.reachable_dial "tcp@b" (Client.OK Client.newWorld)
           XClient.redialledPool).
  apply (XClient.reachable_dial "tcp@a" (Client.OK Client.newWorld)
           XClient.stalePool).
  exact reachable_stalePool.
Defined.

(** The client at 0 is the one that was replaced. *)
Lemma XClient_invariant_witness :
  XClient.reachable XClient.samplePool
  ∧ XClient.clients XClient.samplePool = {[ "tcp@a" := 1%nat; "tcp@b" := 2%nat ]}
  ∧ (∀ c w, XClient.dialled XClient.samplePool !! c = Some w →
       (∃ a, XClient.clients XClient.samplePool !! a = Some c)
       ∨ Client.closing (Client.client w) = true).
Proof.
  split; [exact reachable_samplePool|].
  split; [vm_compute; reflexivity|].
  exact (proj2 (proj2 (XClient_invariant XClient.samplePool reachable_samplePool))).
Defined.

Lemma Close_closes_every_client_witness :
  XClient.reachable XClient.samplePool
  ∧ [("tcp@b", 2%nat); ("tcp@a", 1%nat)]
      ≡ₚ map_to_list (XClient.clients XClient.samplePool)
  ∧ XClient.clients
      (XClient.Close_in [("tcp@b", 2%nat); ("tcp@a", 1%nat)] XClient.samplePool)
    = ∅.
Proof.
  assert ([("tcp@b", 2%nat); ("tcp@a", 1%nat)]
            ≡ₚ map_to_list (XClient.clients XClient.samplePool)) as H.
  { vm_compute. first [reflexivity | apply perm_swap]. }
  split; [exact reachable_samplePool|]. split; [exact H|].
  exact (proj1 (Close_closes_every_client _ XClient.samplePool
                  reachable_samplePool H)).
Defined.

(** The stale client is replaced by the client at 1, which is then
    returned without connecting. *)
Lemma dial_spec_witness :
  XClient.reachable XClient.stalePool
  ∧ XClient.clients XClient.stalePool !! "tcp@a" = Some 0%nat
  ∧ XClient.dial "tcp@a" (Client.OK Client.newWorld) XClient.stalePool
    = (Client.OK 1%nat, XClient.redialledPool)
  ∧ XClient.available 1%nat XClient.redialledPool = true
  ∧ XClient.dial "tcp@a" (Client.Err "connection refused") XClient.redialledPool
    = (Client.OK 1%nat, XClient.redialledPool).
Proof.
  assert (XClient.dial "tcp@a" (Client.OK Client.newWorld) XClient.stalePool
          = (Client.OK 1%nat, XClient.redialledPool)) as H
    by (vm_compute; reflexivity).
  assert (XClient.available 1%nat XClient.redialledPool = true) as Hav
    by (vm_compute; reflexivity).
  split; [exact reachable_stalePool|]. split; [vm_compute; reflexivity|].
  split; [exact H|]. split; [exact Hav|].
  destruct (proj1 (dial_spec "tcp@a" (Client.OK Client.newWorld)
                     XClient.stalePool reachable_stalePool)
              1%nat XClient.redialledPool H) as (_ & _ & _ & Hre).
  exact (Hre (Client.Err "connection refused") Hav).
Defined.

(** A failed redial leaves the address without a client, the stale one
    closed. *)
Example dial_failure :
  XClient.clients
    (XClient.dial "tcp@a" (Client.Err "connection refused") XClient.stalePool).2
  = ∅
  ∧ (Client.closing ∘ Client.client)
      <$> XClient.dialled
            (XClient.dial "tcp@a" (Client.Err "connection refused")
               XClient.stalePool).2 !! 0%nat
    = Some true.
Proof. split; vm_compute; reflexivity. Qed.
